(** * Batch translation orchestrator (index.js): a shallow embedding

    The development follows [src/index.js]: the two request builders
    ([processFile], fill-missing-cells mode, and [translateCsvToLanguage],
    whole-table mode), the batcher and dispatcher
    ([prepareAndExecuteTranslations]), the two reassembly loops and the HTTP
    entry point ([translateHandler]).

    Conventions.
    - A JavaScript string is a [string]; a character is one code unit, taken
      in the Latin-1 range (0..255), where [trim] and [toLowerCase] are
      given exactly.
    - A thrown [Error] is its message.
    - The external collaborators (OpenAI chat call, [fetch], csv-parser,
      csv-writer, [Buffer], [path]) are variables of the section
      [Orchestrator].
    - Asynchronous code is run in submission order; every Provider call is
      recorded in a log that is threaded through the run. *)

From Stdlib Require Import Ascii String DecimalString.
From stdpp Require Import base list strings gmap.

(** ** JavaScript string primitives *)

Module JS.

(** [WhiteSpace] and [LineTerminator] code units below 256: TAB, LF, VT, FF,
  CR, SP and NBSP. *)
Definition isWhiteSpace (c : ascii) : bool :=
let n := nat_of_ascii c in
((9 <=? n) && (n <=? 13)) || (n =? 32) || (n =? 160).

Fixpoint trimStart (s : string) : string :=
match s with
| EmptyString => EmptyString
| String c s' => if isWhiteSpace c then trimStart s' else s
end.

Definition trimEnd (s : string) : string :=
String.rev (trimStart (String.rev s)).

(** [String.prototype.trim] *)
Definition trim (s : string) : string := trimEnd (trimStart s).

(** [String.prototype.toLowerCase] on Latin-1 code units: A-Z and the
  accented capitals 192..222 (except the multiplication sign 215) move up
  by 32; every other code unit below 256 is its own lower case. *)
Definition lowerChar (c : ascii) : ascii :=
let n := nat_of_ascii c in
if ((65 <=? n) && (n <=? 90)) || ((192 <=? n) && (n <=? 222) && negb (n =? 215))
then ascii_of_nat (n + 32) else c.

Fixpoint toLowerCase (s : string) : string :=
match s with
| EmptyString => EmptyString
| String c s' => String (lowerChar c) (toLowerCase s')
end.

(** [s.split(sep)] for a one-character separator: never an empty array. *)
Fixpoint split (sep : ascii) (s : string) : list string :=
match s with
| EmptyString => [EmptyString]
| String c s' =>
    if decide (c = sep) then EmptyString :: split sep s'
    else match split sep s' with
         | cur :: rest => String c cur :: rest
         | [] => [String c EmptyString]
         end
end.

(** [parts.join(sep)] *)
Fixpoint join (sep : string) (parts : list string) : string :=
match parts with
| [] => ""
| [p] => p
| p :: rest => p +:+ sep +:+ join sep rest
end.

(** Truthiness of a string value: every string but the empty one. *)
Definition truthy (s : string) : bool := negb (bool_decide (s = "")).

End JS.

(** ** Errors and results *)

Inductive result (A : Type) : Type :=
| Ok (a : A)
| Throw (message : string).
Arguments Ok {A} a.
Arguments Throw {A} message.

Definition isThrow {A} (r : result A) : bool :=
  match r with Throw _ => true | Ok _ => false end.

(** ** Tables *)

(** A row object of csv-parser: its own keys in [Object.keys] order, each
    with its string value. *)
Definition Row := list (string * string).

Definition columnsOf (row : Row) : list string := row.*1.

(** [row[col]]: [None] is [undefined]. *)
Fixpoint rowGet (row : Row) (col : string) : option string :=
  match row with
  | [] => None
  | (k, v) :: row' => if decide (k = col) then Some v else rowGet row' col
  end.

(** [row[col] = v]: an existing key keeps its place, a new key is added
    last. (A new key that reads as an array index would be enumerated
    before the others; column names are not told apart in this way.) *)
Fixpoint rowSet (row : Row) (col v : string) : Row :=
  match row with
  | [] => [(col, v)]
  | (k, w) :: row' =>
      if decide (k = col) then (k, v) :: row' else (k, w) :: rowSet row' col v
  end.

(** [!cell || cell.trim() === ''] *)
Definition isBlank (cell : option string) : bool :=
  match cell with
  | None => true
  | Some s => negb (JS.truthy s) || bool_decide (JS.trim s = "")
  end.

(** [cell && cell.trim() !== ''] *)
Definition nonBlank (cell : option string) : bool :=
  match cell with
  | None => false
  | Some s => JS.truthy s && negb (bool_decide (JS.trim s = ""))
  end.

(** ** Language validation *)

Definition supportedLanguages : list string :=
  [ "English"; "Spanish"; "French"; "German"; "Chinese"; "Japanese";
    "Korean"; "Russian"; "Arabic"; "Portuguese"; "Italian"; "Dutch";
    "Greek"; "Hebrew"; "Hindi"; "Norwegian"; "Polish"; "Swedish";
    "Turkish"; "Vietnamese"; "Thai"; "Indonesian"; "Malay"; "Bengali";
    "Punjabi"; "Tamil"; "Telugu"; "Marathi"; "Gujarati"; "Kannada";
    "Urdu"; "Persian"; "Ukrainian"; "Romanian"; "Hungarian"; "Czech";
    "Slovak"; "Bulgarian"; "Croatian"; "Serbian"; "Finnish"; "Danish";
    "Icelandic"; "Filipino"; "Swahili"; "Zulu"; "Afrikaans"; "Amharic";
    "Yoruba"; "Hausa"; "Igbo"; "Burmese"; "Khmer"; "Lao"; "Sinhala";
    "Nepali"; "Pashto"; "Somali"; "Tigrinya"; "Mongolian"; "Kazakh";
    "Uzbek"; "Tajik"; "Kyrgyz"; "Turkmen"; "Azerbaijani"; "Georgian";
    "Armenian"; "Albanian"; "Bosnian"; "Macedonian"; "Montenegrin";
    "Slovenian"; "Latvian"; "Lithuanian"; "Estonian"; "Maltese";
    "Luxembourgish"; "Welsh"; "Irish"; "Scottish Gaelic"; "Breton";
    "Basque"; "Galician"; "Catalan"; "Occitan"; "Corsican"; "Sardinian" ].

Definition normalizeLanguage (lang : string) : string :=
  JS.trim (JS.toLowerCase lang).

Definition isSupported (lang : string) : bool :=
  bool_decide (normalizeLanguage lang ∈ normalizeLanguage <$> supportedLanguages).

Definition validateLanguageCode (lang : string) : result unit :=
  if isSupported lang then Ok tt
  else Throw ("Unsupported language code: " +:+ lang).

(** ** The effect monad: errors and the log of Provider calls *)

#[global] Instance result_ret : MRet result := @Ok.
#[global] Instance result_bind : MBind result := λ A B f r,
  match r with Ok a => f a | Throw e => Throw e end.

(** The argument of one [translateTextBatch] call. *)
Record ProviderCall := {
  call_texts : list string;
  call_sourceLang : string;
  call_targetLang : string;
}.

(** One element of the [translations] array of the structured output. *)
Record Translation := {
  original_text : string;
  translated_text : string;
}.

(** A computation reads the log of the Provider calls made so far and
    returns a value or a thrown error, with the log extended. *)
Definition M (A : Type) : Type :=
  list ProviderCall → result A * list ProviderCall.

#[global] Instance M_ret : MRet M := λ A a log, (Ok a, log).
#[global] Instance M_bind : MBind M := λ A B f m log,
  match m log with
  | (Ok a, log') => f a log'
  | (Throw e, log') => (Throw e, log')
  end.

Definition throw {A} (message : string) : M A := λ log, (Throw message, log).

(** A synchronous step that may throw. *)
Definition liftR {A} (r : result A) : M A := λ log, (r, log).

(** [Promise.all] over promises that were all started: every one runs, in
    submission order; the result is all the values, or a rejection as soon
    as one promise rejects. The rejection kept here is that of the first
    promise of the list that rejects (the runtime keeps the earliest in
    time). *)
Fixpoint promiseAll {A} (promises : list (M A)) : M (list A) :=
  match promises with
  | [] => mret []
  | p :: rest => λ log,
      let '(r, log1) := p log in
      let '(rs, log2) := promiseAll rest log1 in
      (match r, rs with
       | Throw e, _ => Throw e
       | Ok _, Throw e => Throw e
       | Ok a, Ok l => Ok (a :: l)
       end, log2)
  end.

(** ** Batching: the loop of [prepareAndExecuteTranslations] *)

Section Batcher.
Context {A : Type}.
Variable MAX_BATCH_SIZE : nat.

(** [requests.slice(i, j)] for indices [0 <= i], [0 <= j]. *)
Definition slice (i j : nat) (requests : list A) : list A :=
  take (j - i) (drop i requests).

(** [for (let i = start; i < requests.length; i += MAX_BATCH_SIZE)],
    collecting [requests.slice(i, i + MAX_BATCH_SIZE)]; [steps] bounds the
    number of iterations. *)
Fixpoint batchLoop (steps i : nat) (requests : list A) : list (list A) :=
  match steps with
  | 0 => []
  | S steps' =>
      if decide (i < length requests)
      then slice i (i + MAX_BATCH_SIZE) requests
             :: batchLoop steps' (i + MAX_BATCH_SIZE) requests
      else []
  end.

(** With a step of at least one, [length requests] iterations exhaust the
    loop. *)
Definition batches (requests : list A) : list (list A) :=
  batchLoop (length requests) 0 requests.
End Batcher.

(** Anything with a [text] property can be sent to the Provider. *)
Class HasText (A : Type) := textOf : A → string.

(** A request of fill-missing-cells mode. *)
Record Request := {
  rowIndex : nat;
  sourceLang : string;
  targetLang : string;
  text : string;
}.

(** A request of whole-table mode: [{ text }]. *)
Record TextRequest := { text_only : string }.

#[global] Instance Request_text : HasText Request := text.
#[global] Instance TextRequest_text : HasText TextRequest := text_only.

#[global] Instance Request_eq_dec : EqDecision Request.
Proof. solve_decision. Defined.
#[global] Instance Translation_eq_dec : EqDecision Translation.
Proof. solve_decision. Defined.
#[global] Instance ProviderCall_eq_dec : EqDecision ProviderCall.
Proof. solve_decision. Defined.

(** The file object returned for one table. *)
Record File := {
  name : string;
  mime_type : string;
  content : string;
}.

(** The response object of [fetch]. *)
Record FetchResponse := {
  ok : bool;
  responseText : result string;   (* [await response.text()] *)
}.

(** ** Fill-missing-cells mode: building the requests *)

(** [columns.find((col) => col !== targetLang && row[col] &&
    row[col].trim() !== '')] *)
Definition findSource (row : Row) (targetLang : string) : option string :=
  List.find
    (λ col, negb (bool_decide (col = targetLang)) && nonBlank (rowGet row col))
    (columnsOf row).

(** The body of [columns.forEach((targetLang) => ...)], over the columns
    still to visit; [acc] is [translationRequests]. The source cell
    [row[sourceLang]] is a string there, since [find] saw it non-blank. *)
Fixpoint scanColumns (rowIndex : nat) (row : Row) (columns : list string)
    (acc : list Request) : result (list Request) :=
  match columns with
  | [] => Ok acc
  | targetLang :: columns' =>
      if isBlank (rowGet row targetLang) then
        match findSource row targetLang with
        | Some sourceLang =>
            if JS.truthy sourceLang then
              _ ← validateLanguageCode sourceLang;
              _ ← validateLanguageCode targetLang;
              scanColumns rowIndex row columns'
                (acc ++ [{| rowIndex := rowIndex;
                            sourceLang := sourceLang;
                            targetLang := targetLang;
                            text := default "" (rowGet row sourceLang) |}])
            else scanColumns rowIndex row columns' acc
        | None => scanColumns rowIndex row columns' acc
        end
      else scanColumns rowIndex row columns' acc
  end.

(** [rows.forEach((row, rowIndex) => ...)] from row [rowIndex] on. *)
Fixpoint scanRows (rowIndex : nat) (rows : list Row) (acc : list Request)
    : result (list Request) :=
  match rows with
  | [] => Ok acc
  | row :: rows' =>
      acc' ← scanColumns rowIndex row (columnsOf row) acc;
      scanRows (S rowIndex) rows' acc'
  end.

Definition buildRequests (rows : list Row) : result (list Request) :=
  scanRows 0 rows [].

(** ** Grouping by language pair *)

(** [`${sourceLang}-${targetLang}`] *)
Definition langPairKey (request : Request) : string :=
  sourceLang request +:+ "-" +:+ targetLang request.

(** [requestsByLangPair]: an object whose string keys are enumerated in
    insertion order. *)
Definition Groups := list (string * list Request).

(** [if (!o[key]) o[key] = []; o[key].push(request)] *)
Fixpoint groupPush (groups : Groups) (key : string) (request : Request) : Groups :=
  match groups with
  | [] => [(key, [request])]
  | (k, requests) :: groups' =>
      if decide (k = key) then (k, requests ++ [request]) :: groups'
      else (k, requests) :: groupPush groups' key request
  end.

Definition groupByLangPair (translationRequests : list Request) : Groups :=
  foldl (λ groups request, groupPush groups (langPairKey request) request)
        [] translationRequests.

(** [const [sourceLang, targetLang] = langPair.split('-')]; a missing
    component is [undefined] and prints as such in the prompt. *)
Definition splitLangPair (langPair : string) : string * string :=
  match JS.split "-" langPair with
  | a :: b :: _ => (a, b)
  | [a] => (a, "undefined")
  | [] => ("undefined", "undefined")
  end.

(** ** Fill-missing-cells mode: writing the translations back *)

(** [translations.find((t) => t.original_text === text)?.translated_text] *)
Definition findTranslation (translations : list Translation) (text : string)
    : option string :=
  translated_text <$>
    List.find (λ t, bool_decide (original_text t = text)) translations.

(** [rows[rowIndex][col] = v]; a missing row is a [TypeError]. *)
Definition setCell (rows : list Row) (rowIndex : nat) (col v : string)
    : result (list Row) :=
  match rows !! rowIndex with
  | Some row => Ok (<[rowIndex := rowSet row col v]> rows)
  | None => Throw "Cannot set properties of undefined"
  end.

(** [requests.forEach(({ rowIndex, targetLang, text }) => ...)] *)
Fixpoint applyTranslations (rows : list Row) (requests : list Request)
    (translations : list Translation) : result (list Row) :=
  match requests with
  | [] => Ok rows
  | request :: requests' =>
      match findTranslation translations (text request) with
      | Some translatedText =>
          if JS.truthy translatedText then
            rows' ← setCell rows (rowIndex request) (targetLang request)
                            translatedText;
            applyTranslations rows' requests' translations
          else applyTranslations rows requests' translations
      | None => applyTranslations rows requests' translations
      end
  end.

(** ** Whole-table mode: the pure steps *)

(** [csvData.split('\n').map(row => row.split(','))] *)
Definition parseCells (csvData : string) : list (list string) :=
  JS.split "," <$> JS.split "010" csvData.

(** [textsSet.add(cell)] on a [Set] enumerated in insertion order. *)
Definition setAdd (textsSet : list string) (cell : string) : list string :=
  if decide (cell ∈ textsSet) then textsSet else textsSet ++ [cell].

(** The two nested [forEach] loops that fill [textsSet]. *)
Definition collectTexts (rows : list (list string)) : list string :=
  foldl (λ textsSet row,
           foldl (λ textsSet cell,
                    if nonBlank (Some cell) then setAdd textsSet cell
                    else textsSet)
                 textsSet row)
        [] rows.

(** [translationMap]: a [Map] filled by [set] in the order of the results. *)
Definition buildTranslationMap (translations : list Translation)
    : gmap string string :=
  foldl (λ translationMap t,
           <[original_text t := translated_text t]> translationMap)
        ∅ translations.

(** [translationMap.get(cell) || cell] *)
Definition translateCell (translationMap : gmap string string) (cell : string)
    : string :=
  match translationMap !! cell with
  | Some translated => if JS.truthy translated then translated else cell
  | None => cell
  end.

(** [rows.map(row => row.map(cell => translationMap.get(cell) || cell))] *)
Definition translateRows (translationMap : gmap string string)
    (rows : list (list string)) : list (list string) :=
  (λ row : list string, translateCell translationMap <$> row) <$> rows.

(** [translatedRows.map(row => row.join(',')).join('\n')] *)
Definition writeCells (rows : list (list string)) : string :=
  JS.join (String "010" "") (JS.join "," <$> rows).

(** ** The configuration read from the environment *)

(** [const MAX_BATCH_SIZE = process.env.MAX_BATCH_SIZE || 10]: an
    environment variable, when set, is a string, and the loop of
    [prepareAndExecuteTranslations] then runs on JavaScript's mixed
    arithmetic. This module follows that loop on the values it meets: the
    number [0], and strings. *)
Module EnvConfig.

Inductive JSValue :=
| JSNumber (n : nat)
| JSString (s : string).

Definition MAX_BATCH_SIZE (env : option string) : JSValue :=
  match env with
  | Some s => if JS.truthy s then JSString s else JSNumber 10
  | None => JSNumber 10
  end.

(** [const MAX_CONCURRENCY_REQ = process.env.MAX_CONCURRENCY_REQ || 100] *)
Definition MAX_CONCURRENCY_REQ (env : option string) : JSValue :=
  match env with
  | Some s => if JS.truthy s then JSString s else JSNumber 100
  | None => JSNumber 100
  end.

(** [ToString]: a natural number prints in decimal. *)
Definition toString (v : JSValue) : string :=
  match v with
  | JSNumber n => NilZero.string_of_uint (Nat.to_uint n)
  | JSString s => s
  end.

(** [a + b]: a sum of numbers, or the concatenation of the two
    strings as soon as one operand is a string. *)
Definition add (a b : JSValue) : JSValue :=
  match a, b with
  | JSNumber x, JSNumber y => JSNumber (x + y)
  | _, _ => JSString (toString a +:+ toString b)
  end.

(** [StringToNumber] on a string of decimal digits (the empty string is
    0); [None] is [NaN]. Literals with a sign, a fraction, an exponent, a
    radix prefix or white space are not covered: they read as [NaN]
    here. *)
Fixpoint digitsValue (acc : nat) (s : string) : option nat :=
  match s with
  | EmptyString => Some acc
  | String c s' =>
      match Ascii.is_nat c with
      | Some d => digitsValue (10 * acc + d) s'
      | None => None
      end
  end.

Definition toNumber (v : JSValue) : option nat :=
  match v with
  | JSNumber n => Some n
  | JSString s => digitsValue 0 s
  end.

(** [i < requests.length]: false on [NaN]. *)
Definition lessThan (i : JSValue) (len : nat) : bool :=
  match toNumber i with
  | Some x => bool_decide (x < len)
  | None => false
  end.

(** [ToIntegerOrInfinity], as [slice] applies it to its arguments:
    [NaN] is 0. *)
Definition toIndex (v : JSValue) : nat := default 0 (toNumber v).

(** The loop, with [fuel] iterations allowed: [None] when it is still
    running after them. *)
Fixpoint batchLoop {A} (size : JSValue) (fuel : nat) (i : JSValue)
    (requests : list A) : option (list (list A)) :=
  match fuel with
  | 0 => None
  | S fuel' =>
      if lessThan i (length requests)
      then
        rest ← batchLoop size fuel' (add i size) requests;
        Some (slice (toIndex i) (toIndex (add i size)) requests :: rest)
      else Some []
  end.

Definition batches {A} (size : JSValue) (fuel : nat) (requests : list A)
    : option (list (list A)) :=
  batchLoop size fuel (JSNumber 0) requests.

End EnvConfig.

(** [pLimit(concurrency)]: before it returns the limiter, p-limit checks
    its argument, [(Number.isInteger(concurrency) || concurrency ===
    Infinity) && concurrency > 0], and throws a [TypeError] otherwise. A
    string, which is what the environment gives, is not an integer. *)
Definition pLimit (concurrency : EnvConfig.JSValue) : result unit :=
  match concurrency with
  | EnvConfig.JSNumber (S _) => Ok tt
  | _ => Throw "Expected `concurrency` to be a number from 1 and up"
  end.

(** ** The orchestrator *)

(** [req.body], an object once the body parser of the HTTP framework has
    run, after destructuring: [openaiFileIdRefs] is an array of file
    references or any other value; [language] is a string or absent. *)
Record FileRef := {
  ref_name : string;
  download_link : string;
}.

Inductive RefsField :=
| NotAnArray
| RefsArray (refs : list FileRef).

Record RequestBody := {
  openaiFileIdRefs : RefsField;
  language : option string;
}.

Inductive ResponseBody :=
| ErrorBody (error : string)
| FilesBody (openaiFileResponse : list File).

Record Response := {
  status : nat;
  body : ResponseBody;
}.

(** [Invalid or empty "openaiFileIdRefs" array.], the quotation marks
    being the code unit 34. *)
Definition invalidRefsMessage : string :=
  "Invalid or empty " +:+ String "034" ("openaiFileIdRefs" +:+
    String "034" " array.").

Section Orchestrator.
(** Configuration: the numeric batch size (10 unless configured), and
    the concurrency limit as line 17 reads it: the number 100, or the
    string of the environment. *)
Variable MAX_BATCH_SIZE : nat.
Variable MAX_CONCURRENCY_REQ : EnvConfig.JSValue.

(** The chat completion and the parsing of its structured output: given
    the calls made so far and the current one, the [translations] array or
    an error. *)
Variable provider : list ProviderCall → ProviderCall → result (list Translation).

(** csv-parser, csv-writer, [Buffer], [path.basename] and [fetch]. *)
Variable parseCsvData : string → result (list Row).
Variable stringifyCsv : list string → list Row → string.
Variable base64 : string → string.
Variable basename : string → string.
Variable fetch : string → result FetchResponse.

Definition translateTextBatch (call : ProviderCall) : M (list Translation) :=
  λ log, (provider log call, log ++ [call]).

(** One entry of [translationPromises]. [limit] runs every task that is
    submitted to it, as soon as a permit is free; how many run at the same
    time is not part of this model. *)
Definition batchPromise `{HasText A} (sourceLang targetLang : string)
    (batch : list A) : M (list Translation * list A) :=
  translations ← translateTextBatch
                   {| call_texts := textOf <$> batch;
                      call_sourceLang := sourceLang;
                      call_targetLang := targetLang |};
  mret (translations, batch).

(** [prepareAndExecuteTranslations]: the limiter is created first, then
    one promise per batch. *)
Definition prepareAndExecuteTranslations `{HasText A} (requests : list A)
    (sourceLang targetLang : string) : M (list Translation) :=
  limit ← liftR (pLimit MAX_CONCURRENCY_REQ);
  let translationPromises :=
    batchPromise sourceLang targetLang <$> batches MAX_BATCH_SIZE requests in
  translationResults ← promiseAll translationPromises;
  mret (mjoin (fst <$> translationResults)).

(** [writeCsvData] *)
Definition writeCsvData (rows : list Row) : string :=
  match rows with
  | [] => ""
  | row :: _ => stringifyCsv (columnsOf row) rows
  end.

(** The [for ... of Object.entries(requestsByLangPair)] loop. *)
Fixpoint processGroups (groups : Groups) (rows : list Row) : M (list Row) :=
  match groups with
  | [] => mret rows
  | (langPair, requests) :: groups' =>
      let '(sourceLang, targetLang) := splitLangPair langPair in
      translations ←
        prepareAndExecuteTranslations requests sourceLang targetLang;
      rows' ← liftR (applyTranslations rows requests translations);
      processGroups groups' rows'
  end.

(** [processFile] from the parsed rows to the rows that are written. *)
Definition fillRows (rows : list Row) (fileName : string) : M (list Row) :=
  match rows with
  | [] => throw ("The CSV file " +:+ fileName +:+ " is empty.")
  | _ =>
      translationRequests ← liftR (buildRequests rows);
      match translationRequests with
      | [] => mret rows
      | _ => processGroups (groupByLangPair translationRequests) rows
      end
  end.

Definition fileOfRows (fileName : string) (rows : list Row) : File :=
  {| name := "translated_" +:+ fileName;
     mime_type := "text/csv";
     content := base64 (writeCsvData rows) |}.

Definition processFile (csv_data fileName : string) : M File :=
  rows ← liftR (parseCsvData csv_data);
  rows' ← fillRows rows fileName;
  mret (fileOfRows fileName rows').

(** [translateCsvToLanguage] from the parsed cells to the translated
    cells. *)
Definition translateTable (rows : list (list string))
    (fileName lang : string) : M (list (list string)) :=
  match rows with
  | [] => throw ("The CSV file " +:+ fileName +:+ " is empty.")
  | _ =>
      let texts := collectTexts rows in
      let translationRequests := (λ text, {| text_only := text |}) <$> texts in
      translations ←
        prepareAndExecuteTranslations translationRequests "any language" lang;
      mret (translateRows (buildTranslationMap translations) rows)
  end.

Definition translateCsvToLanguage (csvData fileName lang : string) : M File :=
  _ ← liftR (validateLanguageCode lang);
  translatedRows ← translateTable (parseCells csvData) fileName lang;
  mret {| name := "translated_" +:+ basename fileName;
          mime_type := "text/csv";
          content := base64 (writeCells translatedRows) |}.

(** The callback of [openaiFileIdRefs.map]. *)
Definition translateOne (language : option string) (fileRef : FileRef) : M File :=
  response ← liftR (fetch (download_link fileRef));
  if negb (ok response)
  then throw ("Failed to download file: " +:+ ref_name fileRef)
  else
    csvData ← liftR (responseText response);
    match language with
    | Some lang =>
        if JS.truthy lang
        then translateCsvToLanguage csvData (ref_name fileRef) lang
        else processFile csvData (ref_name fileRef)
    | None => processFile csvData (ref_name fileRef)
    end.

(** [translateHandler]: the response that is sent, after the Provider
    calls of the log. *)
Definition translateHandler (req : RequestBody)
    : list ProviderCall → Response * list ProviderCall :=
  λ log,
  match openaiFileIdRefs req with
  | NotAnArray | RefsArray [] =>
      ({| status := 400; body := ErrorBody invalidRefsMessage |}, log)
  | RefsArray refs =>
      match promiseAll (translateOne (language req) <$> refs) log with
      | (Ok translatedFiles, log') =>
          ({| status := 200; body := FilesBody translatedFiles |}, log')
      | (Throw message, log') =>
          ({| status := 500;
              body := ErrorBody (if JS.truthy message then message
                                 else "Internal Server Error") |}, log')
      end
  end.
End Orchestrator.

(** ** Specification-level definitions *)

(** The request that fill-missing-cells mode owes to the cell
    [(rowIndex, targetLang)]: none unless the cell is blank and another
    column of the row, with a non-empty name, is not blank; the first such
    column is the source. *)
Definition cellRequest (rowIndex : nat) (row : Row) (targetLang : string)
    : option Request :=
  if isBlank (rowGet row targetLang) then
    match findSource row targetLang with
    | Some sourceLang =>
        if JS.truthy sourceLang
        then Some {| rowIndex := rowIndex;
                     sourceLang := sourceLang;
                     targetLang := targetLang;
                     text := default "" (rowGet row sourceLang) |}
        else None
    | None => None
    end
  else None.

Definition requestsOfRow (rowIndex : nat) (row : Row) : list Request :=
  omap (cellRequest rowIndex row) (columnsOf row).

(** One request per cell that owes one, row by row, column by column. *)
Definition requestsOf (rows : list Row) : list Request :=
  mjoin (imap requestsOfRow rows).

(** The cells for which a request is due, as positions. *)
Definition qualifies (row : Row) (col : string) : bool :=
  bool_decide (is_Some (cellRequest 0 row col)).

Definition qualifyingCells (rows : list Row) : list (nat * string) :=
  mjoin (imap (λ i row, (λ col, (i, col)) <$> filter (λ col, qualifies row col = true) (columnsOf row)) rows).

(** The distinct elements of a list in order of first occurrence: the
    occurrence at position [i] is kept when the element occurs neither in
    [seen] nor before [i]. *)
Definition distinctFrom (seen l : list string) : list string :=
  omap id (imap (λ i x, if decide (x ∈ seen ++ take i l) then None else Some x) l).

Definition distinctInOrder (l : list string) : list string := distinctFrom [] l.

(** The non-blank cells of a table of cells, in reading order. *)
Definition nonBlankCells (rows : list (list string)) : list string :=
  filter (λ cell, nonBlank (Some cell) = true) (mjoin rows).

(** Every column name of the table passes language validation. *)
Definition columnsSupported (rows : list Row) : Prop :=
  ∀ row col, row ∈ rows → col ∈ columnsOf row → isSupported col = true.

(** A row object has each key once. *)
Definition wellFormed (rows : list Row) : Prop :=
  ∀ row, row ∈ rows → NoDup (columnsOf row).

(** Every cell of the table is non-empty after trimming. *)
Definition fullyPopulated (rows : list Row) : Prop :=
  ∀ row col v, row ∈ rows → (col, v) ∈ row → nonBlank (Some v) = true.

Definition requestSupported (r : Request) : Prop :=
  isSupported (sourceLang r) = true ∧ isSupported (targetLang r) = true.

Definition allRequests (groups : Groups) : list Request := mjoin groups.*2.

(** The cell at a position of the table. *)
Definition cellAt (rows : list Row) (i : nat) (col : string) : option string :=
  row ← rows !! i; rowGet row col.

Definition targetOf (r : Request) : nat * string := (rowIndex r, targetLang r).

(** The value the loop writes for a request: the translated text of the
    first result with the request's text, when it is not empty. *)
Definition written (translations : list Translation) (r : Request)
    : option string :=
  match findTranslation translations (text r) with
  | Some translatedText =>
      if JS.truthy translatedText then Some translatedText else None
  | None => None
  end.

(** A Provider call of the extension [ext] of the log threw: the call at
    position [k], made after [log] and the [k] calls before it. *)
Definition callFailed
    (provider : list ProviderCall → ProviderCall → result (list Translation))
    (log ext : list ProviderCall) : Prop :=
  ∃ k call, ext !! k = Some call ∧
            isThrow (provider (log ++ take k ext) call) = true.

(** A computation only extends the log, and it throws as soon as one of
    the Provider calls it made threw. *)
Definition failFast
    (provider : list ProviderCall → ProviderCall → result (list Translation))
    {A} (m : M A) : Prop :=
  ∀ log, ∃ ext, (m log).2 = log ++ ext ∧
                (callFailed provider log ext → isThrow (m log).1 = true).

(** The result of each promise of a list, run one after the other on the
    log. *)
Fixpoint settled {A} (promises : list (M A)) (log : list ProviderCall)
    : list (result A) :=
  match promises with
  | [] => []
  | p :: rest => (p log).1 :: settled rest (p log).2
  end.

(** The boolean form of [columnsSupported]. *)
Definition columnsSupportedb (rows : list Row) : bool :=
  forallb (λ row : Row, forallb isSupported (columnsOf row)) rows.

(** The boolean form of [fullyPopulated]. *)
Definition fullyPopulatedb (rows : list Row) : bool :=
  forallb (λ row : Row, forallb (λ cell : string * string,
                                   nonBlank (Some cell.2)) row) rows.

(** The Provider call that carries one batch. *)
Definition callOf `{HasText A} (sourceLang targetLang : string)
    (batch : list A) : ProviderCall :=
  {| call_texts := textOf <$> batch;
     call_sourceLang := sourceLang;
     call_targetLang := targetLang |}.

(** The boolean form of [wellFormed]. *)
Definition wellFormedb (rows : list Row) : bool :=
  forallb (λ row : Row, bool_decide (NoDup (columnsOf row))) rows.

(** The Provider's answers to the calls [calls], made one after the other
    after [log]. *)
Fixpoint answers
    (provider : list ProviderCall → ProviderCall → result (list Translation))
    (log calls : list ProviderCall) : list (result (list Translation)) :=
  match calls with
  | [] => []
  | call :: calls' => provider log call :: answers provider (log ++ [call]) calls'
  end.

(** ** Collaborators used to run the definitions on examples *)

Module Demo.

(** A Provider that answers every text with the target language, a
    colon and the text. *)
Definition echoProvider (_ : list ProviderCall) (call : ProviderCall)
    : result (list Translation) :=
  Ok ((λ t, {| original_text := t;
               translated_text := call_targetLang call +:+ ":" +:+ t |})
        <$> call_texts call).

(** A Provider that answers every text with the empty string. *)
Definition silentProvider (_ : list ProviderCall) (call : ProviderCall)
    : result (list Translation) :=
  Ok ((λ t, {| original_text := t; translated_text := "" |})
        <$> call_texts call).

(** A Provider that is down. *)
Definition failingProvider (_ : list ProviderCall) (_ : ProviderCall)
    : result (list Translation) :=
  Throw "503 Service Unavailable".

(** A Provider that fails on every call towards Spanish. *)
Definition noSpanish (log : list ProviderCall) (call : ProviderCall)
    : result (list Translation) :=
  if decide (call_targetLang call = "Spanish") then Throw "429 Too Many Requests"
  else echoProvider log call.

(** A parser that is never reached in whole-table mode. *)
Definition noRows (_ : string) : result (list Row) := Ok [].

(** A writer that prints the cells of each row, comma-separated. *)
Definition plainCsv (header : list string) (rows : list Row) : string :=
  JS.join (String "010" "") (JS.join "," header :: ((λ row : Row, JS.join "," row.*2) <$> rows)).

Definition plain (s : string) : string := s.

(** A table with one row to fill and one row without any source. *)
Definition greetings : list Row :=
  [ [("English", "hello"); ("French", ""); ("Spanish", " ")];
    [("English", ""); ("French", ""); ("Spanish", "")] ].

(** A table without any blank cell. *)
Definition complete : list Row :=
  [ [("English", "hello"); ("French", "bonjour")];
    [("English", "cat"); ("French", "chat")] ].

(** The same sentence to translate in two rows. *)
Definition repeated : list Row :=
  [ [("English", "hello"); ("French", "")];
    [("English", "hello"); ("French", "")] ].

(** A file server with one file. *)
Definition oneFile (link : string) : result FetchResponse :=
  if decide (link = "https://files.example/pets.csv")
  then Ok {| ok := true; responseText := Ok "cat,dog" |}
  else Ok {| ok := false; responseText := Ok "" |}.

Definition petsRef : FileRef :=
  {| ref_name := "pets.csv";
     download_link := "https://files.example/pets.csv" |}.

Definition lostRef : FileRef :=
  {| ref_name := "lost.csv";
     download_link := "https://files.example/lost.csv" |}.

(** A file server whose every file is empty, a reference to one of its
    files, and csv-parser on an empty file: no row. *)
Definition emptyFiles (_ : string) : result FetchResponse :=
  Ok {| ok := true; responseText := Ok "" |}.

Definition emptyRef : FileRef :=
  {| ref_name := "empty.csv";
     download_link := "https://files.example/empty.csv" |}.

End Demo.

(** ** Further specification-level definitions *)

(** The code units of a string. *)
Fixpoint chars (s : string) : list ascii :=
  match s with
  | EmptyString => []
  | String c s' => c :: chars s'
  end.

(** A string made of white space only (the empty string included). *)
Definition allWhite (s : string) : Prop :=
  Forall (λ c, JS.isWhiteSpace c = true) (chars s).

(** The two separators of whole-table mode. *)
Definition LF : ascii := "010"%char.
Definition COMMA : ascii := ","%char.

(** The table [rows'] is [rows] in which some of the cells targeted by
    [requests] hold a new, non-empty text; every other cell is as it was. *)
Definition onlyFills (requests : list Request) (rows rows' : list Row) : Prop :=
  ∀ i col,
    cellAt rows' i col = cellAt rows i col ∨
    ((∃ r, r ∈ requests ∧ targetOf r = (i, col)) ∧
     ∃ v, cellAt rows' i col = Some v ∧ v ≠ "").

(** Each request targets a column of the row it indexes. *)
Definition targetsColumns (requests : list Request) (rows : list Row) : Prop :=
  ∀ r, r ∈ requests →
       ∃ row, rows !! rowIndex r = Some row ∧ targetLang r ∈ columnsOf row.

(** The answer of a Provider that honours its contract: one result per
    text, in order, each with the text as [original_text] and
    [tr source target text] as [translated_text]. *)
Definition idealAnswer (tr : string → string → string → string)
    (sourceLang targetLang : string) (texts : list string) : list Translation :=
  (λ t, {| original_text := t;
           translated_text := tr sourceLang targetLang t |}) <$> texts.

Definition idealProvider (tr : string → string → string → string)
    (_ : list ProviderCall) (call : ProviderCall) : result (list Translation) :=
  Ok (idealAnswer tr (call_sourceLang call) (call_targetLang call)
        (call_texts call)).

(** A computation only extends the log, and it throws only if one of the
    Provider calls it made threw. *)
Definition failsOnlyOnCall
    (provider : list ProviderCall → ProviderCall → result (list Translation))
    {A} (m : M A) : Prop :=
  ∀ log, ∃ ext, (m log).2 = log ++ ext ∧
                (isThrow (m log).1 = true → callFailed provider log ext).

(** ** The prompt of [translateTextBatch] *)

(** [`${index + 1}. ${text}`] *)
Definition numberedText (index : nat) (text : string) : string :=
  NilZero.string_of_uint (Nat.to_uint (index + 1)) +:+ ". " +:+ text.

(** [texts.map((text, index) => ...).join('\n')] *)
Definition numberedTexts (texts : list string) : string :=
  JS.join (String LF "") (imap numberedText texts).

(** The template literal [prompt]: it starts and ends with a line feed. *)
Definition promptOf (texts : list string) (sourceLang targetLang : string)
    : string :=
  String LF
    ("You are a professional translator. Translate the following texts from "
     +:+ sourceLang +:+ " to " +:+ targetLang
     +:+ ". Preserve the original meaning and context. Provide the translations in a JSON array format as shown below."
     +:+ String LF (String LF ("Texts to translate:"
     +:+ String LF (numberedTexts texts +:+ String LF "")))).

(** The content of the user message: [prompt.trim()]. *)
Definition userMessage (texts : list string) (sourceLang targetLang : string)
    : string :=
  JS.trim (promptOf texts sourceLang targetLang).

(** ** The earlier version of [processFile]

    The second copy of [index.js] has one mode only. It checks the MIME
    type of the reference, does not validate the column names, groups the
    requests while it builds them, and writes the results of a batch back
    by position, in the callback of the batch's promise. *)

Module Legacy.

Definition MAX_BATCH_SIZE : nat := 10.

(** A file reference with its [mime_type]; [None] is [undefined]. *)
Record TypedFileRef := {
  typed_ref : FileRef;
  ref_mime_type : option string;
}.

(** [`${mime_type}`] *)
Definition printMimeType (mime_type : option string) : string :=
  default "undefined" mime_type.

(** The body of [columns.forEach((targetLang) => ...)], over the columns
    still to visit. *)
Fixpoint scanColumns (rowIndex : nat) (row : Row) (columns : list string)
    (translationRequests : Groups) : Groups :=
  match columns with
  | [] => translationRequests
  | targetLang :: columns' =>
      if isBlank (rowGet row targetLang) then
        match findSource row targetLang with
        | Some sourceLang =>
            if JS.truthy sourceLang then
              scanColumns rowIndex row columns'
                (groupPush translationRequests
                   (sourceLang +:+ "-" +:+ targetLang)
                   {| rowIndex := rowIndex;
                      sourceLang := sourceLang;
                      targetLang := targetLang;
                      text := default "" (rowGet row sourceLang) |})
            else scanColumns rowIndex row columns' translationRequests
        | None => scanColumns rowIndex row columns' translationRequests
        end
      else scanColumns rowIndex row columns' translationRequests
  end.

(** [rows.forEach((row, rowIndex) => ...)] from row [rowIndex] on. *)
Fixpoint scanRows (rowIndex : nat) (rows : list Row)
    (translationRequests : Groups) : Groups :=
  match rows with
  | [] => translationRequests
  | row :: rows' =>
      scanRows (S rowIndex) rows'
        (scanColumns rowIndex row (columnsOf row) translationRequests)
  end.

Definition buildGroups (rows : list Row) : Groups := scanRows 0 rows [].

(** [translations.forEach((translation, index) => { const { rowIndex } =
    batch[index]; rows[rowIndex][targetLang] = translation.translated_text;
    })] from position [index] on: the rows as they are when the loop ends
    or throws. Destructuring [batch[index]] throws when the batch has no
    such element. *)
Fixpoint forEachTranslation (rows : list Row) (targetLang : string)
    (batch : list Request) (index : nat) (translations : list Translation)
    : result unit * list Row :=
  match translations with
  | [] => (Ok tt, rows)
  | translation :: translations' =>
      match batch !! index with
      | None =>
          (Throw "Cannot destructure property 'rowIndex' of 'batch[index]' as it is undefined.",
           rows)
      | Some request =>
          match setCell rows (rowIndex request) targetLang
                        (translated_text translation) with
          | Ok rows' =>
              forEachTranslation rows' targetLang batch (S index) translations'
          | Throw message => (Throw message, rows)
          end
      end
  end.

(** A promise that works on the shared [rows]: from the rows and the log
    as they are when it runs to its outcome, the rows and the log. *)
Definition Task : Type :=
  list Row → list ProviderCall → result unit * list Row * list ProviderCall.

(** [Promise.all] over such promises: every one runs, in submission
    order, on the rows the one before it left; the rejection kept is that
    of the first promise of the list that rejects. The order in which the
    runtime runs the callbacks is the order in which the Provider answers;
    the order of submission is one such order. *)
Fixpoint runAll (tasks : list Task) : Task :=
  λ rows log,
  match tasks with
  | [] => (Ok tt, rows, log)
  | task :: tasks' =>
      let '(r, rows1, log1) := task rows log in
      let '(rs, rows2, log2) := runAll tasks' rows1 log1 in
      (match r with Throw message => Throw message | Ok _ => rs end,
       rows2, log2)
  end.

Section Orchestrator.
Variable provider : list ProviderCall → ProviderCall → result (list Translation).
Variable parseCsvData : string → result (list Row).
Variable stringifyCsv : list string → list Row → string.
Variable base64 : string → string.
Variable fetch : string → result FetchResponse.

(** [translateTextBatch({ texts, sourceLang, targetLang }).then(...)] *)
Definition batchPromise (sourceLang targetLang : string)
    (batch : list Request) : Task :=
  λ rows log,
  match translateTextBatch provider
          {| call_texts := text <$> batch;
             call_sourceLang := sourceLang;
             call_targetLang := targetLang |} log with
  | (Ok translations, log') =>
      let '(r, rows') :=
        forEachTranslation rows targetLang batch 0 translations in
      (r, rows', log')
  | (Throw message, log') => (Throw message, rows, log')
  end.

(** [allLanguagePromises], filled by the loop over
    [Object.entries(translationRequests)]. *)
Fixpoint allLanguagePromises (translationRequests : Groups) : list Task :=
  match translationRequests with
  | [] => []
  | (langPair, requests) :: translationRequests' =>
      let '(sourceLang, targetLang) := splitLangPair langPair in
      (batchPromise sourceLang targetLang <$> batches MAX_BATCH_SIZE requests)
      ++ allLanguagePromises translationRequests'
  end.

(** [processFile] from the parsed rows to the rows that are written.
    [globalLimit] is [pLimit(100)], which p-limit accepts. *)
Definition fillRows (rows : list Row) (fileName : string) : M (list Row) :=
  match rows with
  | [] => throw ("The CSV file " +:+ fileName +:+ " is empty.")
  | _ =>
      λ log,
      match runAll (allLanguagePromises (buildGroups rows)) rows log with
      | (Ok _, rows', log') => (Ok rows', log')
      | (Throw message, _, log') => (Throw message, log')
      end
  end.

(** The file that is returned: the header is [Object.keys(rows[0])]. *)
Definition processFile (fileRef : TypedFileRef) : M File :=
  let fileName := ref_name (typed_ref fileRef) in
  if decide (ref_mime_type fileRef = Some "text/csv") then
    response ← liftR (fetch (download_link (typed_ref fileRef)));
    if negb (ok response)
    then throw ("Failed to download the file: " +:+ fileName)
    else
      csvData ← liftR (responseText response);
      rows ← liftR (parseCsvData csvData);
      rows' ← fillRows rows fileName;
      match rows' with
      | [] => throw "Cannot convert undefined or null to object"
      | row :: _ =>
          mret {| name := "translated_" +:+ fileName;
                  mime_type := "text/csv";
                  content := base64 (stringifyCsv (columnsOf row) rows') |}
      end
  else
    throw ("Unsupported file type: " +:+ printMimeType (ref_mime_type fileRef)
           +:+ ". Only CSV files are supported.").
End Orchestrator.

End Legacy.



(** The cell a request is written to by the earlier version: the row of
    the request, and the column named by the second component of the
    language-pair key. *)
Definition legacyTarget (r : Request) : nat * string :=
  (rowIndex r, (splitLangPair (langPairKey r)).2).

Module LegacyDemo.

(** A table whose column names are language tags. *)
Definition tags : list Row :=
  [ [("en", "hello"); ("fr", ""); ("pt", "olá")];
    [("en", "cat"); ("fr", "chat"); ("pt", "")] ].

(** A table with a regional tag next to the plain one. *)
Definition regional : list Row :=
  [ [("en", "hello"); ("pt-BR", ""); ("pt", "olá")] ].

(** A Provider that answers every text twice. *)
Definition talkative (_ : list ProviderCall) (call : ProviderCall)
    : result (list Translation) :=
  Ok (mjoin ((λ t, [ {| original_text := t; translated_text := t |};
                     {| original_text := t; translated_text := t |} ])
               <$> call_texts call)).

End LegacyDemo.

Module LegacyRefs.

Definition csvRef : Legacy.TypedFileRef :=
  {| Legacy.typed_ref := Demo.petsRef;
     Legacy.ref_mime_type := Some "text/csv" |}.

Definition pdfRef : Legacy.TypedFileRef :=
  {| Legacy.typed_ref := Demo.petsRef;
     Legacy.ref_mime_type := Some "application/pdf" |}.

(** A parser for the one file of [Demo.oneFile]. *)
Definition onePet (_ : string) : result (list Row) :=
  Ok [ [("en", "cat"); ("fr", "")] ].

End LegacyRefs.

(** ** The failures of one file at the HTTP boundary *)

(** The download of a file fails: [fetch] throws, the response is not
    [ok], or its body cannot be read. *)
Definition downloadFails (fetch : string → result FetchResponse)
    (fileRef : FileRef) : Prop :=
  match fetch (download_link fileRef) with
  | Throw _ => True
  | Ok response => ok response = false ∨ isThrow (responseText response) = true
  end.

(** The file is downloaded and csv-parser finds no row in it. *)
Definition noRowFile (fetch : string → result FetchResponse)
    (parseCsvData : string → result (list Row)) (fileRef : FileRef) : Prop :=
  ∃ response csvData,
    fetch (download_link fileRef) = Ok response ∧ ok response = true ∧
    responseText response = Ok csvData ∧ parseCsvData csvData = Ok [].

(** [language ? translateCsvToLanguage(...) : processFile(...)]: whether
    the request runs in whole-table mode. *)
Definition wholeTableMode (language : option string) : bool :=
  match language with
  | Some lang => JS.truthy lang
  | None => false
  end.

(** * Properties *)

(** ** Sanity checks of the primitives *)

Lemma nonBlank_isBlank cell : nonBlank cell = negb (isBlank cell).
Proof.
  destruct cell as [s|]; simpl; [|done].
  by destruct (JS.truthy s), (bool_decide (JS.trim s = "")).
Qed.

Example trim_ex : JS.trim "  hi there
 " = "hi there".
Proof. reflexivity. Qed.

Example split_ex : JS.split "," "a,,b," = ["a"; ""; "b"; ""].
Proof. reflexivity. Qed.

Example supported_ex : isSupported " french " = true ∧ isSupported "en" = false.
Proof. split; vm_compute; reflexivity. Qed.

Example batches_ex : batches 2 [1; 2; 3; 4; 5] = [[1; 2]; [3; 4]; [5]].
Proof. reflexivity. Qed.

Example parseCells_ex :
  parseCells "a,b
c" = [["a"; "b"]; ["c"]].
Proof. reflexivity. Qed.

Example collectTexts_ex :
  collectTexts [["cat"; "dog"; " "]; ["cat"; ""; "emu"]] = ["cat"; "dog"; "emu"].
Proof. vm_compute. reflexivity. Qed.

(** Scenario A of the specification, with language names as column
    names: the blank cells of the row are filled from the English cell. *)
Example fill_scenario :
  fillRows 10 (EnvConfig.JSNumber 100) Demo.echoProvider
    [[("English", "hello"); ("French", ""); ("Spanish", "")]] "a.csv" []
  = (Ok [[("English", "hello"); ("French", "French:hello");
          ("Spanish", "Spanish:hello")]],
     [ {| call_texts := ["hello"]; call_sourceLang := "English";
          call_targetLang := "French" |};
       {| call_texts := ["hello"]; call_sourceLang := "English";
          call_targetLang := "Spanish" |} ]).
Proof. vm_compute. reflexivity. Qed.

(** Scenario B: no source in the row, no request, no call. *)
Example fill_no_source :
  fillRows 10 (EnvConfig.JSNumber 100) Demo.echoProvider
    [[("English", ""); ("French", ""); ("Spanish", "")]] "b.csv" []
  = (Ok [[("English", ""); ("French", ""); ("Spanish", "")]], []).
Proof. vm_compute. reflexivity. Qed.

(** Scenario D: the French cell was translated when the call towards
    Spanish fails; the run returns the error alone. *)
Example fill_second_pair_fails :
  fillRows 10 (EnvConfig.JSNumber 100) Demo.noSpanish
    [[("English", "hello"); ("French", ""); ("Spanish", "")]] "a.csv" []
  = (Throw "429 Too Many Requests",
     [ {| call_texts := ["hello"]; call_sourceLang := "English";
          call_targetLang := "French" |};
       {| call_texts := ["hello"]; call_sourceLang := "English";
          call_targetLang := "Spanish" |} ]).
Proof. vm_compute. reflexivity. Qed.

(** Column names that are not language names stop the run. *)
Example fill_unsupported_column :
  fillRows 10 (EnvConfig.JSNumber 100)
    Demo.echoProvider [[("en", "hello"); ("fr", "")]] "a.csv" []
  = (Throw "Unsupported language code: en", []).
Proof. vm_compute. reflexivity. Qed.

(** Scenario C: one call with the distinct texts. *)
Example whole_table_scenario :
  translateCsvToLanguage 10 (EnvConfig.JSNumber 100)
    Demo.echoProvider Demo.plain Demo.plain
    "cat,dog,cat" "pets.csv" "french" []
  = (Ok {| name := "translated_pets.csv"; mime_type := "text/csv";
           content := "french:cat,french:dog,french:cat" |},
     [ {| call_texts := ["cat"; "dog"]; call_sourceLang := "any language";
          call_targetLang := "french" |} ]).
Proof. vm_compute. reflexivity. Qed.

(** Scenario E: an unsupported target language fails before any call. *)
Example whole_table_unsupported :
  translateCsvToLanguage 10 (EnvConfig.JSNumber 100)
    Demo.echoProvider Demo.plain Demo.plain
    "cat,dog,cat" "pets.csv" "Klingon" []
  = (Throw "Unsupported language code: Klingon", []).
Proof. vm_compute. reflexivity. Qed.

(** A concurrency limit set in the environment is a string: [pLimit]
    rejects it, and the run fails before any call. *)
Example whole_table_limit_from_environment :
  translateCsvToLanguage 10 (EnvConfig.MAX_CONCURRENCY_REQ (Some "100"))
    Demo.echoProvider Demo.plain Demo.plain
    "cat,dog" "pets.csv" "French" []
  = (Throw "Expected `concurrency` to be a number from 1 and up", []).
Proof. vm_compute. reflexivity. Qed.

Example limit_default :
  pLimit (EnvConfig.MAX_CONCURRENCY_REQ None) = Ok tt.
Proof. reflexivity. Qed.

(** ** String primitives *)

Lemma split_nonempty sep s : JS.split sep s ≠ [].
Proof.
  destruct s as [|c s]; simpl; [done|].
  destruct (decide (c = sep)); [done|].
  by destruct (JS.split sep s).
Qed.

Lemma parseCells_nonempty csvData : parseCells csvData ≠ [].
Proof.
  unfold parseCells. intros H%fmap_nil_inv. by apply split_nonempty in H.
Qed.

Lemma split_empty sep : JS.split sep "" = [""].
Proof. reflexivity. Qed.

Lemma join_cons sep p q rest :
  JS.join sep (p :: q :: rest) = p +:+ sep +:+ JS.join sep (q :: rest).
Proof. reflexivity. Qed.

(** [split] followed by [join] on the same separator gives the string
    back: the parse of whole-table mode is purely lexical. *)
Lemma join_split sep s : JS.join (String sep "") (JS.split sep s) = s.
Proof.
  induction s as [|c s IH]; simpl; [done|].
  destruct (decide (c = sep)) as [->|Hne].
  - destruct (JS.split sep s) as [|p rest] eqn:Hs.
    { by apply split_nonempty in Hs. }
    rewrite join_cons, IH. reflexivity.
  - destruct (JS.split sep s) as [|p rest] eqn:Hs.
    { by apply split_nonempty in Hs. }
    destruct rest as [|q rest]; simpl in *; by rewrite <- IH.
Qed.

Lemma writeCells_parseCells csvData : writeCells (parseCells csvData) = csvData.
Proof.
  unfold writeCells, parseCells. rewrite <- list_fmap_compose.
  assert (∀ lines, (JS.join "," ∘ JS.split ",") <$> lines = lines) as ->.
  { induction lines as [|l lines IH]; [done|].
    rewrite fmap_cons, IH. simpl. by rewrite join_split. }
  apply join_split.
Qed.


(** ** The batcher *)

Section BatcherFacts.
Context {A : Type}.
Variable n : nat.
Hypothesis n_pos : 0 < n.

Lemma slice_step i (l : list A) : slice i (i + n) l = take n (drop i l).
Proof. unfold slice. f_equal. lia. Qed.

Lemma batchLoop_concat steps i (l : list A) :
  length l ≤ steps + i → mjoin (batchLoop n steps i l) = drop i l.
Proof.
  revert i. induction steps as [|steps IH]; intros i Hle; simpl.
  - by rewrite drop_ge by lia.
  - destruct (decide (i < length l)) as [Hlt|Hge]; simpl.
    + rewrite IH by lia. rewrite slice_step.
      replace (i + n) with (i + n)%nat by done.
      rewrite <- drop_drop. apply take_drop.
    + by rewrite drop_ge by lia.
Qed.

Lemma batchLoop_lookup steps i (l : list A) k b :
  batchLoop n steps i l !! k = Some b →
  b = slice (i + k * n) (i + k * n + n) l ∧ i + k * n < length l.
Proof.
  revert i k. induction steps as [|steps IH]; intros i k; simpl; [done|].
  destruct (decide (i < length l)) as [Hlt|Hge]; [|done].
  destruct k as [|k]; simpl.
  - intros [= <-]. by rewrite Nat.add_0_r.
  - intros H%IH. replace (i + (n + k * n)) with (i + n + k * n) by lia. done.
Qed.

Lemma batchLoop_length steps i (l : list A) :
  length l ≤ steps + i →
  length (batchLoop n steps i l) * n < length l - i + n ∧
  length l - i ≤ length (batchLoop n steps i l) * n.
Proof.
  revert i. induction steps as [|steps IH]; intros i Hle; simpl; [lia|].
  destruct (decide (i < length l)) as [Hlt|Hge]; simpl; [|lia].
  destruct (IH (i + n)) as [IH1 IH2]; [lia|].
  set (m := length (batchLoop n steps (i + n) l)) in *.
  clearbody m. destruct m as [|m]; simpl in *; lia.
Qed.

(** The batcher on a numeric batch size: the batches are the consecutive
    slices [k * n, k * n + n) of the group, none is empty or longer than
    [n], and together they are the group. *)
Lemma batches_partition (l : list A) :
  mjoin (batches n l) = l ∧
  Forall (λ b, 0 < length b ≤ n) (batches n l) ∧
  (∀ k b, batches n l !! k = Some b → b = slice (k * n) (k * n + n) l).
Proof.
  unfold batches. split_and!.
  - rewrite batchLoop_concat by lia. done.
  - apply Forall_lookup. intros k b [-> Hlt]%batchLoop_lookup.
    rewrite slice_step, length_take, length_drop. lia.
  - intros k b [-> _]%batchLoop_lookup. done.
Qed.

Lemma batches_nil : batches n ([] : list A) = [].
Proof. reflexivity. Qed.
End BatcherFacts.

(** ** The batch size as an environment string *)

Section EnvBatcher.
Context {A : Type}.

(** On a numeric batch size the loop on JavaScript values is the loop
    on numbers. *)
Lemma env_batchLoop_number n steps i (l : list A) :
  0 < n → length l ≤ steps + i →
  EnvConfig.batchLoop (EnvConfig.JSNumber n) (S steps) (EnvConfig.JSNumber i) l
  = Some (batchLoop n steps i l).
Proof.
  intros Hn. revert i. induction steps as [|steps IH]; intros i Hle.
  - simpl. unfold EnvConfig.lessThan. simpl.
    rewrite bool_decide_false by lia. done.
  - change (EnvConfig.batchLoop (EnvConfig.JSNumber n) (S (S steps))
              (EnvConfig.JSNumber i) l)
      with (if EnvConfig.lessThan (EnvConfig.JSNumber i) (length l)
            then rest ← EnvConfig.batchLoop (EnvConfig.JSNumber n) (S steps)
                          (EnvConfig.JSNumber (i + n)) l;
                 Some (slice i (i + n) l :: rest)
            else Some []).
    unfold EnvConfig.lessThan. simpl EnvConfig.toNumber. cbv beta iota.
    simpl batchLoop.
    destruct (decide (i < length l)) as [Hlt|Hge].
    + rewrite bool_decide_true by done. rewrite IH by lia. done.
    + rewrite bool_decide_false by done. done.
Qed.

(** With the string "10" the loop makes two batches of any group of 11 to
    1010 requests: the first ten requests, then all the others. *)
Lemma env_batches_string_ten (l : list A) :
  10 < length l ≤ 1010 →
  EnvConfig.batches (EnvConfig.MAX_BATCH_SIZE (Some "10")) 3 l
  = Some [take 10 l; drop 10 l].
Proof.
  intros [Hlo Hhi].
  change (EnvConfig.MAX_BATCH_SIZE (Some "10")) with (EnvConfig.JSString "10").
  unfold EnvConfig.batches. cbn [EnvConfig.batchLoop].
  change (EnvConfig.add (EnvConfig.JSNumber 0) (EnvConfig.JSString "10"))
    with (EnvConfig.JSString "010").
  change (EnvConfig.add (EnvConfig.JSString "010") (EnvConfig.JSString "10"))
    with (EnvConfig.JSString "01010").
  change (EnvConfig.add (EnvConfig.JSString "01010") (EnvConfig.JSString "10"))
    with (EnvConfig.JSString "0101010").
  unfold EnvConfig.lessThan, EnvConfig.toIndex.
  change (EnvConfig.toNumber (EnvConfig.JSNumber 0)) with (Some 0).
  change (EnvConfig.toNumber (EnvConfig.JSString "010")) with (Some 10).
  change (EnvConfig.toNumber (EnvConfig.JSString "01010")) with (Some 1010).
  cbv beta iota.
  rewrite !bool_decide_true by lia. rewrite bool_decide_false by lia.
  cbn [mbind option_bind default from_option id]. unfold slice.
  do 3 f_equal. rewrite take_ge; [done|]. rewrite length_drop. lia.
Qed.

Lemma env_batches_default (l : list A) :
  EnvConfig.batches (EnvConfig.MAX_BATCH_SIZE None) (S (length l)) l
  = Some (batches 10 l).
Proof. apply env_batchLoop_number; lia. Qed.
End EnvBatcher.

(** C5, on the configured path: with [MAX_BATCH_SIZE=10] in the
    environment the constant is the string "10"; [i += MAX_BATCH_SIZE]
    then appends to [i] ("010", "01010", ...), and on a group of 25
    requests the loop ends after two batches, the second one
    [requests.slice("010", "01010")] with 15 requests. The batches still
    make up the group, but one is longer than the configured size. *)
Theorem C5_env_batch_size_exceeded :
  EnvConfig.batches (EnvConfig.MAX_BATCH_SIZE (Some "10")) 3 (seq 0 25)
    = Some [seq 0 10; seq 10 15] ∧
  EnvConfig.toNumber (EnvConfig.MAX_BATCH_SIZE (Some "10")) = Some 10 ∧
  length (seq 10 15) = 15.
Proof. split_and!; vm_compute; reflexivity. Qed.

(** ** Results and the monad *)

Lemma bind_Ok {A B} (f : A → result B) a : (Ok a ≫= f) = f a.
Proof. reflexivity. Qed.

Lemma result_bind_inv {A B} (f : A → result B) r b :
  r ≫= f = Ok b → ∃ a, r = Ok a ∧ f a = Ok b.
Proof. destruct r as [a|e]; [eauto|done]. Qed.

(** ** [Array.prototype.find] *)

Lemma find_first {A} (p : A → bool) (l : list A) x :
  List.find p l = Some x ↔
  ∃ j, l !! j = Some x ∧ p x = true ∧
       ∀ j' y, j' < j → l !! j' = Some y → p y = false.
Proof.
  induction l as [|a l IH]; simpl.
  - split; [done|]. by intros (j & ? & _).
  - destruct (p a) eqn:Hpa.
    + split.
      * intros [= <-]. exists 0. split_and!; [done..|]. lia.
      * intros (j & Hj & Hp & Hmin). destruct j as [|j]; [by simplify_eq/=|].
        specialize (Hmin 0 a). rewrite Hpa in Hmin.
        discriminate Hmin; [lia|done].
    + rewrite IH. split.
      * intros (j & Hj & Hp & Hmin). exists (S j). split_and!; [done..|].
        intros [|j'] y ? Hy; simplify_eq/=; [done|]. eapply Hmin; [|done]. lia.
      * intros (j & Hj & Hp & Hmin). destruct j as [|j]; simplify_eq/=.
        { congruence. }
        exists j. split_and!; [done..|]. intros j' y ? Hy.
        apply (Hmin (S j') y); [lia|done].
Qed.


(** ** Rows *)

Lemma rowGet_Some_elem row col v : rowGet row col = Some v → (col, v) ∈ row.
Proof.
  induction row as [|[k w] row IH]; simpl; [done|].
  destruct (decide (k = col)) as [->|?].
  - intros [= ->]. left.
  - intros ?. right. auto.
Qed.

Lemma rowGet_column row col : col ∈ columnsOf row → is_Some (rowGet row col).
Proof.
  unfold columnsOf. induction row as [|[k w] row IH]; simpl.
  - by intros ?%elem_of_nil.
  - destruct (decide (k = col)) as [->|?]; [by eauto|].
    intros [?|?]%elem_of_cons; [by simplify_eq/=|auto].
Qed.

Lemma rowGet_rowSet_eq row col v : rowGet (rowSet row col v) col = Some v.
Proof.
  induction row as [|[k w] row IH]; simpl.
  - by rewrite decide_True.
  - destruct (decide (k = col)) as [->|?]; simpl.
    + by rewrite decide_True.
    + by rewrite decide_False.
Qed.

Lemma rowGet_rowSet_ne row col col' v :
  col ≠ col' → rowGet (rowSet row col v) col' = rowGet row col'.
Proof.
  intros Hne. induction row as [|[k w] row IH]; simpl.
  - by rewrite decide_False.
  - destruct (decide (k = col)) as [->|?]; simpl.
    + by rewrite !decide_False.
    + destruct (decide (k = col')); [done|]. apply IH.
Qed.

Lemma columnsOf_rowSet row col v :
  col ∈ columnsOf row → columnsOf (rowSet row col v) = columnsOf row.
Proof.
  unfold columnsOf. induction row as [|[k w] row IH]; simpl.
  - by intros ?%elem_of_nil.
  - destruct (decide (k = col)) as [->|?]; [done|].
    intros [?|?]%elem_of_cons; [by simplify_eq/=|]. simpl. f_equal. auto.
Qed.

(** ** The source column of a blank cell *)

(** [findSource] is the first column, in the order of the row's keys, that
    is not the target and whose cell is not blank. *)
Lemma findSource_Some row targetLang sourceLang :
  findSource row targetLang = Some sourceLang ↔
  ∃ j, columnsOf row !! j = Some sourceLang ∧
       sourceLang ≠ targetLang ∧
       nonBlank (rowGet row sourceLang) = true ∧
       ∀ j' col, j' < j → columnsOf row !! j' = Some col →
                 col = targetLang ∨ isBlank (rowGet row col) = true.
Proof.
  unfold findSource. rewrite find_first. f_equiv. intros j.
  rewrite andb_true_iff, negb_true_iff, bool_decide_eq_false.
  split.
  - intros (Hj & [Hne Hnb] & Hmin). split_and!; [done..|].
    intros j' col Hlt Hcol. specialize (Hmin j' col Hlt Hcol).
    apply andb_false_iff in Hmin as [Hm|Hm].
    + left. by apply negb_false_iff, bool_decide_eq_true in Hm.
    + right. rewrite nonBlank_isBlank in Hm. by apply negb_false_iff in Hm.
  - intros (Hj & Hne & Hnb & Hmin). split_and!; [done..|].
    intros j' col Hlt Hcol. apply andb_false_iff.
    destruct (Hmin j' col Hlt Hcol) as [->|Hb].
    + left. by apply negb_false_iff, bool_decide_eq_true.
    + right. by rewrite nonBlank_isBlank, Hb.
Qed.


Lemma findSource_elem row targetLang sourceLang :
  findSource row targetLang = Some sourceLang → sourceLang ∈ columnsOf row.
Proof.
  intros (j & Hj & _)%findSource_Some. by eapply list_elem_of_lookup_2.
Qed.

(** ** Building the requests of fill-missing-cells mode *)

Lemma validateLanguageCode_Ok lang :
  validateLanguageCode lang = Ok tt ↔ isSupported lang = true.
Proof. unfold validateLanguageCode. by destruct (isSupported lang). Qed.

Lemma omap_cons_Some {A B} (f : A → option B) x l y :
  f x = Some y → omap f (x :: l) = y :: omap f l.
Proof. intros H. simpl. by rewrite H. Qed.

Lemma omap_cons_None {A B} (f : A → option B) x l :
  f x = None → omap f (x :: l) = omap f l.
Proof. intros H. simpl. by rewrite H. Qed.

Lemma scanColumns_cons rowIndex row col columns acc :
  scanColumns rowIndex row (col :: columns) acc =
  match cellRequest rowIndex row col with
  | Some r =>
      _ ← validateLanguageCode (sourceLang r);
      _ ← validateLanguageCode (targetLang r);
      scanColumns rowIndex row columns (acc ++ [r])
  | None => scanColumns rowIndex row columns acc
  end.
Proof.
  cbn [scanColumns]. unfold cellRequest.
  destruct (isBlank (rowGet row col)); [|done].
  destruct (findSource row col) as [src|]; [|done].
  by destruct (JS.truthy src).
Qed.

(** The scan of a row succeeds exactly when every request it meets names
    two supported languages, and then it has pushed these requests. *)
Lemma scanColumns_Ok rowIndex row columns acc acc' :
  scanColumns rowIndex row columns acc = Ok acc' ↔
  acc' = acc ++ omap (cellRequest rowIndex row) columns ∧
  Forall requestSupported (omap (cellRequest rowIndex row) columns).
Proof.
  revert acc. induction columns as [|col columns IH]; intros acc.
  - simpl. rewrite app_nil_r. split; [intros [= <-]|intros [-> _]]; by auto.
  - rewrite scanColumns_cons.
    destruct (cellRequest rowIndex row col) as [r|] eqn:Hr.
    + rewrite (omap_cons_Some _ _ _ _ Hr), Forall_cons.
      unfold validateLanguageCode, requestSupported at 1.
      destruct (isSupported (sourceLang r)); simpl;
        [|split; [done|]; by intros (_ & [? _] & _)].
      destruct (isSupported (targetLang r)); simpl;
        [|split; [done|]; by intros (_ & [_ ?] & _)].
      rewrite IH, <- app_assoc. simpl. tauto.
    + rewrite (omap_cons_None _ _ _ Hr). apply IH.
Qed.

Lemma scanRows_Ok rowIndex rows acc acc' :
  scanRows rowIndex rows acc = Ok acc' ↔
  acc' = acc ++ mjoin (imap (λ j, requestsOfRow (rowIndex + j)) rows) ∧
  Forall requestSupported (mjoin (imap (λ j, requestsOfRow (rowIndex + j)) rows)).
Proof.
  revert rowIndex acc. induction rows as [|row rows IH]; intros rowIndex acc.
  - simpl. rewrite app_nil_r. split; [intros [= <-]|intros [-> _]]; by auto.
  - cbn [scanRows]. rewrite imap_cons. cbn [mjoin list_join].
    rewrite Nat.add_0_r, Forall_app.
    rewrite (imap_ext _ (λ j, requestsOfRow (S rowIndex + j)))
      by (intros; simpl; f_equal; lia).
    split.
    + intros (acc1 & H1 & H2)%result_bind_inv.
      apply scanColumns_Ok in H1 as [-> ?]. apply IH in H2 as [-> ?].
      by rewrite <- app_assoc.
    + intros (-> & Hf1 & Hf2).
      assert (scanColumns rowIndex row (columnsOf row) acc
              = Ok (acc ++ requestsOfRow rowIndex row)) as ->.
      { by apply scanColumns_Ok. }
      rewrite bind_Ok. apply IH. by rewrite <- app_assoc.
Qed.

(** [buildRequests] returns the requests owed to the cells, in row-major
    order, unless one of them names an unsupported language. *)
Lemma buildRequests_Ok rows requests :
  buildRequests rows = Ok requests ↔
  requests = requestsOf rows ∧ Forall requestSupported (requestsOf rows).
Proof. unfold buildRequests. by rewrite scanRows_Ok. Qed.

Lemma buildRequests_Throw rows message :
  buildRequests rows = Throw message → ¬ Forall requestSupported (requestsOf rows).
Proof.
  intros Hthrow Hall.
  assert (buildRequests rows = Ok (requestsOf rows)) as Hok
    by by apply buildRequests_Ok.
  congruence.
Qed.

Lemma elem_of_requestsOf rows r :
  r ∈ requestsOf rows ↔
  ∃ row col, rows !! rowIndex r = Some row ∧ col ∈ columnsOf row ∧
             cellRequest (rowIndex r) row col = Some r.
Proof.
  unfold requestsOf. rewrite list_elem_of_join. split.
  - intros (l & Hr & Hl). apply elem_of_lookup_imap in Hl as (i & row & -> & Hrow).
    apply list_elem_of_omap in Hr as (col & Hcol & Hc).
    assert (rowIndex r = i) as ->.
    { unfold cellRequest in Hc.
      destruct (isBlank (rowGet row col)); [|done].
      destruct (findSource row col) as [src|]; [|done].
      destruct (JS.truthy src); by simplify_eq/=. }
    eauto.
  - intros (row & col & Hrow & Hcol & Hc).
    exists (requestsOfRow (rowIndex r) row). split.
    + apply list_elem_of_omap. eauto.
    + by apply elem_of_lookup_imap_2.
Qed.

Lemma cellRequest_Some rowIndex row col r :
  cellRequest rowIndex row col = Some r ↔
  isBlank (rowGet row col) = true ∧
  findSource row col = Some (sourceLang r) ∧
  JS.truthy (sourceLang r) = true ∧
  r = {| rowIndex := rowIndex; sourceLang := sourceLang r; targetLang := col;
         text := default "" (rowGet row (sourceLang r)) |}.
Proof.
  unfold cellRequest. split.
  - intros H. destruct (isBlank (rowGet row col)); [|done].
    destruct (findSource row col) as [src|]; [|done].
    destruct (JS.truthy src) eqn:Ht; [|done].
    by simplify_eq/=.
  - intros (Hb & Hs & Ht & Hr). rewrite Hb, Hs, Ht. congruence.
Qed.

Lemma columnsSupported_requests rows :
  columnsSupported rows → Forall requestSupported (requestsOf rows).
Proof.
  intros Hsup. apply Forall_forall. intros r (row & col & Hrow & Hcol & Hc)%elem_of_requestsOf.
  apply cellRequest_Some in Hc as (_ & Hsrc & _ & Hr).
  apply list_elem_of_lookup_2 in Hrow. split.
  - eapply Hsup; [done|]. by eapply findSource_elem.
  - rewrite Hr. simpl. by eapply Hsup.
Qed.

Lemma buildRequests_supported rows :
  columnsSupported rows → buildRequests rows = Ok (requestsOf rows).
Proof.
  intros Hsup. apply buildRequests_Ok. split; [done|].
  by apply columnsSupported_requests.
Qed.

Lemma M_bind_unfold {A B} (f : A → M B) (m : M A) log :
  (m ≫= f) log =
  match m log with
  | (Ok a, log') => f a log'
  | (Throw e, log') => (Throw e, log')
  end.
Proof. reflexivity. Qed.

Lemma M_ret_unfold {A} (a : A) log : (mret a : M A) log = (Ok a, log).
Proof. reflexivity. Qed.

Lemma M_ret_inv {A} (a b : A) log log' :
  (mret a : M A) log = (Ok b, log') → b = a ∧ log' = log.
Proof. by intros [= -> ->]. Qed.

Lemma M_bind_Ok_inv {A B} (f : A → M B) (m : M A) log b log' :
  (m ≫= f) log = (Ok b, log') →
  ∃ a log1, m log = (Ok a, log1) ∧ f a log1 = (Ok b, log').
Proof.
  rewrite M_bind_unfold. destruct (m log) as [[a|e] log1]; [eauto|done].
Qed.

Lemma liftR_Ok_inv {A} (r : result A) log a log' :
  liftR r log = (Ok a, log') → r = Ok a ∧ log' = log.
Proof. unfold liftR. by intros [= -> ->]. Qed.

(** The dispatch starts by creating the limiter: an argument that is
    not a whole number from 1 up throws there, before any call. *)
Lemma prepareAndExecuteTranslations_limit `{HasText A} MAX_BATCH_SIZE
    MAX_CONCURRENCY_REQ provider (requests : list A) sourceLang targetLang log :
  prepareAndExecuteTranslations MAX_BATCH_SIZE MAX_CONCURRENCY_REQ provider
    requests sourceLang targetLang log =
  match pLimit MAX_CONCURRENCY_REQ with
  | Ok _ =>
      (translationResults ←
         promiseAll (batchPromise provider sourceLang targetLang
                       <$> batches MAX_BATCH_SIZE requests);
       mret (mjoin (fst <$> translationResults))) log
  | Throw message => (Throw message, log)
  end.
Proof.
  unfold prepareAndExecuteTranslations. rewrite M_bind_unfold. unfold liftR.
  by destruct (pLimit MAX_CONCURRENCY_REQ).
Qed.

(** ** Grouping keeps every request *)

Lemma groupPush_requests groups key request :
  allRequests (groupPush groups key request) ≡ₚ request :: allRequests groups.
Proof.
  unfold allRequests. induction groups as [|[k rs] groups IH]; simpl; [done|].
  destruct (decide (k = key)) as [->|?]; simpl.
  - rewrite <- app_assoc. simpl. by rewrite <- Permutation_middle.
  - rewrite IH. by rewrite <- Permutation_middle.
Qed.

Lemma groupByLangPair_requests translationRequests :
  allRequests (groupByLangPair translationRequests) ≡ₚ translationRequests.
Proof.
  unfold groupByLangPair.
  induction translationRequests as [|r l IH] using rev_ind; [done|].
  rewrite foldl_snoc, groupPush_requests, IH.
  by rewrite <- Permutation_cons_append.
Qed.

Lemma elem_of_group langPair requests r translationRequests :
  (langPair, requests) ∈ groupByLangPair translationRequests →
  r ∈ requests → r ∈ translationRequests.
Proof.
  intros Hg Hr. rewrite <- groupByLangPair_requests.
  unfold allRequests. apply list_elem_of_join. exists requests. split; [done|].
  apply list_elem_of_fmap. by exists (langPair, requests).
Qed.

(** ** Writing the translations back *)

Lemma setCell_Ok rows i col v rows' :
  setCell rows i col v = Ok rows' →
  length rows' = length rows ∧
  cellAt rows' i col = Some v ∧
  ∀ i' col', (i', col') ≠ (i, col) → cellAt rows' i' col' = cellAt rows i' col'.
Proof.
  unfold setCell, cellAt. destruct (rows !! i) as [row|] eqn:Hrow; [|done].
  intros [= <-]. pose proof (lookup_lt_Some _ _ _ Hrow) as Hlt. split_and!.
  - by rewrite length_insert.
  - rewrite list_lookup_insert_eq by done. simpl. apply rowGet_rowSet_eq.
  - intros i' col' Hne. destruct (decide (i = i')) as [<-|Hi].
    + rewrite list_lookup_insert_eq, Hrow by done. simpl.
      apply rowGet_rowSet_ne. congruence.
    + by rewrite list_lookup_insert_ne.
Qed.

Lemma setCell_in_range rows i col v :
  i < length rows → ∃ rows', setCell rows i col v = Ok rows'.
Proof.
  intros Hlt. unfold setCell.
  destruct (lookup_lt_is_Some_2 rows i Hlt) as [row ->]. eauto.
Qed.

Lemma applyTranslations_cons rows r requests translations :
  applyTranslations rows (r :: requests) translations =
  match written translations r with
  | Some translatedText =>
      rows' ← setCell rows (rowIndex r) (targetLang r) translatedText;
      applyTranslations rows' requests translations
  | None => applyTranslations rows requests translations
  end.
Proof.
  cbn [applyTranslations]. unfold written.
  destruct (findTranslation translations (text r)) as [t|]; [|done].
  by destruct (JS.truthy t).
Qed.

Lemma applyTranslations_length rows requests translations rows' :
  applyTranslations rows requests translations = Ok rows' →
  length rows' = length rows.
Proof.
  revert rows. induction requests as [|r requests IH]; intros rows.
  - by intros [= <-].
  - rewrite applyTranslations_cons. destruct (written translations r); [|by auto].
    intros (rows1 & H1 & H2)%result_bind_inv.
    apply setCell_Ok in H1 as (<- & _). auto.
Qed.

(** A cell that no request targets keeps its value. *)
Lemma applyTranslations_frame rows requests translations rows' i col :
  applyTranslations rows requests translations = Ok rows' →
  (∀ r, r ∈ requests → targetOf r ≠ (i, col)) →
  cellAt rows' i col = cellAt rows i col.
Proof.
  revert rows. induction requests as [|r requests IH]; intros rows.
  - by intros [= <-].
  - rewrite applyTranslations_cons. intros Happly Hother.
    assert (∀ r', r' ∈ requests → targetOf r' ≠ (i, col)) as Hrest.
    { intros r' ?. apply Hother. by right. }
    destruct (written translations r); [|by auto].
    apply result_bind_inv in Happly as (rows1 & H1 & H2).
    rewrite (IH _ H2 Hrest).
    apply setCell_Ok in H1 as (_ & _ & Hframe). apply Hframe.
    intros Heq. apply (Hother r); [left|]. done.
Qed.

(** The requests never index a missing row, so the write never throws. *)
Lemma applyTranslations_total rows requests translations :
  (∀ r, r ∈ requests → rowIndex r < length rows) →
  ∃ rows', applyTranslations rows requests translations = Ok rows'.
Proof.
  revert rows. induction requests as [|r requests IH]; intros rows Hrange.
  - by eexists.
  - rewrite applyTranslations_cons.
    assert (∀ r', r' ∈ requests → rowIndex r' < length rows) as Hrest.
    { intros r' ?. apply Hrange. by right. }
    destruct (written translations r) as [t|]; [|by auto].
    destruct (setCell_in_range rows (rowIndex r) (targetLang r) t) as [rows1 H1].
    { apply Hrange. left. }
    rewrite H1, bind_Ok. apply IH. intros r' Hr'.
    apply setCell_Ok in H1 as (-> & _). auto.
Qed.

(** The cell of each request, when no two requests target one cell. *)
Lemma applyTranslations_target rows requests translations rows' r :
  applyTranslations rows requests translations = Ok rows' →
  NoDup (targetOf <$> requests) →
  r ∈ requests →
  cellAt rows' (rowIndex r) (targetLang r) =
  match written translations r with
  | Some translatedText => Some translatedText
  | None => cellAt rows (rowIndex r) (targetLang r)
  end.
Proof.
  revert rows. induction requests as [|r0 requests IH]; intros rows.
  - by intros _ _ ?%elem_of_nil.
  - rewrite applyTranslations_cons, fmap_cons, NoDup_cons.
    intros Happly [Hfresh Hnodup] Hin.
    assert (∀ r', r' ∈ requests → targetOf r' ≠ targetOf r0) as Hothers.
    { intros r' Hr' Heq. apply Hfresh. rewrite <- Heq.
      by apply list_elem_of_fmap_2. }
    apply elem_of_cons in Hin as [->|Hin].
    + destruct (written translations r0) as [t|].
      * apply result_bind_inv in Happly as (rows1 & H1 & H2).
        rewrite (applyTranslations_frame _ _ _ _ _ _ H2 Hothers).
        by apply setCell_Ok in H1 as (_ & ? & _).
      * apply (applyTranslations_frame _ _ _ _ _ _ Happly Hothers).
    + destruct (written translations r0) as [t|].
      * apply result_bind_inv in Happly as (rows1 & H1 & H2).
        rewrite (IH _ H2 Hnodup Hin).
        destruct (written translations r); [done|].
        apply setCell_Ok in H1 as (_ & _ & Hframe). apply Hframe.
        apply (Hothers r Hin).
      * by apply IH.
Qed.

(** ** Fail-fast runs *)

Section FailFast.
Variable MAX_BATCH_SIZE : nat.
Variable MAX_CONCURRENCY_REQ : EnvConfig.JSValue.
Variable provider : list ProviderCall → ProviderCall → result (list Translation).
Variable parseCsvData : string → result (list Row).
Variable stringifyCsv : list string → list Row → string.
Variable base64 : string → string.
Variable basename : string → string.
Variable fetch : string → result FetchResponse.

Lemma callFailed_nil log : ¬ callFailed provider log [].
Proof. by intros (k & call & ? & _). Qed.

Lemma callFailed_app log e1 e2 :
  callFailed provider log (e1 ++ e2) →
  callFailed provider log e1 ∨ callFailed provider (log ++ e1) e2.
Proof.
  intros (k & call & Hk & Hthrow).
  destruct (decide (k < length e1)) as [Hlt|Hge].
  - left. exists k, call. rewrite lookup_app_l in Hk by done.
    rewrite take_app_le in Hthrow by lia. done.
  - right. exists (k - length e1), call.
    rewrite lookup_app_r in Hk by lia.
    rewrite take_app_ge in Hthrow by lia.
    by rewrite <- app_assoc.
Qed.

Lemma failFast_ret {A} (a : A) : failFast provider (mret a).
Proof.
  intros log. exists []. simpl. rewrite app_nil_r.
  split; [done|]. by intros ?%callFailed_nil.
Qed.

Lemma failFast_throw {A} message : failFast provider (throw message : M A).
Proof. intros log. exists []. simpl. by rewrite app_nil_r. Qed.

Lemma failFast_liftR {A} (r : result A) : failFast provider (liftR r).
Proof.
  intros log. exists []. simpl. rewrite app_nil_r.
  split; [done|]. by intros ?%callFailed_nil.
Qed.

Lemma failFast_bind {A B} (m : M A) (f : A → M B) :
  failFast provider m → (∀ a, failFast provider (f a)) →
  failFast provider (m ≫= f).
Proof.
  intros Hm Hf log. destruct (Hm log) as (e1 & Hlog1 & Hfail1).
  rewrite M_bind_unfold. destruct (m log) as [[a|e] log1]; simpl in *.
  - subst log1. destruct (Hf a (log ++ e1)) as (e2 & Hlog2 & Hfail2).
    exists (e1 ++ e2). rewrite Hlog2, app_assoc. split; [done|].
    intros [H1|H2]%callFailed_app; [|by auto].
    by apply Hfail1 in H1.
  - exists e1. done.
Qed.

Lemma failFast_translateTextBatch call :
  failFast provider (translateTextBatch provider call).
Proof.
  intros log. exists [call]. unfold translateTextBatch. simpl.
  split; [done|]. intros (k & call' & Hk & Hthrow).
  destruct k as [|k]; simplify_eq/=. by rewrite app_nil_r in Hthrow.
Qed.

Lemma failFast_promiseAll {A} (promises : list (M A)) :
  Forall (failFast provider) promises →
  failFast provider (promiseAll promises).
Proof.
  induction 1 as [|p rest Hp _ IH]; [apply failFast_ret|].
  intros log. cbn [promiseAll].
  destruct (Hp log) as (e1 & Hlog1 & Hfail1).
  destruct (p log) as [r log1]; simpl in *. subst log1.
  destruct (IH (log ++ e1)) as (e2 & Hlog2 & Hfail2).
  destruct (promiseAll rest (log ++ e1)) as [rs log2]; simpl in *.
  subst log2. exists (e1 ++ e2). rewrite app_assoc. split; [done|].
  intros [H1|H2]%callFailed_app.
  - apply Hfail1 in H1. by destruct r.
  - apply Hfail2 in H2. by destruct r, rs.
Qed.

Lemma failFast_prepareAndExecuteTranslations `{HasText A}
    (requests : list A) sourceLang targetLang :
  failFast provider
    (prepareAndExecuteTranslations MAX_BATCH_SIZE MAX_CONCURRENCY_REQ
      provider requests
       sourceLang targetLang).
Proof.
  unfold prepareAndExecuteTranslations.
  apply failFast_bind; [apply failFast_liftR|]. intros _. apply failFast_bind.
  - apply failFast_promiseAll, Forall_fmap, Forall_true. intros batch.
    apply failFast_bind; [apply failFast_translateTextBatch|].
    intros ?. apply failFast_ret.
  - intros ?. apply failFast_ret.
Qed.

Lemma failFast_processGroups groups rows :
  failFast provider (processGroups MAX_BATCH_SIZE MAX_CONCURRENCY_REQ
    provider groups rows).
Proof.
  revert rows. induction groups as [|[langPair requests] groups IH];
    intros rows; cbn [processGroups]; [apply failFast_ret|].
  destruct (splitLangPair langPair) as [src tgt].
  apply failFast_bind; [apply failFast_prepareAndExecuteTranslations|].
  intros translations. apply failFast_bind; [apply failFast_liftR|].
  intros rows'. apply IH.
Qed.

Lemma failFast_fillRows rows fileName :
  failFast provider (fillRows MAX_BATCH_SIZE MAX_CONCURRENCY_REQ
    provider rows fileName).
Proof.
  unfold fillRows. destruct rows as [|row rows]; [apply failFast_throw|].
  apply failFast_bind; [apply failFast_liftR|].
  intros [|r requests]; [apply failFast_ret|apply failFast_processGroups].
Qed.

Lemma failFast_processFile csv_data fileName :
  failFast provider
    (processFile MAX_BATCH_SIZE MAX_CONCURRENCY_REQ
      provider parseCsvData stringifyCsv base64
       csv_data fileName).
Proof.
  unfold processFile. apply failFast_bind; [apply failFast_liftR|].
  intros rows. apply failFast_bind; [apply failFast_fillRows|].
  intros ?. apply failFast_ret.
Qed.

Lemma failFast_translateTable rows fileName lang :
  failFast provider (translateTable MAX_BATCH_SIZE MAX_CONCURRENCY_REQ
    provider rows fileName lang).
Proof.
  unfold translateTable. destruct rows; [apply failFast_throw|].
  apply failFast_bind; [apply failFast_prepareAndExecuteTranslations|].
  intros ?. apply failFast_ret.
Qed.

Lemma failFast_translateCsvToLanguage csvData fileName lang :
  failFast provider
    (translateCsvToLanguage MAX_BATCH_SIZE MAX_CONCURRENCY_REQ
      provider base64 basename
       csvData fileName lang).
Proof.
  unfold translateCsvToLanguage. apply failFast_bind; [apply failFast_liftR|].
  intros _. apply failFast_bind; [apply failFast_translateTable|].
  intros ?. apply failFast_ret.
Qed.

Lemma failFast_translateOne language fileRef :
  failFast provider
    (translateOne MAX_BATCH_SIZE MAX_CONCURRENCY_REQ
      provider parseCsvData stringifyCsv base64
       basename fetch language fileRef).
Proof.
  unfold translateOne. apply failFast_bind; [apply failFast_liftR|].
  intros response. destruct (negb (ok response)); [apply failFast_throw|].
  apply failFast_bind; [apply failFast_liftR|]. intros csvData.
  destruct language as [lang|]; [destruct (JS.truthy lang)|];
    auto using failFast_translateCsvToLanguage, failFast_processFile.
Qed.
End FailFast.

(** C3. Fail-fast atomicity per table: in a run of [processFile] or of
    [translateCsvToLanguage] that made the Provider calls [ext], if one of
    these calls threw, the run itself throws. What the caller gets is then
    the error alone: no file, hence no cell translated so far, comes with
    it. *)
Theorem C3_fail_fast MAX_BATCH_SIZE MAX_CONCURRENCY_REQ
    provider parseCsvData stringifyCsv
    base64 basename csvData fileName lang log ext (r : result File) :
  processFile MAX_BATCH_SIZE MAX_CONCURRENCY_REQ
    provider parseCsvData stringifyCsv base64
    csvData fileName log = (r, log ++ ext) ∨
  translateCsvToLanguage MAX_BATCH_SIZE MAX_CONCURRENCY_REQ
    provider base64 basename
    csvData fileName lang log = (r, log ++ ext) →
  callFailed provider log ext →
  ∃ message, r = Throw message.
Proof.
  intros Hrun Hfailed.
  assert (isThrow r = true) as Hthrow; [|destruct r; by eauto].
  destruct Hrun as [Hrun|Hrun].
  - destruct (failFast_processFile MAX_BATCH_SIZE MAX_CONCURRENCY_REQ
    provider parseCsvData
                stringifyCsv base64 csvData fileName log) as (ext' & Hlog & Hfail).
    rewrite Hrun in Hlog, Hfail. simpl in *.
    apply app_inv_head in Hlog as <-. auto.
  - destruct (failFast_translateCsvToLanguage MAX_BATCH_SIZE MAX_CONCURRENCY_REQ
    provider base64
                basename csvData fileName lang log) as (ext' & Hlog & Hfail).
    rewrite Hrun in Hlog, Hfail. simpl in *.
    apply app_inv_head in Hlog as <-. auto.
Qed.

Lemma C3_fail_fast_witness :
  ∃ message,
    (translateCsvToLanguage 10 (EnvConfig.JSNumber 100)
      Demo.failingProvider Demo.plain Demo.plain
       "cat,dog" "pets.csv" "French" []).1 = Throw message.
Proof.
  apply (C3_fail_fast 10 (EnvConfig.JSNumber 100)
    Demo.failingProvider Demo.noRows Demo.plainCsv
           Demo.plain Demo.plain "cat,dog" "pets.csv" "French" []
           [ {| call_texts := ["cat"; "dog"];
                call_sourceLang := "any language";
                call_targetLang := "French" |} ]).
  - right. vm_compute. reflexivity.
  - exists 0, {| call_texts := ["cat"; "dog"];
                 call_sourceLang := "any language";
                 call_targetLang := "French" |}.
    split; vm_compute; reflexivity.
Defined.

(** ** Cells that fill-missing-cells mode leaves alone *)

Section Frame.
Variable MAX_BATCH_SIZE : nat.
Variable MAX_CONCURRENCY_REQ : EnvConfig.JSValue.
Variable provider : list ProviderCall → ProviderCall → result (list Translation).

Lemma processGroups_frame groups rows log rows' log' i col :
  processGroups MAX_BATCH_SIZE MAX_CONCURRENCY_REQ
    provider groups rows log = (Ok rows', log') →
  (∀ r, r ∈ allRequests groups → targetOf r ≠ (i, col)) →
  cellAt rows' i col = cellAt rows i col.
Proof.
  revert rows log. induction groups as [|[langPair requests] groups IH];
    intros rows log; cbn [processGroups].
  - by intros [= <- <-].
  - destruct (splitLangPair langPair) as [src tgt]. intros Hrun Hother.
    apply M_bind_Ok_inv in Hrun as (translations & log1 & _ & Hrun).
    apply M_bind_Ok_inv in Hrun as (rows1 & log2 & Happly & Hrun).
    apply liftR_Ok_inv in Happly as [Happly ->].
    unfold allRequests in Hother. simpl in Hother.
    rewrite (IH _ _ Hrun).
    + eapply applyTranslations_frame; [done|].
      intros r Hr. apply Hother, elem_of_app. by left.
    + intros r Hr. apply Hother, elem_of_app. by right.
Qed.

Lemma processGroups_length groups rows log rows' log' :
  processGroups MAX_BATCH_SIZE MAX_CONCURRENCY_REQ
    provider groups rows log = (Ok rows', log') →
  length rows' = length rows.
Proof.
  revert rows log. induction groups as [|[langPair requests] groups IH];
    intros rows log; cbn [processGroups].
  - by intros [= <- <-].
  - destruct (splitLangPair langPair) as [src tgt]. intros Hrun.
    apply M_bind_Ok_inv in Hrun as (translations & log1 & _ & Hrun).
    apply M_bind_Ok_inv in Hrun as (rows1 & log2 & Happly & Hrun).
    apply liftR_Ok_inv in Happly as [Happly ->].
    rewrite (IH _ _ Hrun). by eapply applyTranslations_length.
Qed.

(** A cell for which no request is due is the same in the rows that
    are written. *)
Lemma fillRows_frame rows fileName log rows' log' i col :
  fillRows MAX_BATCH_SIZE MAX_CONCURRENCY_REQ
    provider rows fileName log = (Ok rows', log') →
  (∀ r, r ∈ requestsOf rows → targetOf r ≠ (i, col)) →
  cellAt rows' i col = cellAt rows i col.
Proof.
  unfold fillRows. destruct rows as [|row rows]; [done|].
  intros Hrun Hother.
  apply M_bind_Ok_inv in Hrun as (requests & log1 & Hbuild & Hrun).
  apply liftR_Ok_inv in Hbuild as [Hbuild ->].
  apply buildRequests_Ok in Hbuild as [-> _].
  destruct (requestsOf (row :: rows)) as [|r requests] eqn:Hreqs.
  - by apply M_ret_inv in Hrun as [-> _].
  - eapply processGroups_frame; [done|]. intros r' Hr'. apply Hother.
    by rewrite groupByLangPair_requests in Hr'.
Qed.

(** Without a request there is no Provider call and the rows are
    returned as they are. *)
Lemma fillRows_no_requests row rows fileName log :
  buildRequests (row :: rows) = Ok [] →
  fillRows MAX_BATCH_SIZE MAX_CONCURRENCY_REQ
    provider (row :: rows) fileName log
  = (Ok (row :: rows), log).
Proof.
  intros Hbuild. unfold fillRows. rewrite M_bind_unfold.
  unfold liftR. by rewrite Hbuild.
Qed.

Lemma fillRows_empty fileName log :
  fillRows MAX_BATCH_SIZE MAX_CONCURRENCY_REQ provider [] fileName log
  = (Throw ("The CSV file " +:+ fileName +:+ " is empty."), log).
Proof. reflexivity. Qed.
End Frame.

Lemma columnsSupportedb_sound rows :
  columnsSupportedb rows = true → columnsSupported rows.
Proof.
  unfold columnsSupportedb, columnsSupported.
  rewrite forallb_forall. intros Hall row col Hrow Hcol.
  apply list_elem_of_In in Hrow, Hcol.
  specialize (Hall row Hrow). rewrite forallb_forall in Hall. auto.
Qed.

Lemma wellFormedb_sound rows : wellFormedb rows = true → wellFormed rows.
Proof.
  unfold wellFormedb, wellFormed. rewrite forallb_forall. intros Hall row Hrow.
  apply list_elem_of_In in Hrow. specialize (Hall row Hrow).
  by apply bool_decide_eq_true in Hall.
Qed.

Lemma cellAt_lookup rows i row col :
  rows !! i = Some row → cellAt rows i col = rowGet row col.
Proof. unfold cellAt. by intros ->. Qed.



Lemma fullyPopulatedb_sound rows :
  fullyPopulatedb rows = true → fullyPopulated rows.
Proof.
  unfold fullyPopulatedb, fullyPopulated.
  rewrite forallb_forall. intros Hall row col v Hrow Hcell.
  apply list_elem_of_In in Hrow, Hcell.
  specialize (Hall row Hrow). rewrite forallb_forall in Hall.
  apply (Hall (col, v) Hcell).
Qed.

Lemma fullyPopulated_requests rows : fullyPopulated rows → requestsOf rows = [].
Proof.
  intros Hfull. apply elem_of_nil_inv.
  intros r (row & col & Hrow & Hcol & Hc)%elem_of_requestsOf.
  apply cellRequest_Some in Hc as (Hblank & _).
  destruct (rowGet_column row col Hcol) as [v Hv].
  apply list_elem_of_lookup_2 in Hrow.
  pose proof (Hfull row col v Hrow (rowGet_Some_elem _ _ _ Hv)) as Hnb.
  rewrite Hv, nonBlank_isBlank in *. by rewrite Hblank in Hnb.
Qed.

(** C8. Idempotence on fully populated tables: when every cell of the
    table is non-empty after trimming, fill-missing-cells mode builds no
    request and makes no Provider call (the log is returned as it was), and
    a table with at least one row is handed to serialization as it is; a
    table without rows is rejected as empty. *)
Theorem C8_fully_populated_passthrough MAX_BATCH_SIZE MAX_CONCURRENCY_REQ
    provider parseCsvData
    stringifyCsv base64 rows csvData fileName log :
  fullyPopulated rows →
  buildRequests rows = Ok [] ∧
  (fillRows MAX_BATCH_SIZE MAX_CONCURRENCY_REQ
    provider rows fileName log).2 = log ∧
  (rows ≠ [] →
   fillRows MAX_BATCH_SIZE MAX_CONCURRENCY_REQ
     provider rows fileName log = (Ok rows, log) ∧
   (parseCsvData csvData = Ok rows →
    processFile MAX_BATCH_SIZE MAX_CONCURRENCY_REQ
      provider parseCsvData stringifyCsv base64
      csvData fileName log
    = (Ok {| name := "translated_" +:+ fileName;
             mime_type := "text/csv";
             content := base64 (writeCsvData stringifyCsv rows) |}, log))).
Proof.
  intros Hfull.
  assert (buildRequests rows = Ok []) as Hbuild.
  { apply buildRequests_Ok. rewrite fullyPopulated_requests by done. done. }
  split; [done|]. destruct rows as [|row rows].
  - split; [done|]. by intros [].
  - rewrite (fillRows_no_requests _ _ _ _ _ _ _ Hbuild). split; [done|].
    intros _. split; [done|]. intros Hparse. unfold processFile.
    rewrite M_bind_unfold. unfold liftR. rewrite Hparse.
    rewrite M_bind_unfold, (fillRows_no_requests _ _ _ _ _ _ _ Hbuild).
    reflexivity.
Qed.

Lemma C8_fully_populated_passthrough_witness :
  fillRows 10 (EnvConfig.JSNumber 100)
    Demo.failingProvider Demo.complete "words.csv" []
  = (Ok Demo.complete, []).
Proof.
  refine (proj1 (proj2 (proj2
    (C8_fully_populated_passthrough 10 (EnvConfig.JSNumber 100)
      Demo.failingProvider Demo.noRows
       Demo.plainCsv Demo.plain Demo.complete "" "words.csv" [] _)) _)).
  - apply fullyPopulatedb_sound. vm_compute. reflexivity.
  - discriminate.
Defined.

(** ** The distinct texts of whole-table mode *)

Lemma distinctFrom_cons seen x l :
  distinctFrom seen (x :: l) =
  (if decide (x ∈ seen) then [] else [x]) ++ distinctFrom (seen ++ [x]) l.
Proof.
  unfold distinctFrom. rewrite imap_cons. cbn [take]. rewrite app_nil_r.
  rewrite (imap_ext _ (λ i y, if decide (y ∈ (seen ++ [x]) ++ take i l)
                               then None else Some y)).
  - simpl. by destruct (decide (x ∈ seen)).
  - intros i y _. simpl. by rewrite <- app_assoc.
Qed.

Lemma distinctFrom_ext seen1 seen2 l :
  (∀ y, y ∈ seen1 ↔ y ∈ seen2) → distinctFrom seen1 l = distinctFrom seen2 l.
Proof.
  revert seen1 seen2. induction l as [|x l IH]; intros seen1 seen2 Heq; [done|].
  rewrite !distinctFrom_cons. f_equal.
  - destruct (decide (x ∈ seen1)) as [H1|H1], (decide (x ∈ seen2)) as [H2|H2];
      [done| | |done]; by apply Heq in H1 || apply Heq in H2.
  - apply IH. intros y. rewrite !elem_of_app. by rewrite Heq.
Qed.

Lemma foldl_setAdd seen l : foldl setAdd seen l = seen ++ distinctFrom seen l.
Proof.
  revert seen. induction l as [|x l IH]; intros seen; simpl.
  - unfold distinctFrom. simpl. by rewrite app_nil_r.
  - rewrite IH, distinctFrom_cons. unfold setAdd.
    destruct (decide (x ∈ seen)) as [Hin|Hnotin]; simpl.
    + f_equal. apply distinctFrom_ext. intros y. rewrite elem_of_app.
      split; [by left|]. intros [?|Hy%list_elem_of_singleton]; by subst.
    + by rewrite <- app_assoc.
Qed.

Lemma foldl_setAdd_NoDup seen l : NoDup seen → NoDup (foldl setAdd seen l).
Proof.
  revert seen. induction l as [|x l IH]; intros seen Hnd; simpl; [done|].
  apply IH. unfold setAdd. destruct (decide (x ∈ seen)); [done|].
  apply NoDup_app. split_and!; [done| |apply NoDup_singleton].
  intros y ? Hy%list_elem_of_singleton. by subst.
Qed.

Lemma foldl_setAdd_elem seen l y :
  y ∈ foldl setAdd seen l ↔ y ∈ seen ∨ y ∈ l.
Proof.
  revert seen. induction l as [|x l IH]; intros seen; simpl.
  - rewrite elem_of_nil. tauto.
  - rewrite IH, elem_of_cons. unfold setAdd.
    destruct (decide (x ∈ seen)) as [Hin|?].
    + split; [tauto|]. intros [?|[->|?]]; tauto.
    + rewrite elem_of_app, list_elem_of_singleton. tauto.
Qed.

Lemma collectTexts_foldl rows :
  collectTexts rows = foldl setAdd [] (nonBlankCells rows).
Proof.
  unfold collectTexts, nonBlankCells. generalize ([] : list string).
  induction rows as [|row rows IH]; intros seen; [done|].
  cbn [foldl mjoin list_join]. rewrite filter_app, foldl_app, IH. f_equal.
  clear. revert seen. induction row as [|cell row IH]; intros seen; [done|].
  cbn [foldl]. rewrite filter_cons.
  destruct (decide (nonBlank (Some cell) = true)) as [->|Hnb]; [done|].
  apply not_true_is_false in Hnb. by rewrite Hnb.
Qed.

(** The texts of whole-table mode are the non-blank cells, each once, in
    order of first occurrence. *)
Lemma collectTexts_distinct rows :
  collectTexts rows = distinctInOrder (nonBlankCells rows) ∧
  NoDup (collectTexts rows) ∧
  (∀ t, t ∈ collectTexts rows ↔ t ∈ nonBlankCells rows) ∧
  length (collectTexts rows)
    = size (list_to_set (nonBlankCells rows) : gset string).
Proof.
  rewrite collectTexts_foldl.
  assert (NoDup (foldl setAdd [] (nonBlankCells rows))) as Hnd
    by apply foldl_setAdd_NoDup, NoDup_nil_2.
  assert (∀ t, t ∈ foldl setAdd [] (nonBlankCells rows)
               ↔ t ∈ nonBlankCells rows) as Helem.
  { intros t. rewrite foldl_setAdd_elem, elem_of_nil. tauto. }
  split_and!; [apply foldl_setAdd|done|done|].
  rewrite <- (size_list_to_set (C := gset string)) by done.
  f_equal. apply set_eq. intros t. by rewrite !elem_of_list_to_set.
Qed.

(** ** The Provider calls of one dispatch *)

Section Dispatch.
Variable MAX_BATCH_SIZE : nat.
Variable MAX_CONCURRENCY_REQ : EnvConfig.JSValue.
Variable provider : list ProviderCall → ProviderCall → result (list Translation).
Context `{HasText A}.

Lemma promiseAll_batches_log sourceLang targetLang (bs : list (list A)) log :
  (promiseAll (batchPromise provider sourceLang targetLang <$> bs) log).2
  = log ++ (callOf sourceLang targetLang <$> bs).
Proof.
  revert log. induction bs as [|b bs IH]; intros log.
  - simpl. by rewrite app_nil_r.
  - rewrite fmap_cons. cbn [promiseAll].
    destruct (batchPromise provider sourceLang targetLang b log)
      as [r log1] eqn:Hb.
    assert (log1 = log ++ [callOf sourceLang targetLang b]) as ->.
    { revert Hb. unfold batchPromise, translateTextBatch.
      rewrite M_bind_unfold. unfold callOf.
      destruct (provider log _); by intros [= _ <-]. }
    specialize (IH (log ++ [callOf sourceLang targetLang b])).
    destruct (promiseAll _ _) as [rs log2]. simpl in *. subst log2.
    by rewrite <- app_assoc.
Qed.

(** Once the limiter is created, one dispatch makes one Provider call per
    batch, in the order of the batches, whatever the calls return. *)
Lemma prepareAndExecuteTranslations_log (requests : list A)
    sourceLang targetLang log :
  pLimit MAX_CONCURRENCY_REQ = Ok tt →
  (prepareAndExecuteTranslations MAX_BATCH_SIZE MAX_CONCURRENCY_REQ provider
     requests sourceLang targetLang log).2
  = log ++ (callOf sourceLang targetLang <$> batches MAX_BATCH_SIZE requests).
Proof.
  intros Hlimit. rewrite prepareAndExecuteTranslations_limit, Hlimit.
  rewrite M_bind_unfold.
  pose proof (promiseAll_batches_log sourceLang targetLang
                (batches MAX_BATCH_SIZE requests) log) as Hlog.
  destruct (promiseAll _ log) as [[results|e] log1]; simpl in *; by subst.
Qed.

Lemma callOf_texts sourceLang targetLang (bs : list (list A)) :
  mjoin (call_texts <$> (callOf sourceLang targetLang <$> bs))
  = textOf <$> mjoin bs.
Proof.
  induction bs as [|b bs IH]; [done|].
  rewrite !fmap_cons. cbn [mjoin list_join]. rewrite fmap_app. f_equal.
  apply IH.
Qed.

(** With a positive batch size and a limiter, the texts that reach the
    Provider are the texts of the requests, each once and in order. *)
Lemma prepareAndExecuteTranslations_texts (requests : list A)
    sourceLang targetLang log :
  0 < MAX_BATCH_SIZE → pLimit MAX_CONCURRENCY_REQ = Ok tt →
  ∃ ext,
    (prepareAndExecuteTranslations MAX_BATCH_SIZE MAX_CONCURRENCY_REQ provider
       requests sourceLang targetLang log).2 = log ++ ext ∧
    mjoin (call_texts <$> ext) = textOf <$> requests ∧
    Forall (λ call, call_sourceLang call = sourceLang ∧
                    call_targetLang call = targetLang ∧
                    0 < length (call_texts call) ≤ MAX_BATCH_SIZE) ext.
Proof.
  intros Hpos Hlimit.
  exists (callOf sourceLang targetLang <$> batches MAX_BATCH_SIZE requests).
  split; [by apply prepareAndExecuteTranslations_log|].
  destruct (batches_partition MAX_BATCH_SIZE Hpos requests) as (Hcat & Hlen & _).
  split.
  - by rewrite callOf_texts, Hcat.
  - apply Forall_fmap. eapply Forall_impl; [exact Hlen|].
    intros b Hb. simpl. by rewrite length_fmap.
Qed.
End Dispatch.

(** ** One request per qualifying cell *)

Lemma cellRequest_target i row col r :
  cellRequest i row col = Some r → targetOf r = (i, col).
Proof. intros (_ & _ & _ & ->)%cellRequest_Some. done. Qed.

Lemma cellRequest_qualifies i row col :
  is_Some (cellRequest i row col) ↔ qualifies row col = true.
Proof.
  unfold qualifies. rewrite bool_decide_eq_true. unfold cellRequest.
  destruct (isBlank (rowGet row col)); [|done].
  destruct (findSource row col) as [src|]; [|done].
  destruct (JS.truthy src); [|done]. split; by eauto.
Qed.

Lemma requestsOfRow_targets i row (columns : list string) :
  targetOf <$> omap (cellRequest i row) columns
  = (λ col, (i, col)) <$> filter (λ col, qualifies row col = true) columns.
Proof.
  induction columns as [|col columns IH]; [done|].
  rewrite filter_cons. pose proof (cellRequest_qualifies i row col) as Hq.
  destruct (cellRequest i row col) as [r|] eqn:Hr.
  - rewrite (omap_cons_Some _ _ _ _ Hr), fmap_cons, IH.
    rewrite decide_True by (apply Hq; eauto).
    by rewrite (cellRequest_target _ _ _ _ Hr).
  - rewrite (omap_cons_None _ _ _ Hr), IH.
    rewrite decide_False; [done|]. intros [??]%Hq. done.
Qed.

Lemma fmap_mjoin_imap {A B C} (h : B → C) (f : nat → A → list B)
    (g : nat → A → list C) (l : list A) :
  (∀ i x, h <$> f i x = g i x) →
  h <$> mjoin (imap f l) = mjoin (imap g l).
Proof.
  revert f g. induction l as [|x l IH]; intros f g Hfg; [done|].
  rewrite !imap_cons. cbn [mjoin list_join]. rewrite fmap_app, Hfg. f_equal.
  apply IH. intros i y. apply Hfg.
Qed.

Lemma requestsOf_targets rows : targetOf <$> requestsOf rows = qualifyingCells rows.
Proof.
  unfold requestsOf, qualifyingCells. apply fmap_mjoin_imap.
  intros i row. apply requestsOfRow_targets.
Qed.

Lemma NoDup_mjoin_imap {A B} (g : nat → A → list (nat * B)) (l : list A) k :
  (∀ i x, x ∈ l → NoDup (g i x)) →
  (∀ i x p, p ∈ g i x → p.1 = k + i) →
  NoDup (mjoin (imap g l)).
Proof.
  revert g k. induction l as [|x l IH]; intros g k Hnd Hidx.
  - apply NoDup_nil_2.
  - rewrite imap_cons. cbn [mjoin list_join]. apply NoDup_app. split_and!.
    + apply Hnd. left.
    + intros p Hp (ps & Hin & Hps)%list_elem_of_join.
      apply elem_of_lookup_imap in Hps as (i & y & -> & _).
      apply Hidx in Hp. apply Hidx in Hin. lia.
    + apply (IH _ (S k)).
      * intros i y Hy. apply Hnd. by right.
      * intros i y p Hp. apply Hidx in Hp. simpl in Hp. lia.
Qed.

Lemma qualifyingCells_NoDup rows : wellFormed rows → NoDup (qualifyingCells rows).
Proof.
  intros Hwf. unfold qualifyingCells. apply (NoDup_mjoin_imap _ _ 0).
  - intros i row Hrow. apply NoDup_fmap_2.
    + by intros ?? [= ->].
    + apply NoDup_filter. by apply Hwf.
  - intros i row p (col & -> & _)%list_elem_of_fmap. done.
Qed.

Section WholeTableCalls.
Variable MAX_BATCH_SIZE : nat.
Variable MAX_CONCURRENCY_REQ : EnvConfig.JSValue.
Variable provider : list ProviderCall → ProviderCall → result (list Translation).
Variable base64 : string → string.
Variable basename : string → string.

Lemma translateTable_texts rows fileName lang log :
  0 < MAX_BATCH_SIZE → pLimit MAX_CONCURRENCY_REQ = Ok tt → rows ≠ [] →
  ∃ ext,
    (translateTable MAX_BATCH_SIZE MAX_CONCURRENCY_REQ provider rows fileName
       lang log).2 = log ++ ext ∧
    mjoin (call_texts <$> ext) = collectTexts rows ∧
    Forall (λ call, call_targetLang call = lang ∧
                    0 < length (call_texts call) ≤ MAX_BATCH_SIZE) ext.
Proof.
  intros Hpos Hlimit Hne. unfold translateTable.
  destruct rows as [|row rows]; [done|].
  set (requests := (λ text, {| text_only := text |}) <$> collectTexts (row :: rows)).
  destruct (prepareAndExecuteTranslations_texts MAX_BATCH_SIZE
              MAX_CONCURRENCY_REQ provider requests "any language" lang log
              Hpos Hlimit) as (ext & Hlog & Htexts & Hall).
  exists ext. rewrite M_bind_unfold.
  destruct (prepareAndExecuteTranslations _ _ _ _ _ _ log) as [[ts|e] log1];
    simpl in *; subst log1; (split_and!; [done| |]).
  all: try (rewrite Htexts; unfold requests; rewrite <- list_fmap_compose;
            apply list_fmap_id).
  all: eapply Forall_impl; [exact Hall|]; by intros call (_ & ? & ?).
Qed.

(** Whole-table mode sends the distinct non-blank cells, and nothing
    else, to the Provider. *)
Lemma translateCsvToLanguage_texts csvData fileName lang log :
  0 < MAX_BATCH_SIZE → pLimit MAX_CONCURRENCY_REQ = Ok tt →
  isSupported lang = true →
  ∃ ext,
    (translateCsvToLanguage MAX_BATCH_SIZE MAX_CONCURRENCY_REQ provider base64
       basename csvData fileName lang log).2 = log ++ ext ∧
    mjoin (call_texts <$> ext) = collectTexts (parseCells csvData) ∧
    Forall (λ call, call_targetLang call = lang ∧
                    0 < length (call_texts call) ≤ MAX_BATCH_SIZE) ext.
Proof.
  intros Hpos Hlimit Hlang.
  destruct (translateTable_texts (parseCells csvData) fileName lang log Hpos
              Hlimit (parseCells_nonempty csvData))
    as (ext & Hlog & Htexts & Hall).
  exists ext. split; [|done].
  unfold translateCsvToLanguage, validateLanguageCode. rewrite Hlang.
  rewrite M_bind_unfold. unfold liftR. rewrite M_bind_unfold.
  destruct (translateTable _ _ _ _ _ _ log) as [[rows|e] log1]; by simpl in *.
Qed.
End WholeTableCalls.

(** C1. Deduplication asymmetry between the two modes.
    (1) Whole-table mode: the texts for which requests are built are the
        non-blank cells of the table, each exactly once, in order of first
        occurrence; their number is the number of distinct non-blank cell
        texts; and, for a supported target language, a positive batch
        size and a concurrency limit that p-limit accepts (a whole number
        from 1 up, such as the default 100; a limit read from the
        environment is a string, and the dispatch then throws before any
        call), these are the texts that reach the Provider.
    (2) Fill-missing-cells mode, on a table of row objects whose column
        names pass language validation: the requests are, in row-major
        order, one per qualifying cell (a blank cell whose row has another
        non-blank column), and distinct cells give distinct requests.
    (3) Fill-missing-cells mode does not collapse: two rows with the same
        sentence give two requests with the same text and language pair,
        where whole-table mode keeps one text. *)
Theorem C1_dedup_asymmetry :
  (∀ cells : list (list string),
     collectTexts cells = distinctInOrder (nonBlankCells cells) ∧
     NoDup (collectTexts cells) ∧
     (∀ t, t ∈ collectTexts cells ↔ t ∈ nonBlankCells cells) ∧
     length (collectTexts cells)
       = size (list_to_set (nonBlankCells cells) : gset string)) ∧
  (∀ MAX_BATCH_SIZE MAX_CONCURRENCY_REQ provider base64 basename csvData
      fileName lang log,
     0 < MAX_BATCH_SIZE → pLimit MAX_CONCURRENCY_REQ = Ok tt →
     isSupported lang = true →
     ∃ ext,
       (translateCsvToLanguage MAX_BATCH_SIZE MAX_CONCURRENCY_REQ provider
          base64 basename csvData fileName lang log).2 = log ++ ext ∧
       mjoin (call_texts <$> ext) = collectTexts (parseCells csvData)) ∧
  (∀ rows,
     columnsSupported rows → wellFormed rows →
     ∃ requests,
       buildRequests rows = Ok requests ∧
       targetOf <$> requests = qualifyingCells rows ∧
       NoDup (qualifyingCells rows) ∧
       NoDup requests ∧
       length requests = length (qualifyingCells rows)) ∧
  (∃ r1 r2,
     buildRequests Demo.repeated = Ok [r1; r2] ∧
     text r1 = text r2 ∧ sourceLang r1 = sourceLang r2 ∧
     targetLang r1 = targetLang r2 ∧ r1 ≠ r2 ∧
     collectTexts [["hello"]; ["hello"]] = ["hello"]).
Proof.
  split_and!.
  - apply collectTexts_distinct.
  - intros MAX_BATCH_SIZE MAX_CONCURRENCY_REQ provider base64 basename csvData
      fileName lang log Hpos Hlimit Hlang.
    destruct (translateCsvToLanguage_texts MAX_BATCH_SIZE MAX_CONCURRENCY_REQ
                provider base64 basename csvData fileName lang log Hpos Hlimit
                Hlang)
      as (ext & Hlog & Htexts & _).
    by exists ext.
  - intros rows Hsup Hwf. exists (requestsOf rows).
    pose proof (qualifyingCells_NoDup rows Hwf) as Hnd.
    split_and!; [by apply buildRequests_supported|apply requestsOf_targets|done| |].
    + apply (NoDup_fmap_1 targetOf). by rewrite requestsOf_targets.
    + by rewrite <- requestsOf_targets, length_fmap.
  - exists {| rowIndex := 0; sourceLang := "English"; targetLang := "French";
              text := "hello" |},
           {| rowIndex := 1; sourceLang := "English"; targetLang := "French";
              text := "hello" |}.
    split_and!; [vm_compute; reflexivity|done..|vm_compute; reflexivity].
Qed.

Lemma C1_dedup_asymmetry_witness :
  (∃ ext,
     (translateCsvToLanguage 10 (EnvConfig.JSNumber 100)
       Demo.echoProvider Demo.plain Demo.plain
        "cat,dog,cat" "pets.csv" "French" []).2 = [] ++ ext ∧
     mjoin (call_texts <$> ext) = collectTexts (parseCells "cat,dog,cat")) ∧
  (∃ requests,
     buildRequests Demo.repeated = Ok requests ∧
     targetOf <$> requests = qualifyingCells Demo.repeated ∧
     NoDup (qualifyingCells Demo.repeated) ∧
     NoDup requests ∧
     length requests = length (qualifyingCells Demo.repeated)).
Proof.
  destruct C1_dedup_asymmetry as (_ & Hwhole & Hfill & _). split.
  - apply Hwhole.
    + apply Nat.lt_0_succ.
    + reflexivity.
    + vm_compute. reflexivity.
  - apply Hfill.
    + apply columnsSupportedb_sound. vm_compute. reflexivity.
    + apply wellFormedb_sound. vm_compute. reflexivity.
Defined.

(** ** [Promise.all] *)

Lemma promiseAll_cons {A} (p : M A) rest log :
  promiseAll (p :: rest) log =
  (match (p log).1, (promiseAll rest (p log).2).1 with
   | Throw e, _ => Throw e
   | Ok _, Throw e => Throw e
   | Ok a, Ok l => Ok (a :: l)
   end, (promiseAll rest (p log).2).2).
Proof.
  cbn [promiseAll]. destruct (p log) as [r log1]. simpl.
  by destruct (promiseAll rest log1).
Qed.

(** [Promise.all] rejects exactly when one of the promises does, and
    otherwise resolves with all the values. *)
Lemma promiseAll_settled {A} (promises : list (M A)) log :
  (Exists (λ r, isThrow r = true) (settled promises log) →
   isThrow (promiseAll promises log).1 = true) ∧
  (Forall (λ r, isThrow r = false) (settled promises log) →
   ∃ values, (promiseAll promises log).1 = Ok values ∧
             Ok <$> values = settled promises log).
Proof.
  revert log. induction promises as [|p rest IH]; intros log.
  - split; [by intros ?%Exists_nil|]. intros _. by exists [].
  - rewrite promiseAll_cons. cbn [settled].
    destruct (IH (p log).2) as [IH1 IH2]. split.
    + intros [Hp|Hrest]%Exists_cons; simpl.
      * by destruct (p log).1.
      * apply IH1 in Hrest. destruct (p log).1; [|done].
        by destruct (promiseAll rest _).1.
    + intros [Hp Hrest]%Forall_cons. simpl.
      destruct (IH2 Hrest) as (values & -> & Hvalues).
      destruct (p log).1 as [a|e]; [|done].
      exists (a :: values). by rewrite fmap_cons, Hvalues.
Qed.

Section Answers.
Variable provider : list ProviderCall → ProviderCall → result (list Translation).
Context `{HasText A}.

(** When a dispatch resolves, every batch was answered, and the
    translations are the answers, batch after batch. *)
Lemma batchPromise_run sourceLang targetLang (b : list A) log :
  batchPromise provider sourceLang targetLang b log =
  (match provider log (callOf sourceLang targetLang b) with
   | Ok translations => Ok (translations, b)
   | Throw e => Throw e
   end, log ++ [callOf sourceLang targetLang b]).
Proof.
  unfold batchPromise, translateTextBatch. rewrite M_bind_unfold.
  fold (callOf sourceLang targetLang b).
  by destruct (provider log (callOf sourceLang targetLang b)).
Qed.

Lemma promiseAll_batches_answers sourceLang targetLang (bs : list (list A))
    log results log' :
  promiseAll (batchPromise provider sourceLang targetLang <$> bs) log
    = (Ok results, log') →
  answers provider log (callOf sourceLang targetLang <$> bs)
    = Ok <$> (fst <$> results).
Proof.
  revert log results log'.
  induction bs as [|b bs IH]; intros log results log'.
  - by intros [= <- _].
  - rewrite !fmap_cons, promiseAll_cons, batchPromise_run. cbn [answers fst snd].
    destruct (provider log (callOf sourceLang targetLang b)) as [ts|e];
      [|done].
    destruct (promiseAll _ (log ++ [callOf sourceLang targetLang b]))
      as [[rs|e] log1] eqn:Hrest; simpl; [|done].
    intros [= <- _]. rewrite !fmap_cons. simpl. f_equal. eauto.
Qed.

Lemma prepareAndExecuteTranslations_answers MAX_BATCH_SIZE MAX_CONCURRENCY_REQ
    (requests : list A) sourceLang targetLang log translations log' :
  prepareAndExecuteTranslations MAX_BATCH_SIZE MAX_CONCURRENCY_REQ
    provider requests
    sourceLang targetLang log = (Ok translations, log') →
  ∃ answered,
    answers provider log
      (callOf sourceLang targetLang <$> batches MAX_BATCH_SIZE requests)
      = Ok <$> answered ∧
    translations = mjoin answered.
Proof.
  unfold prepareAndExecuteTranslations.
  intros (limit & log0 & [_ ->]%liftR_Ok_inv & Hrun)%M_bind_Ok_inv.
  apply M_bind_Ok_inv in Hrun as (results & log1 & Hall & Hret).
  apply M_ret_inv in Hret as [-> _].
  exists (fst <$> results). split; [|done].
  by eapply promiseAll_batches_answers.
Qed.
End Answers.

(** ** The translation map *)

Lemma buildTranslationMap_snoc translations t :
  buildTranslationMap (translations ++ [t])
  = <[original_text t := translated_text t]> (buildTranslationMap translations).
Proof. unfold buildTranslationMap. by rewrite foldl_snoc. Qed.

(** The map holds, for a text, the translation of the last result that
    carries it. *)
Lemma buildTranslationMap_lookup translations cell :
  buildTranslationMap translations !! cell
  = translated_text <$>
      List.find (λ t, bool_decide (original_text t = cell)) (reverse translations).
Proof.
  induction translations as [|t translations IH] using rev_ind; [done|].
  rewrite buildTranslationMap_snoc, reverse_snoc. simpl.
  destruct (decide (original_text t = cell)) as [Heq|Hne].
  - rewrite bool_decide_true by done. rewrite Heq. by rewrite lookup_insert_eq.
  - rewrite bool_decide_false by done. by rewrite lookup_insert_ne.
Qed.

Lemma translateRows_lookup translationMap rows i j row cell :
  rows !! i = Some row → row !! j = Some cell →
  ∃ row', translateRows translationMap rows !! i = Some row' ∧
          length row' = length row ∧
          row' !! j = Some (translateCell translationMap cell).
Proof.
  intros Hrow Hcell. exists (translateCell translationMap <$> row).
  unfold translateRows. rewrite list_lookup_fmap, Hrow. split_and!; [done| |].
  - by rewrite length_fmap.
  - by rewrite list_lookup_fmap, Hcell.
Qed.

(** The requests that fill-missing-cells mode builds satisfy what the
    write-back loop needs: they index rows of the table and, in a table of
    row objects, no two of them target the same cell; so do the requests of
    each language-pair group. *)
Lemma requestsOf_in_range rows r :
  r ∈ requestsOf rows → rowIndex r < length rows.
Proof.
  intros (row & col & Hrow & _)%elem_of_requestsOf.
  by eapply lookup_lt_Some.
Qed.

Lemma requestsOf_targets_NoDup rows :
  wellFormed rows → NoDup (targetOf <$> requestsOf rows).
Proof. intros Hwf. rewrite requestsOf_targets. by apply qualifyingCells_NoDup. Qed.

Lemma group_targets_NoDup translationRequests langPair requests :
  NoDup (targetOf <$> translationRequests) →
  (langPair, requests) ∈ groupByLangPair translationRequests →
  NoDup (targetOf <$> requests).
Proof.
  intros Hnd Hgroup.
  rewrite <- (groupByLangPair_requests translationRequests) in Hnd.
  unfold allRequests in Hnd.
  apply list_elem_of_lookup in Hgroup as [k Hk].
  rewrite <- (take_drop_middle _ _ _ Hk) in Hnd.
  rewrite fmap_app, fmap_cons, join_app in Hnd. cbn [mjoin list_join snd] in Hnd.
  rewrite !fmap_app in Hnd.
  apply NoDup_app in Hnd as (_ & _ & Hnd).
  by apply NoDup_app in Hnd as (Hnd & _).
Qed.

(** C6, as stated, fails on an empty translation. In fill-missing-cells
    mode the first result for "hi" carries the empty string and the
    target cell, a single space, is not set to it; in whole-table mode the
    map has the entry "" for "cat" and the cell stays "cat". *)
Lemma C6_counterexample :
  ¬ (∀ rows requests translations rows' r t,
       applyTranslations rows requests translations = Ok rows' →
       r ∈ requests →
       findTranslation translations (text r) = Some t →
       cellAt rows' (rowIndex r) (targetLang r) = Some t) ∧
  ¬ (∀ translations cell t,
       buildTranslationMap translations !! cell = Some t →
       translateCell (buildTranslationMap translations) cell = t).
Proof.
  split.
  - intros Hclaim.
    specialize (Hclaim
      [[("English", "hi"); ("French", " ")]]
      [{| rowIndex := 0; sourceLang := "English"; targetLang := "French";
          text := "hi" |}]
      [{| original_text := "hi"; translated_text := "" |}]
      [[("English", "hi"); ("French", " ")]]
      {| rowIndex := 0; sourceLang := "English"; targetLang := "French";
         text := "hi" |}
      "" eq_refl).
    discriminate Hclaim; [left|reflexivity].
  - intros Hclaim.
    specialize (Hclaim [{| original_text := "cat"; translated_text := "" |}]
                  "cat" "" eq_refl).
    discriminate Hclaim.
Qed.

(** C6, amended. Reassembly writes only the cells that have a non-empty
    translation and leaves the rest unchanged.
    (1) Fill-missing-cells mode, for requests that index rows of the table
        and target pairwise distinct cells: the loop completes; the cell of
        each request holds the translated text of the first result whose
        original text is the request's text when that translated text is
        not empty, and its former value when no result matches or the
        first match is empty; every cell that no request targets is
        unchanged.
    (2) Whole-table mode: every cell is replaced by the translated text of
        the last result whose original text is exactly the cell (the map
        entry) when that text is not empty, and is unchanged otherwise. *)
Theorem C6_reassembly :
  (∀ rows requests translations,
     (∀ r, r ∈ requests → rowIndex r < length rows) →
     NoDup (targetOf <$> requests) →
     ∃ rows',
       applyTranslations rows requests translations = Ok rows' ∧
       length rows' = length rows ∧
       (∀ r, r ∈ requests →
          cellAt rows' (rowIndex r) (targetLang r) =
          match List.find (λ t, bool_decide (original_text t = text r))
                          translations with
          | Some t => if JS.truthy (translated_text t)
                      then Some (translated_text t)
                      else cellAt rows (rowIndex r) (targetLang r)
          | None => cellAt rows (rowIndex r) (targetLang r)
          end) ∧
       (∀ i col, (∀ r, r ∈ requests → targetOf r ≠ (i, col)) →
                 cellAt rows' i col = cellAt rows i col)) ∧
  (∀ translations rows i j row cell,
     rows !! i = Some row → row !! j = Some cell →
     length (translateRows (buildTranslationMap translations) rows)
       = length rows ∧
     ∃ row',
       translateRows (buildTranslationMap translations) rows !! i = Some row' ∧
       length row' = length row ∧
       row' !! j = Some
         match List.find (λ t, bool_decide (original_text t = cell))
                         (reverse translations) with
         | Some t => if JS.truthy (translated_text t)
                     then translated_text t else cell
         | None => cell
         end).
Proof.
  split.
  - intros rows requests translations Hrange Hnodup.
    destruct (applyTranslations_total rows requests translations Hrange)
      as [rows' Happly].
    exists rows'. split_and!; [done|by eapply applyTranslations_length| |].
    + intros r Hr.
      rewrite (applyTranslations_target _ _ _ _ _ Happly Hnodup Hr).
      unfold written, findTranslation.
      destruct (List.find _ translations) as [t|]; simpl; [|done].
      by destruct (JS.truthy (translated_text t)).
    + intros i col Hother. by eapply applyTranslations_frame.
  - intros translations rows i j row cell Hrow Hcell. split.
    { unfold translateRows. by rewrite length_fmap. }
    destruct (translateRows_lookup (buildTranslationMap translations)
                rows i j row cell Hrow Hcell) as (row' & Hrow' & Hlen & Hcell').
    exists row'. split_and!; [done..|].
    rewrite Hcell'. f_equal. unfold translateCell.
    rewrite buildTranslationMap_lookup.
    by destruct (List.find _ (reverse translations)).
Qed.

Lemma C6_reassembly_witness :
  ∃ rows',
    applyTranslations Demo.greetings
      [{| rowIndex := 0; sourceLang := "English"; targetLang := "French";
          text := "hello" |};
       {| rowIndex := 0; sourceLang := "English"; targetLang := "Spanish";
          text := "hello" |}]
      [{| original_text := "hello"; translated_text := "bonjour" |}]
    = Ok rows' ∧
    cellAt rows' 0 "French" = Some "bonjour" ∧
    cellAt rows' 1 "French" = Some "" ∧
    (∃ row', translateRows
               (buildTranslationMap
                  [{| original_text := "cat"; translated_text := "chat" |}])
               [["cat"; "dog"]] !! 0 = Some row' ∧
             row' !! 0 = Some "chat").
Proof.
  destruct C6_reassembly as [Hfill Hwhole].
  destruct (Hfill Demo.greetings
    [{| rowIndex := 0; sourceLang := "English"; targetLang := "French";
        text := "hello" |};
     {| rowIndex := 0; sourceLang := "English"; targetLang := "Spanish";
        text := "hello" |}]
    [{| original_text := "hello"; translated_text := "bonjour" |}])
    as (rows' & Happly & _ & Htarget & Hframe).
  - intros r Hr. apply list_elem_of_In in Hr.
    destruct Hr as [<-|[<-|[]]]; vm_compute; lia.
  - refine (bool_decide_unpack _ _). vm_compute. exact I.
  - exists rows'. split; [exact Happly|]. split; [|split].
    + apply (Htarget {| rowIndex := 0; sourceLang := "English";
                        targetLang := "French"; text := "hello" |}).
      apply list_elem_of_In. left. reflexivity.
    + rewrite (Hframe 1 "French"); [reflexivity|].
      intros r Hr. apply list_elem_of_In in Hr.
      destruct Hr as [<-|[<-|[]]]; discriminate.
    + destruct (Hwhole [{| original_text := "cat"; translated_text := "chat" |}]
                  [["cat"; "dog"]] 0 0 ["cat"; "dog"] "cat" eq_refl eq_refl)
        as (_ & row' & Hrow' & _ & Hcell).
      exists row'. split; [exact Hrow'|exact Hcell].
Defined.

(** C7, whole-table mode. [csvData.split('\n')] is never an empty array, so
    the guard [rows.length === 0] of [translateCsvToLanguage] cannot fire:
    an empty file is parsed as one row with one empty cell, no request is
    built, no Provider call is made, and the run returns a file with empty
    content instead of the empty-input error. This is the run with a
    numeric concurrency limit of at least one, as in the default
    configuration (100); with a limit read from the environment, a
    string, the run stops at [pLimit] with that library's error, which is
    not the empty-input error either. In fill-missing-cells mode the same
    guard rejects a table without rows before anything else. *)
Theorem C7_whole_table_accepts_empty_file MAX_BATCH_SIZE MAX_CONCURRENCY_REQ
    limit provider base64 basename fileName log :
  translateCsvToLanguage MAX_BATCH_SIZE (EnvConfig.JSNumber (S limit)) provider
    base64 basename "" fileName "French" log
  = (Ok {| name := "translated_" +:+ basename fileName;
           mime_type := "text/csv";
           content := base64 "" |}, log) ∧
  (∀ csvData, parseCells csvData ≠ []) ∧
  fillRows MAX_BATCH_SIZE MAX_CONCURRENCY_REQ provider [] fileName log
  = (Throw ("The CSV file " +:+ fileName +:+ " is empty."), log) ∧
  (∀ s, translateCsvToLanguage MAX_BATCH_SIZE (EnvConfig.JSString s) provider
          base64 basename "" fileName "French" log
        = (Throw "Expected `concurrency` to be a number from 1 and up", log)).
Proof.
  assert (validateLanguageCode "French" = Ok tt) as Hvalid
    by (vm_compute; reflexivity).
  split_and!; [|apply parseCells_nonempty|reflexivity|intros s].
  all: unfold translateCsvToLanguage; rewrite Hvalid; reflexivity.
Qed.

(** ** The HTTP boundary *)

Section Handler.
Variable MAX_BATCH_SIZE : nat.
Variable MAX_CONCURRENCY_REQ : EnvConfig.JSValue.
Variable provider : list ProviderCall → ProviderCall → result (list Translation).
Variable parseCsvData : string → result (list Row).
Variable stringifyCsv : list string → list Row → string.
Variable base64 : string → string.
Variable basename : string → string.
Variable fetch : string → result FetchResponse.

Local Abbreviation translateOne' :=
  (translateOne MAX_BATCH_SIZE MAX_CONCURRENCY_REQ
    provider parseCsvData stringifyCsv base64
     basename fetch).

(** The failures of one file: a download that fails, an unsupported
    target language, an empty table in fill-missing-cells mode. (A
    Provider failure is [failFast_translateOne].) *)
Lemma translateOne_failures language fileRef log :
  (∀ e, fetch (download_link fileRef) = Throw e →
        translateOne' language fileRef log = (Throw e, log)) ∧
  (∀ response, fetch (download_link fileRef) = Ok response →
               ok response = false →
               translateOne' language fileRef log
               = (Throw ("Failed to download file: " +:+ ref_name fileRef), log)) ∧
  (∀ response csvData lang,
     fetch (download_link fileRef) = Ok response → ok response = true →
     responseText response = Ok csvData →
     language = Some lang → JS.truthy lang = true →
     isSupported lang = false →
     translateOne' language fileRef log
     = (Throw ("Unsupported language code: " +:+ lang), log)) ∧
  (∀ response csvData,
     fetch (download_link fileRef) = Ok response → ok response = true →
     responseText response = Ok csvData →
     language = None → parseCsvData csvData = Ok [] →
     translateOne' language fileRef log
     = (Throw ("The CSV file " +:+ ref_name fileRef +:+ " is empty."), log)).
Proof.
  unfold translateOne. rewrite M_bind_unfold. unfold liftR at 1.
  split_and!.
  - by intros e ->.
  - intros response -> Hok. simpl. by rewrite Hok.
  - intros response csvData lang -> Hok Htext -> Hlang Hsup. simpl.
    rewrite Hok. simpl.
    rewrite M_bind_unfold. unfold liftR at 1. rewrite Htext, Hlang.
    unfold translateCsvToLanguage, validateLanguageCode. by rewrite Hsup.
  - intros response csvData -> Hok Htext -> Hparse. simpl.
    rewrite Hok. simpl.
    rewrite M_bind_unfold. unfold liftR at 1. rewrite Htext.
    unfold processFile. rewrite M_bind_unfold. unfold liftR at 1.
    by rewrite Hparse.
Qed.

Lemma translateHandler_array ref refs language log :
  translateHandler MAX_BATCH_SIZE MAX_CONCURRENCY_REQ
    provider parseCsvData stringifyCsv base64
    basename fetch
    {| openaiFileIdRefs := RefsArray (ref :: refs); language := language |} log
  = match promiseAll (translateOne' language <$> ref :: refs) log with
    | (Ok translatedFiles, log') =>
        ({| status := 200; body := FilesBody translatedFiles |}, log')
    | (Throw message, log') =>
        ({| status := 500;
            body := ErrorBody (if JS.truthy message then message
                               else "Internal Server Error") |}, log')
    end.
Proof. reflexivity. Qed.
End Handler.

(** C9, on an empty file. Of the failures that claim C9 sends to status
    500, the empty file is one only in fill-missing-cells mode. In the
    default configuration (a numeric concurrency limit), a request with a
    [language] and a reference to an empty file is answered with status
    200 and a file of empty content, and no Provider call is made: the
    guard [rows.length === 0] of [translateCsvToLanguage] cannot fire,
    which is the defect of C7. The same request without [language] is
    answered with status 500 and the empty-input error. *)
Theorem C9_empty_file_answers_200 MAX_BATCH_SIZE limit provider parseCsvData
    stringifyCsv base64 basename log :
  translateHandler MAX_BATCH_SIZE (EnvConfig.JSNumber (S limit)) provider
    parseCsvData stringifyCsv base64 basename Demo.emptyFiles
    {| openaiFileIdRefs := RefsArray [Demo.emptyRef];
       language := Some "French" |} log
  = ({| status := 200;
        body := FilesBody [ {| name := "translated_" +:+ basename "empty.csv";
                               mime_type := "text/csv";
                               content := base64 "" |} ] |}, log) ∧
  translateHandler MAX_BATCH_SIZE (EnvConfig.JSNumber (S limit)) provider
    Demo.noRows stringifyCsv base64 basename Demo.emptyFiles
    {| openaiFileIdRefs := RefsArray [Demo.emptyRef]; language := None |} log
  = ({| status := 500;
        body := ErrorBody "The CSV file empty.csv is empty." |}, log).
Proof.
  assert (validateLanguageCode "French" = Ok tt) as Hvalid
    by (vm_compute; reflexivity).
  split.
  - rewrite translateHandler_array. cbn [fmap list_fmap promiseAll].
    unfold translateOne, Demo.emptyFiles at 1. rewrite M_bind_unfold.
    unfold liftR at 1. cbn [ok negb responseText].
    rewrite M_bind_unfold. unfold liftR at 1. cbn [JS.truthy].
    unfold translateCsvToLanguage. rewrite Hvalid. reflexivity.
  - reflexivity.
Qed.

(** C10, as stated, fails on an empty translation: the map built from the
    Provider's answer contains the header cell "name", with the empty
    string, and the header of the output is still "name". *)
Lemma C10_counterexample :
  ¬ (∀ translations header rest j h t,
       header !! j = Some h →
       buildTranslationMap translations !! h = Some t →
       ∃ row', translateRows (buildTranslationMap translations)
                 (header :: rest) !! 0 = Some row' ∧
               row' !! j = Some t) ∧
  (let run := translateCsvToLanguage 10 (EnvConfig.JSNumber 100)
    Demo.silentProvider Demo.plain
                Demo.plain "name,age" "people.csv" "French" [] in
   answers Demo.silentProvider [] run.2
     = [Ok [{| original_text := "name"; translated_text := "" |};
            {| original_text := "age"; translated_text := "" |}]] ∧
   run.1 = Ok {| name := "translated_people.csv";
                 mime_type := "text/csv";
                 content := "name,age" |}).
Proof.
  split.
  - intros Hclaim.
    destruct (Hclaim [{| original_text := "name"; translated_text := "" |}]
                ["name"; "age"] [] 0 "name" "" eq_refl eq_refl)
      as (row' & Hrow' & Hcell).
    vm_compute in Hrow'. injection Hrow' as <-. discriminate Hcell.
  - split; vm_compute; reflexivity.
Qed.

(** C10, amended. Whole-table mode, for a supported target language, a
    positive batch size and a concurrency limit that p-limit accepts (a
    whole number from 1 up, such as the default 100; with a limit read
    from the environment, a string, the dispatch throws before any call
    and nothing is sent): the table is the text split on newlines, each
    line split on commas, and writing it back gives the text again
    (nothing is trimmed, unquoted or set apart as a header); every
    non-blank cell of the first line is among the distinct texts and is
    sent to the Provider; and when the run completes, the first line of
    the output is the first line of the input in which each cell is
    replaced by its entry in the map built from the Provider's answers
    whenever that entry exists and is not the empty string. *)
Theorem C10_header_translated MAX_BATCH_SIZE MAX_CONCURRENCY_REQ provider
    base64 basename csvData fileName lang log :
  0 < MAX_BATCH_SIZE → pLimit MAX_CONCURRENCY_REQ = Ok tt →
  isSupported lang = true →
  ∃ header rest ext,
    JS.split "," <$> JS.split "010" csvData = header :: rest ∧
    writeCells (header :: rest) = csvData ∧
    (translateCsvToLanguage MAX_BATCH_SIZE MAX_CONCURRENCY_REQ
      provider base64 basename
       csvData fileName lang log).2 = log ++ ext ∧
    (∀ h, h ∈ header → nonBlank (Some h) = true →
          h ∈ collectTexts (header :: rest) ∧
          ∃ call, call ∈ ext ∧ h ∈ call_texts call) ∧
    (∀ file,
       (translateCsvToLanguage MAX_BATCH_SIZE MAX_CONCURRENCY_REQ
         provider base64 basename
          csvData fileName lang log).1 = Ok file →
       ∃ answered,
         answers provider log ext = Ok <$> answered ∧
         content file
           = base64 (writeCells
                       ((translateCell (buildTranslationMap (mjoin answered))
                           <$> header)
                        :: translateRows (buildTranslationMap (mjoin answered))
                             rest)) ∧
         ∀ h t, h ∈ header →
                buildTranslationMap (mjoin answered) !! h = Some t →
                t ≠ "" →
                translateCell (buildTranslationMap (mjoin answered)) h = t).
Proof.
  intros Hpos Hlimit Hlang.
  destruct (parseCells csvData) as [|header rest] eqn:Hparse.
  { by apply parseCells_nonempty in Hparse. }
  set (requests := (λ text, {| text_only := text |})
                     <$> collectTexts (header :: rest)).
  exists header, rest,
    (callOf "any language" lang <$> batches MAX_BATCH_SIZE requests).
  assert (translateCsvToLanguage MAX_BATCH_SIZE MAX_CONCURRENCY_REQ
    provider base64 basename
            csvData fileName lang log
          = (translations ← prepareAndExecuteTranslations MAX_BATCH_SIZE MAX_CONCURRENCY_REQ
                              provider requests "any language" lang;
             mret {| name := "translated_" +:+ basename fileName;
                     mime_type := "text/csv";
                     content := base64 (writeCells
                       (translateRows (buildTranslationMap translations)
                          (header :: rest))) |}) log) as Hrun.
  { unfold translateCsvToLanguage, validateLanguageCode.
    rewrite Hlang, Hparse. rewrite !M_bind_unfold. unfold liftR, translateTable.
    rewrite !M_bind_unfold. fold requests.
    by destruct (prepareAndExecuteTranslations _ _ _ requests _ _ log) as [[?|?] ?]. }
  pose proof (prepareAndExecuteTranslations_log MAX_BATCH_SIZE
                MAX_CONCURRENCY_REQ provider requests "any language" lang log
                Hlimit) as Hlog.
  split_and!.
  - done.
  - rewrite <- Hparse. apply writeCells_parseCells.
  - rewrite Hrun, M_bind_unfold.
    by destruct (prepareAndExecuteTranslations _ _ _ requests _ _ log) as [[?|?] ?].
  - intros h Hh Hnb.
    assert (h ∈ collectTexts (header :: rest)) as Hin.
    { apply collectTexts_distinct. unfold nonBlankCells.
      apply list_elem_of_filter. split; [done|].
      cbn [mjoin list_join]. apply elem_of_app. by left. }
    split; [done|].
    destruct (batches_partition MAX_BATCH_SIZE Hpos requests) as (Hcat & _).
    assert (h ∈ mjoin (call_texts <$>
              (callOf "any language" lang <$> batches MAX_BATCH_SIZE requests)))
      as (texts & Hhin & (call & -> & Hcall)%list_elem_of_fmap)%list_elem_of_join.
    { rewrite callOf_texts, Hcat. unfold requests.
      rewrite <- list_fmap_compose. by rewrite list_fmap_id. }
    eauto.
  - intros file. rewrite Hrun, M_bind_unfold.
    destruct (prepareAndExecuteTranslations _ _ _ requests _ _ log)
      as [[translations|e] log1] eqn:Hprep; [|done].
    intros [= <-].
    destruct (prepareAndExecuteTranslations_answers provider MAX_BATCH_SIZE
                MAX_CONCURRENCY_REQ
                  requests "any language" lang log translations log1 Hprep)
      as (answered & Hanswers & ->).
    exists answered. split_and!; [done..|].
    intros h t _ Hentry Hne. unfold translateCell. rewrite Hentry.
    by destruct t.
Qed.

Lemma C10_header_translated_witness :
  ∃ header rest ext,
    JS.split "," <$> JS.split "010" "name,age
Ada,36" = header :: rest ∧
    (translateCsvToLanguage 10 (EnvConfig.JSNumber 100)
      Demo.echoProvider Demo.plain Demo.plain
       "name,age
Ada,36" "people.csv" "French" []).2 = [] ++ ext ∧
    (∀ h, h ∈ header → nonBlank (Some h) = true →
          ∃ call, call ∈ ext ∧ h ∈ call_texts call).
Proof.
  destruct (C10_header_translated 10 (EnvConfig.JSNumber 100)
    Demo.echoProvider Demo.plain Demo.plain
              "name,age
Ada,36" "people.csv" "French" [])
    as (header & rest & ext & Hsplit & _ & Hlog & Hsent & _).
  - apply Nat.lt_0_succ.
  - reflexivity.
  - vm_compute. reflexivity.
  - exists header, rest, ext. split; [exact Hsplit|]. split; [exact Hlog|].
    intros h Hh Hnb. exact (proj2 (Hsent h Hh Hnb)).
Defined.

(** * Further properties of the code *)

(** ** Strings as lists of code units *)

Lemma chars_app s1 s2 : chars (s1 +:+ s2) = chars s1 ++ chars s2.
Proof. induction s1 as [|c s1 IH]; simpl; [done|]. by rewrite <- IH. Qed.

Lemma chars_inj s1 s2 : chars s1 = chars s2 → s1 = s2.
Proof.
  revert s2. induction s1 as [|c s1 IH]; intros [|d s2]; simpl; try done.
  intros [= -> ?]. f_equal. auto.
Qed.

Lemma chars_rev_app s1 s2 :
  chars (String.rev_app s1 s2) = reverse (chars s1) ++ chars s2.
Proof.
  revert s2. induction s1 as [|c s1 IH]; intros s2; simpl; [done|].
  rewrite IH, reverse_cons, <- app_assoc. done.
Qed.

Lemma chars_rev s : chars (String.rev s) = reverse (chars s).
Proof. unfold String.rev. by rewrite chars_rev_app, app_nil_r. Qed.

Lemma chars_nil s : chars s = [] ↔ s = "".
Proof. destruct s; simpl; split; done. Qed.

Lemma string_app_assoc s1 s2 s3 : (s1 +:+ s2) +:+ s3 = s1 +:+ s2 +:+ s3.
Proof. apply chars_inj. by rewrite !chars_app, app_assoc. Qed.

Lemma string_app_nil_r s : s +:+ "" = s.
Proof. apply chars_inj. by rewrite chars_app, app_nil_r. Qed.

(** ** [trim] *)

Lemma trimStart_empty s : JS.trimStart s = "" ↔ allWhite s.
Proof.
  unfold allWhite. induction s as [|c s IH]; simpl.
  - split; [intros _; apply Forall_nil_2|done].
  - rewrite Forall_cons. destruct (JS.isWhiteSpace c); [|split; [done|by intros []]].
    rewrite IH. tauto.
Qed.

Lemma trimStart_head s c t :
  JS.trimStart s = String c t → JS.isWhiteSpace c = false.
Proof.
  induction s as [|d s IH]; simpl; [done|].
  destruct (JS.isWhiteSpace d) eqn:Hd; [done|]. by intros [= <- _].
Qed.

Lemma allWhite_rev s : allWhite (String.rev s) ↔ allWhite s.
Proof. unfold allWhite. rewrite chars_rev. apply Forall_reverse. Qed.

Lemma rev_empty s : String.rev s = "" ↔ s = "".
Proof.
  rewrite <- !chars_nil, chars_rev. split; [|by intros ->].
  intros H. apply (f_equal reverse) in H. by rewrite reverse_involutive in H.
Qed.

Lemma trim_empty s : JS.trim s = "" ↔ allWhite s.
Proof.
  unfold JS.trim, JS.trimEnd. rewrite rev_empty, trimStart_empty, allWhite_rev.
  split.
  - intros Hw. apply trimStart_empty.
    destruct (JS.trimStart s) as [|c t] eqn:Hs; [done|].
    apply trimStart_head in Hs. unfold allWhite in Hw. simpl in Hw.
    apply Forall_cons in Hw as [Hc _]. congruence.
  - intros ->%trimStart_empty. apply Forall_nil_2.
Qed.

(** X2. A cell counts as blank exactly when it is missing or consists of
    white space only (TAB, LF, VT, FF, CR, space, no-break space; the empty
    string included); [nonBlank], the test on source cells and on the cells
    of whole-table mode, is the exact opposite. *)
Theorem X2_blank_cells cell :
  (isBlank cell = true ↔ cell = None ∨ ∃ s, cell = Some s ∧ allWhite s) ∧
  (nonBlank cell = true ↔ isBlank cell = false).
Proof.
  split.
  - destruct cell as [s|]; simpl; [|split; auto].
    rewrite orb_true_iff, bool_decide_eq_true, trim_empty. unfold JS.truthy.
    rewrite negb_involutive, bool_decide_eq_true. split.
    + intros [->|Hw]; right; eexists; (split; [done|]); [apply Forall_nil_2|done].
    + intros [?|(s' & [= <-] & Hw)]; [done|]. by right.
  - rewrite nonBlank_isBlank. by destruct (isBlank cell).
Qed.

(** ** [split] and [join] *)

Lemma split_no_sep sep s : sep ∉ chars s → JS.split sep s = [s].
Proof.
  induction s as [|c s IH]; simpl; [done|].
  rewrite not_elem_of_cons. intros [Hne Hs].
  rewrite decide_False by done. by rewrite IH.
Qed.

Lemma split_app_sep sep s t :
  sep ∉ chars s →
  JS.split sep (s +:+ String sep t) = s :: JS.split sep t.
Proof.
  induction s as [|c s IH]; simpl.
  - intros _. by rewrite decide_True.
  - rewrite not_elem_of_cons. intros [Hne Hs].
    rewrite decide_False by done.
    change (String.append s (String sep t)) with (s +:+ String sep t).
    by rewrite IH.
Qed.

Lemma split_join sep parts :
  parts ≠ [] → Forall (λ p, sep ∉ chars p) parts →
  JS.split sep (JS.join (String sep "") parts) = parts.
Proof.
  induction parts as [|p parts IH]; [done|]. intros _ [Hp Hparts]%Forall_cons.
  destruct parts as [|q parts]; simpl.
  - by apply split_no_sep.
  - change (String.append (String sep "") ?x) with (String sep x).
    rewrite split_app_sep by done. f_equal. by apply IH.
Qed.

Lemma chars_join sep parts c :
  c ∈ chars (JS.join (String sep "") parts) →
  c = sep ∨ ∃ p, p ∈ parts ∧ c ∈ chars p.
Proof.
  induction parts as [|p parts IH]; simpl; [by intros ?%elem_of_nil|].
  destruct parts as [|q parts].
  - intros ?. right. exists p. split; [left|done].
  - rewrite chars_app. simpl. rewrite elem_of_app, elem_of_cons.
    intros [?|[?|Hrest]]; [right; exists p; split; [left|done]|by left|].
    destruct (IH Hrest) as [?|(p' & ? & ?)]; [by left|].
    right. exists p'. split; [by right|done].
Qed.

(** X1. Writing a table of cells with [join] and parsing it again with
    [split] gives the table back, provided the table and each of its rows
    have at least one cell and no cell contains a comma or a line feed.
    Nothing escapes the separators: a cell that holds a comma comes back
    as two cells. *)
Theorem X1_write_parse_round_trip :
  (∀ rows : list (list string),
     rows ≠ [] → Forall (λ row, row ≠ []) rows →
     Forall (Forall (λ cell, (COMMA ∉ chars cell) ∧ (LF ∉ chars cell))) rows →
     parseCells (writeCells rows) = rows) ∧
  (∀ a b : string,
     COMMA ∉ chars a → LF ∉ chars a →
     COMMA ∉ chars b → LF ∉ chars b →
     parseCells (writeCells [[a +:+ "," +:+ b]]) = [[a; b]]).
Proof.
  unfold COMMA, LF. split.
  - intros rows Hne Hrows Hcells. unfold parseCells, writeCells.
    rewrite split_join.
    + rewrite <- list_fmap_compose. clear Hne.
      induction rows as [|row rows IH]; [done|].
      apply Forall_cons in Hrows as [Hrow Hrows].
      apply Forall_cons in Hcells as [Hcell Hcells].
      rewrite fmap_cons, IH by done. f_equal. simpl.
      apply split_join; [done|]. eapply Forall_impl; [exact Hcell|].
      by intros cell [? _].
    + by intros ?%fmap_nil_inv.
    + apply Forall_fmap, Forall_forall. intros row Hrow. simpl. intros Hin.
      apply chars_join in Hin as [?|(cell & Hcell & Hin)]; [done|].
      rewrite Forall_forall in Hcells. specialize (Hcells row Hrow).
      rewrite Forall_forall in Hcells. by destruct (Hcells cell Hcell).
  - intros a b Ha Ha' Hb Hb'. unfold parseCells, writeCells. simpl.
    rewrite split_no_sep.
    + simpl. change (String.append "," b) with (String "," b).
      rewrite split_app_sep by done. by rewrite split_no_sep.
    + rewrite chars_app. simpl.
      rewrite elem_of_app, elem_of_cons. intros [?|[?|?]]; done.
Qed.

Lemma X1_write_parse_round_trip_witness :
  parseCells (writeCells [["chat"; "chien"]; ["oiseau"]])
  = [["chat"; "chien"]; ["oiseau"]].
Proof.
  apply (proj1 X1_write_parse_round_trip).
  - discriminate.
  - repeat constructor; discriminate.
  - repeat constructor; apply (bool_decide_unpack _); vm_compute; exact I.
Defined.

(** ** Letter case and white space *)

Lemma lowerChar_idem c : JS.lowerChar (JS.lowerChar c) = JS.lowerChar c.
Proof. destruct c as [[] [] [] [] [] [] [] []]; vm_compute; reflexivity. Qed.

Lemma isWhiteSpace_lowerChar c :
  JS.isWhiteSpace (JS.lowerChar c) = JS.isWhiteSpace c.
Proof. destruct c as [[] [] [] [] [] [] [] []]; vm_compute; reflexivity. Qed.

Lemma lowerChar_hyphen c : JS.lowerChar c = "-"%char → c = "-"%char.
Proof. destruct c as [[] [] [] [] [] [] [] []]; vm_compute; congruence. Qed.

Lemma chars_toLowerCase s : chars (JS.toLowerCase s) = JS.lowerChar <$> chars s.
Proof. induction s as [|c s IH]; simpl; [done|]. by rewrite IH. Qed.

Lemma toLowerCase_idem s : JS.toLowerCase (JS.toLowerCase s) = JS.toLowerCase s.
Proof. induction s as [|c s IH]; simpl; [done|]. by rewrite lowerChar_idem, IH. Qed.

Lemma toLowerCase_app s1 s2 :
  JS.toLowerCase (s1 +:+ s2) = JS.toLowerCase s1 +:+ JS.toLowerCase s2.
Proof.
  apply chars_inj. by rewrite chars_app, !chars_toLowerCase, chars_app, fmap_app.
Qed.

Lemma allWhite_toLowerCase s : allWhite (JS.toLowerCase s) ↔ allWhite s.
Proof.
  unfold allWhite. rewrite chars_toLowerCase, Forall_fmap.
  apply Forall_proper; [|done]. intros c. simpl. by rewrite isWhiteSpace_lowerChar.
Qed.

Lemma allWhite_app s1 s2 : allWhite (s1 +:+ s2) ↔ allWhite s1 ∧ allWhite s2.
Proof. unfold allWhite. by rewrite chars_app, Forall_app. Qed.

Lemma rev_string_app s1 s2 :
  String.rev (s1 +:+ s2) = String.rev s2 +:+ String.rev s1.
Proof.
  apply chars_inj. by rewrite chars_rev, !chars_app, !chars_rev, reverse_app.
Qed.

Lemma trimStart_app_white w s : allWhite w → JS.trimStart (w +:+ s) = JS.trimStart s.
Proof.
  unfold allWhite. induction w as [|c w IH]; simpl; [done|].
  intros [Hc Hw]%Forall_cons. rewrite Hc. by apply IH.
Qed.

Lemma trimStart_app_nonwhite s w :
  ¬ allWhite s → JS.trimStart (s +:+ w) = JS.trimStart s +:+ w.
Proof.
  unfold allWhite. induction s as [|c s IH]; simpl.
  - intros []. apply Forall_nil_2.
  - intros Hnot. destruct (JS.isWhiteSpace c) eqn:Hc; [|done].
    apply IH. intros Hs. apply Hnot. by apply Forall_cons.
Qed.

Lemma trimEnd_app_white s w : allWhite w → JS.trimEnd (s +:+ w) = JS.trimEnd s.
Proof.
  intros Hw. unfold JS.trimEnd. rewrite rev_string_app.
  rewrite trimStart_app_white; [done|]. by apply allWhite_rev.
Qed.

Lemma trim_pad w1 s w2 :
  allWhite w1 → allWhite w2 → JS.trim (w1 +:+ s +:+ w2) = JS.trim s.
Proof.
  intros H1 H2. destruct (decide (JS.trim s = "")) as [Hs|Hs].
  - rewrite Hs. apply trim_empty. apply trim_empty in Hs.
    by rewrite !allWhite_app.
  - rewrite trim_empty in Hs. unfold JS.trim.
    rewrite trimStart_app_white by done.
    rewrite trimStart_app_nonwhite by done. by apply trimEnd_app_white.
Qed.

(** X3. Language validation ignores letter case and surrounding white
    space: a name and its lower-case form are accepted or rejected
    together, and so are a name and the name padded with white space on
    either side; every entry of the list of supported languages is
    accepted as it is written. *)
Theorem X3_validation_insensitive :
  (∀ lang, isSupported (JS.toLowerCase lang) = isSupported lang) ∧
  (∀ w1 w2 lang,
     allWhite w1 → allWhite w2 →
     isSupported (w1 +:+ lang +:+ w2) = isSupported lang) ∧
  (∀ lang, lang ∈ supportedLanguages → validateLanguageCode lang = Ok tt).
Proof.
  split_and!.
  - intros lang. unfold isSupported, normalizeLanguage.
    by rewrite toLowerCase_idem.
  - intros w1 w2 lang H1 H2. unfold isSupported, normalizeLanguage.
    rewrite !toLowerCase_app, trim_pad; [done|by apply allWhite_toLowerCase..].
  - intros lang Hin. apply validateLanguageCode_Ok. unfold isSupported.
    apply bool_decide_eq_true. by apply list_elem_of_fmap_2.
Qed.

Lemma X3_validation_insensitive_witness :
  isSupported ("  " +:+ "French" +:+ " ") = isSupported "French".
Proof.
  apply (proj1 (proj2 X3_validation_insensitive)).
  - repeat constructor.
  - repeat constructor.
Defined.

(** ** Hyphens and the language-pair key *)

Lemma elem_of_trimStart c s :
  JS.isWhiteSpace c = false → c ∈ chars s → c ∈ chars (JS.trimStart s).
Proof.
  intros Hc. induction s as [|d s IH]; simpl; [done|].
  destruct (JS.isWhiteSpace d) eqn:Hd; [|done].
  intros [->|?]%elem_of_cons; [congruence|auto].
Qed.

Lemma elem_of_trim c s :
  JS.isWhiteSpace c = false → c ∈ chars s → c ∈ chars (JS.trim s).
Proof.
  intros Hc Hin. unfold JS.trim, JS.trimEnd.
  rewrite chars_rev, elem_of_reverse. apply elem_of_trimStart; [done|].
  rewrite chars_rev, elem_of_reverse. by apply elem_of_trimStart.
Qed.

Lemma normalized_hyphen_free :
  Forall (λ lang, "-"%char ∉ chars lang) (normalizeLanguage <$> supportedLanguages).
Proof. refine (bool_decide_unpack _ _). vm_compute. exact I. Qed.

(** A supported language name has no hyphen. *)
Lemma isSupported_hyphen_free lang :
  isSupported lang = true → "-"%char ∉ chars lang.
Proof.
  unfold isSupported. rewrite bool_decide_eq_true. intros Hin Hhyphen.
  pose proof normalized_hyphen_free as Hfree. rewrite Forall_forall in Hfree.
  apply (Hfree _ Hin). unfold normalizeLanguage.
  apply elem_of_trim; [done|]. rewrite chars_toLowerCase.
  by apply (list_elem_of_fmap_2 JS.lowerChar) in Hhyphen.
Qed.

Lemma splitLangPair_key s t :
  "-"%char ∉ chars s → "-"%char ∉ chars t →
  splitLangPair (s +:+ "-" +:+ t) = (s, t).
Proof.
  intros Hs Ht. unfold splitLangPair.
  change ("-" +:+ t) with (String "-" t).
  by rewrite split_app_sep, split_no_sep.
Qed.

(** X4. The language-pair key round-trips on validated names: for a
    request whose two languages pass validation, splitting its key
    [source-target] at the hyphen gives back its source and its target,
    and two such requests with the same key have the same source and the
    same target. *)
Theorem X4_lang_pair_key_round_trip r1 :
  requestSupported r1 →
  splitLangPair (langPairKey r1) = (sourceLang r1, targetLang r1) ∧
  (∀ r2, requestSupported r2 → langPairKey r1 = langPairKey r2 →
         sourceLang r1 = sourceLang r2 ∧ targetLang r1 = targetLang r2).
Proof.
  assert (∀ r, requestSupported r →
            splitLangPair (langPairKey r) = (sourceLang r, targetLang r)) as Hsplit.
  { intros r [Hs Ht]. apply splitLangPair_key; by apply isSupported_hyphen_free. }
  intros H1. split; [by apply Hsplit|]. intros r2 H2 Hkey.
  apply Hsplit in H1, H2. rewrite Hkey, H2 in H1. by simplify_eq.
Qed.

Lemma X4_lang_pair_key_round_trip_witness :
  splitLangPair "Scottish Gaelic-French" = ("Scottish Gaelic", "French").
Proof.
  apply (proj1 (X4_lang_pair_key_round_trip
                  {| rowIndex := 0; sourceLang := "Scottish Gaelic";
                     targetLang := "French"; text := "madainn mhath" |}
                  (conj eq_refl eq_refl))).
Defined.

(** ** The groups of [requestsByLangPair] *)

Lemma groupPush_keys groups key request :
  (groupPush groups key request).*1 = setAdd groups.*1 key.
Proof.
  unfold setAdd. induction groups as [|[k rs] groups IH].
  - simpl. destruct (decide (key ∈ [])) as [?%elem_of_nil|]; done.
  - cbn [groupPush]. destruct (decide (k = key)) as [->|Hne].
    + rewrite !fmap_cons. cbn [fst].
      destruct (decide (key ∈ key :: groups.*1)) as [|Hnot]; [done|].
      destruct Hnot. left.
    + rewrite !fmap_cons, IH. cbn [fst].
      destruct (decide (key ∈ groups.*1)) as [Hin|Hnotin];
        destruct (decide (key ∈ k :: groups.*1)) as [Hin'|Hnotin'].
      * done.
      * destruct Hnotin'. by right.
      * apply elem_of_cons in Hin' as [?|?]; [congruence|done].
      * done.
Qed.

Lemma groupPush_elem groups key request k rs :
  NoDup groups.*1 →
  (k, rs) ∈ groupPush groups key request →
  (k ≠ key ∧ (k, rs) ∈ groups) ∨
  (k = key ∧ ((∃ rs0, (key, rs0) ∈ groups ∧ rs = rs0 ++ [request]) ∨
              ((key ∉ groups.*1) ∧ rs = [request]))).
Proof.
  induction groups as [|[k0 rs0] groups IH]; simpl.
  - intros _ [= -> ->]%list_elem_of_singleton. right. split; [done|].
    right. split; [apply not_elem_of_nil|done].
  - intros [Hfresh Hnd]%NoDup_cons.
    destruct (decide (k0 = key)) as [->|Hne].
    + intros [[= -> ->]|Hin]%elem_of_cons.
      * right. split; [done|]. left. exists rs0. split; [left|done].
      * left. split; [|by right]. intros ->. apply Hfresh.
        by apply (list_elem_of_fmap_2 fst) in Hin.
    + intros [[= -> ->]|Hin]%elem_of_cons.
      * left. split; [done|left].
      * destruct (IH Hnd Hin) as [[? ?]|[-> [(rs1 & ? & ->)|[Hnew ->]]]].
        -- left. split; [done|by right].
        -- right. split; [done|]. left. exists rs1. split; [by right|done].
        -- right. split; [done|]. right. split; [|done].
           intros [?|?]%elem_of_cons; [congruence|done].
Qed.

Lemma groupByLangPair_keys requests :
  (groupByLangPair requests).*1 = foldl setAdd [] (langPairKey <$> requests).
Proof.
  unfold groupByLangPair.
  induction requests as [|r requests IH] using rev_ind; [done|].
  rewrite fmap_app. change (langPairKey <$> [r]) with [langPairKey r].
  by rewrite !foldl_snoc, groupPush_keys, IH.
Qed.

Lemma groupByLangPair_filter requests k rs :
  (k, rs) ∈ groupByLangPair requests →
  rs = filter (λ r, langPairKey r = k) requests.
Proof.
  revert k rs. induction requests as [|r requests IH] using rev_ind;
    intros k rs.
  - by intros ?%elem_of_nil.
  - unfold groupByLangPair. rewrite foldl_snoc.
    fold (groupByLangPair requests). intros Hin.
    apply groupPush_elem in Hin;
      [|rewrite groupByLangPair_keys; apply foldl_setAdd_NoDup, NoDup_nil_2].
    rewrite filter_app, filter_cons, filter_nil.
    destruct Hin as [[Hne Hin]|[-> [(rs0 & Hin & ->)|[Hnew ->]]]].
    + rewrite decide_False by done. rewrite app_nil_r. by apply IH.
    + rewrite decide_True by done. f_equal. by apply IH.
    + rewrite decide_True by done.
      replace (filter (λ r0, langPairKey r0 = langPairKey r) requests) with
        ([] : list Request); [done|].
      symmetry. apply elem_of_nil_inv. intros r0 [Hkey Hr0]%list_elem_of_filter.
      apply Hnew. rewrite groupByLangPair_keys, foldl_setAdd_elem. right.
      rewrite <- Hkey. by apply list_elem_of_fmap_2.
Qed.

(** X5. Grouping by language pair: the keys of the groups are the keys of
    the requests, each once, in order of first occurrence; the group of a
    key holds exactly the requests with that key, in the order in which
    they were built, and is never empty; together the groups hold every
    request exactly once. *)
Theorem X5_groups_partition_requests (requests : list Request) :
  (groupByLangPair requests).*1 = distinctInOrder (langPairKey <$> requests) ∧
  NoDup (groupByLangPair requests).*1 ∧
  (∀ k rs, (k, rs) ∈ groupByLangPair requests →
           rs ≠ [] ∧ rs = filter (λ r, langPairKey r = k) requests) ∧
  mjoin (groupByLangPair requests).*2 ≡ₚ requests.
Proof.
  split_and!.
  - rewrite groupByLangPair_keys. apply (foldl_setAdd []).
  - rewrite groupByLangPair_keys. apply foldl_setAdd_NoDup, NoDup_nil_2.
  - intros k rs Hin. pose proof (groupByLangPair_filter _ _ _ Hin) as Hrs.
    split; [|done]. intros ->.
    apply (list_elem_of_fmap_2 fst) in Hin. simpl in Hin.
    rewrite groupByLangPair_keys, foldl_setAdd_elem in Hin.
    destruct Hin as [?%elem_of_nil|(r & -> & Hr)%list_elem_of_fmap]; [done|].
    assert (r ∈ filter (λ r0, langPairKey r0 = langPairKey r) requests) as Hf
      by by apply list_elem_of_filter.
    rewrite <- Hrs in Hf. by apply elem_of_nil in Hf.
  - apply groupByLangPair_requests.
Qed.

(** ** What fill-missing-cells mode changes in the table *)

Lemma written_truthy translations r t : written translations r = Some t → t ≠ "".
Proof.
  unfold written. destruct (findTranslation _ _) as [t'|]; [|done].
  destruct (JS.truthy t') eqn:Ht; [|done]. intros [= <-].
  unfold JS.truthy in Ht. by apply negb_true_iff, bool_decide_eq_false in Ht.
Qed.

Lemma setCell_shape rows i col v rows' row :
  setCell rows i col v = Ok rows' →
  rows !! i = Some row → col ∈ columnsOf row →
  columnsOf <$> rows' = columnsOf <$> rows.
Proof.
  unfold setCell. intros Hset Hrow Hcol. rewrite Hrow in Hset.
  injection Hset as <-. rewrite list_fmap_insert, columnsOf_rowSet by done.
  apply list_insert_id. by rewrite list_lookup_fmap, Hrow.
Qed.

Lemma targetsColumns_shape requests rows rows' :
  columnsOf <$> rows' = columnsOf <$> rows →
  targetsColumns requests rows → targetsColumns requests rows'.
Proof.
  intros Hshape Htargets r Hr. destruct (Htargets r Hr) as (row & Hrow & Hcol).
  assert ((columnsOf <$> rows') !! rowIndex r = Some (columnsOf row)) as Hlook
    by by rewrite Hshape, list_lookup_fmap, Hrow.
  rewrite list_lookup_fmap in Hlook.
  destruct (rows' !! rowIndex r) as [row'|]; [|done].
  injection Hlook as Hlook. exists row'. by rewrite Hlook.
Qed.

Lemma targetsColumns_weaken requests requests' rows :
  (∀ r, r ∈ requests' → r ∈ requests) →
  targetsColumns requests rows → targetsColumns requests' rows.
Proof. intros Hsub Htargets r Hr. by apply Htargets, Hsub. Qed.

Lemma applyTranslations_shape rows requests translations rows' :
  applyTranslations rows requests translations = Ok rows' →
  targetsColumns requests rows →
  columnsOf <$> rows' = columnsOf <$> rows.
Proof.
  revert rows. induction requests as [|r requests IH]; intros rows.
  - by intros [= <-].
  - rewrite applyTranslations_cons. intros Happly Htargets.
    assert (targetsColumns requests rows) as Hrest.
    { eapply targetsColumns_weaken; [|done]. intros ??. by right. }
    destruct (written translations r); [|by auto].
    apply result_bind_inv in Happly as (rows1 & H1 & H2).
    destruct (Htargets r) as (row & Hrow & Hcol); [left|].
    pose proof (setCell_shape _ _ _ _ _ _ H1 Hrow Hcol) as Hshape.
    rewrite <- Hshape. apply IH; [done|]. by eapply targetsColumns_shape.
Qed.

Lemma onlyFills_refl requests rows : onlyFills requests rows rows.
Proof. intros i col. by left. Qed.

Lemma onlyFills_trans requests1 requests2 requests rows rows1 rows2 :
  (∀ r, r ∈ requests1 → r ∈ requests) →
  (∀ r, r ∈ requests2 → r ∈ requests) →
  onlyFills requests1 rows rows1 → onlyFills requests2 rows1 rows2 →
  onlyFills requests rows rows2.
Proof.
  intros Hsub1 Hsub2 H1 H2 i col.
  destruct (H2 i col) as [Heq|[(r & Hr & Ht) Hv]].
  - rewrite Heq. destruct (H1 i col) as [?|[(r & Hr & Ht) Hv]]; [by left|].
    right. split; [|done]. exists r. auto.
  - right. split; [|done]. exists r. auto.
Qed.

Lemma applyTranslations_onlyFills rows requests translations rows' :
  applyTranslations rows requests translations = Ok rows' →
  onlyFills requests rows rows'.
Proof.
  revert rows. induction requests as [|r requests IH]; intros rows.
  - intros [= <-]. apply onlyFills_refl.
  - rewrite applyTranslations_cons.
    destruct (written translations r) as [t|] eqn:Hw.
    + intros (rows1 & H1 & H2)%result_bind_inv.
      apply (onlyFills_trans [r] requests _ rows rows1 rows').
      * intros r' ->%list_elem_of_singleton. left.
      * intros r' ?. by right.
      * apply setCell_Ok in H1 as (_ & Hset & Hframe). intros i col.
        destruct (decide ((i, col) = targetOf r)) as [Heq|Hne].
        -- right. split; [exists r; split; [left|done]|].
           unfold targetOf in Heq. injection Heq as -> ->.
           exists t. split; [done|]. by eapply written_truthy.
        -- left. by apply Hframe.
      * by apply IH.
    + intros Happly. apply (onlyFills_trans [] requests _ rows rows rows').
      * by intros r' ?%elem_of_nil.
      * intros r' ?. by right.
      * apply onlyFills_refl.
      * by apply IH.
Qed.

Section FillChanges.
Variable MAX_BATCH_SIZE : nat.
Variable MAX_CONCURRENCY_REQ : EnvConfig.JSValue.
Variable provider : list ProviderCall → ProviderCall → result (list Translation).

Lemma processGroups_changes groups rows log rows' log' :
  processGroups MAX_BATCH_SIZE MAX_CONCURRENCY_REQ
    provider groups rows log = (Ok rows', log') →
  targetsColumns (allRequests groups) rows →
  columnsOf <$> rows' = columnsOf <$> rows ∧
  onlyFills (allRequests groups) rows rows'.
Proof.
  revert rows log. induction groups as [|[langPair requests] groups IH];
    intros rows log; cbn [processGroups].
  - intros [-> _]%M_ret_inv _. split; [done|apply onlyFills_refl].
  - destruct (splitLangPair langPair) as [src tgt]. intros Hrun Htargets.
    apply M_bind_Ok_inv in Hrun as (translations & log1 & _ & Hrun).
    apply M_bind_Ok_inv in Hrun as (rows1 & log2 & Happly & Hrun).
    apply liftR_Ok_inv in Happly as [Happly ->].
    assert (∀ r, r ∈ requests → r ∈ allRequests ((langPair, requests) :: groups))
      as Hsub1 by (intros r ?; apply elem_of_app; by left).
    assert (∀ r, r ∈ allRequests groups →
                 r ∈ allRequests ((langPair, requests) :: groups))
      as Hsub2 by (intros r ?; apply elem_of_app; by right).
    pose proof (applyTranslations_shape _ _ _ _ Happly
                  (targetsColumns_weaken _ _ _ Hsub1 Htargets)) as Hshape1.
    destruct (IH _ _ Hrun) as [Hshape2 Hfills2].
    { eapply targetsColumns_shape; [done|].
      by eapply targetsColumns_weaken. }
    split; [by rewrite Hshape2|].
    eapply onlyFills_trans; [exact Hsub1|exact Hsub2| |exact Hfills2].
    by eapply applyTranslations_onlyFills.
Qed.

Lemma requestsOf_targetsColumns rows : targetsColumns (requestsOf rows) rows.
Proof.
  intros r (row & col & Hrow & Hcol & Hc)%elem_of_requestsOf.
  apply cellRequest_Some in Hc as (_ & _ & _ & Hr).
  exists row. split; [done|]. by rewrite Hr.
Qed.

Lemma requestsOf_target_blank rows r :
  r ∈ requestsOf rows →
  isBlank (cellAt rows (rowIndex r) (targetLang r)) = true.
Proof.
  intros (row & col & Hrow & Hcol & Hc)%elem_of_requestsOf.
  apply cellRequest_Some in Hc as (Hblank & _ & _ & Hr).
  rewrite (cellAt_lookup _ _ _ _ Hrow). by rewrite Hr.
Qed.

Lemma fillRows_changes rows fileName log rows' log' :
  fillRows MAX_BATCH_SIZE MAX_CONCURRENCY_REQ
    provider rows fileName log = (Ok rows', log') →
  columnsOf <$> rows' = columnsOf <$> rows ∧
  onlyFills (requestsOf rows) rows rows'.
Proof.
  unfold fillRows. destruct rows as [|row rows]; [done|].
  intros Hrun.
  apply M_bind_Ok_inv in Hrun as (requests & log1 & Hbuild & Hrun).
  apply liftR_Ok_inv in Hbuild as [Hbuild ->].
  apply buildRequests_Ok in Hbuild as [-> _].
  destruct (requestsOf (row :: rows)) as [|r requests] eqn:Hreqs.
  - apply M_ret_inv in Hrun as [-> _]. split; [done|apply onlyFills_refl].
  - rewrite <- Hreqs in *.
    assert (∀ r', r' ∈ allRequests (groupByLangPair (requestsOf (row :: rows)))
                  ↔ r' ∈ requestsOf (row :: rows)) as Hsame.
    { intros r'. by rewrite groupByLangPair_requests. }
    destruct (processGroups_changes _ _ _ _ _ Hrun) as [Hshape Hfills].
    { eapply targetsColumns_weaken; [|apply requestsOf_targetsColumns].
      intros r' ?. by apply Hsame. }
    split; [done|]. intros i col.
    destruct (Hfills i col) as [?|[(r' & Hr' & Ht) Hv]]; [by left|].
    right. split; [|done]. exists r'. split; [by apply Hsame|done].
Qed.
End FillChanges.

(** X6. What a completed run of fill-missing-cells mode changes: the
    table that is written has the rows of the input, each with the same
    columns in the same order (so the header is that of the input), and a
    cell that differs from the input was blank in the input and now holds
    a non-empty text. A cell that was not blank is never overwritten. *)
Theorem X6_fill_only_fills_blanks MAX_BATCH_SIZE MAX_CONCURRENCY_REQ
    provider rows fileName log
    rows' log' :
  fillRows MAX_BATCH_SIZE MAX_CONCURRENCY_REQ
    provider rows fileName log = (Ok rows', log') →
  columnsOf <$> rows' = columnsOf <$> rows ∧
  (∀ i col,
     cellAt rows' i col ≠ cellAt rows i col →
     isBlank (cellAt rows i col) = true ∧
     ∃ v, cellAt rows' i col = Some v ∧ v ≠ "") ∧
  (∀ i col v,
     cellAt rows i col = Some v → nonBlank (Some v) = true →
     cellAt rows' i col = Some v).
Proof.
  intros Hrun.
  destruct (fillRows_changes _ _ _ _ _ _ _ _ Hrun) as [Hshape Hfills].
  assert (∀ i col,
            cellAt rows' i col ≠ cellAt rows i col →
            isBlank (cellAt rows i col) = true ∧
            ∃ v, cellAt rows' i col = Some v ∧ v ≠ "") as Hchanged.
  { intros i col Hne.
    destruct (Hfills i col) as [?|[(r & Hr & Ht) Hv]]; [done|].
    split; [|done]. unfold targetOf in Ht. injection Ht as <- <-.
    by apply requestsOf_target_blank. }
  split_and!; [done..|].
  intros i col v Hcell Hnb.
  destruct (decide (cellAt rows' i col = cellAt rows i col)) as [->|Hne]; [done|].
  destruct (Hchanged i col Hne) as [Hblank _].
  rewrite Hcell, nonBlank_isBlank in *. by rewrite Hblank in Hnb.
Qed.

Lemma X6_fill_only_fills_blanks_witness :
  columnsOf <$> [[("English", "hello"); ("French", "French:hello");
                  ("Spanish", "Spanish:hello")]]
  = columnsOf <$> [[("English", "hello"); ("French", ""); ("Spanish", "")]].
Proof.
  refine (proj1 (X6_fill_only_fills_blanks 10 (EnvConfig.JSNumber 100)
    Demo.echoProvider
    [[("English", "hello"); ("French", ""); ("Spanish", "")]] "a.csv" []
    [[("English", "hello"); ("French", "French:hello");
      ("Spanish", "Spanish:hello")]] _ _)).
  vm_compute. reflexivity.
Defined.

(** ** Runs against a Provider that honours its contract *)

Section Ideal.
Variable MAX_BATCH_SIZE : nat.
Variable MAX_CONCURRENCY_REQ : EnvConfig.JSValue.
Hypothesis MAX_BATCH_SIZE_pos : 0 < MAX_BATCH_SIZE.
Hypothesis limit_accepted : pLimit MAX_CONCURRENCY_REQ = Ok tt.
Variable tr : string → string → string → string.

Lemma idealAnswer_app s t texts1 texts2 :
  idealAnswer tr s t (texts1 ++ texts2)
  = idealAnswer tr s t texts1 ++ idealAnswer tr s t texts2.
Proof. unfold idealAnswer. by rewrite fmap_app. Qed.

Lemma promiseAll_ideal `{HasText A} s t (bs : list (list A)) log :
  promiseAll (batchPromise (idealProvider tr) s t <$> bs) log
  = (Ok ((λ b, (idealAnswer tr s t (textOf <$> b), b)) <$> bs),
     log ++ (callOf s t <$> bs)).
Proof.
  revert log. induction bs as [|b bs IH]; intros log.
  - simpl. by rewrite app_nil_r.
  - rewrite !fmap_cons, promiseAll_cons, batchPromise_run. cbn [fst snd].
    rewrite IH. cbn [fst snd idealProvider callOf call_texts
                       call_sourceLang call_targetLang].
    by rewrite <- app_assoc.
Qed.

Lemma idealAnswer_batches `{HasText A} s t (bs : list (list A)) :
  mjoin (fst <$> ((λ b, (idealAnswer tr s t (textOf <$> b), b)) <$> bs))
  = idealAnswer tr s t (textOf <$> mjoin bs).
Proof.
  induction bs as [|b bs IH]; [done|].
  rewrite !fmap_cons. cbn [mjoin list_join fst].
  rewrite fmap_app, idealAnswer_app. f_equal. apply IH.
Qed.

Lemma prepareAndExecuteTranslations_ideal `{HasText A} (requests : list A)
    s t log :
  prepareAndExecuteTranslations MAX_BATCH_SIZE MAX_CONCURRENCY_REQ
    (idealProvider tr) requests
    s t log
  = (Ok (idealAnswer tr s t (textOf <$> requests)),
     log ++ (callOf s t <$> batches MAX_BATCH_SIZE requests)).
Proof.
  rewrite prepareAndExecuteTranslations_limit, limit_accepted.
  rewrite M_bind_unfold, promiseAll_ideal, M_ret_unfold, idealAnswer_batches.
  destruct (batches_partition MAX_BATCH_SIZE MAX_BATCH_SIZE_pos requests)
    as (Hcat & _).
  by rewrite Hcat.
Qed.

Lemma findTranslation_ideal s t texts x :
  x ∈ texts → findTranslation (idealAnswer tr s t texts) x = Some (tr s t x).
Proof.
  unfold findTranslation, idealAnswer.
  induction texts as [|y texts IH]; [by intros ?%elem_of_nil|].
  rewrite fmap_cons. cbn [List.find original_text].
  destruct (decide (y = x)) as [->|Hne].
  - by rewrite bool_decide_true.
  - rewrite bool_decide_false by done.
    intros [?|?]%elem_of_cons; [congruence|auto].
Qed.

Lemma written_ideal s t (requests : list Request) r :
  r ∈ requests →
  written (idealAnswer tr s t (textOf <$> requests)) r
  = if JS.truthy (tr s t (text r)) then Some (tr s t (text r)) else None.
Proof.
  intros Hr. unfold written. rewrite findTranslation_ideal; [done|].
  by apply (list_elem_of_fmap_2 text).
Qed.

Lemma processGroups_ideal groups rows log :
  (∀ r, r ∈ allRequests groups → rowIndex r < length rows) →
  NoDup (targetOf <$> allRequests groups) →
  (∀ key rs r, (key, rs) ∈ groups → r ∈ rs →
               splitLangPair key = (sourceLang r, targetLang r)) →
  ∃ rows' log',
    processGroups MAX_BATCH_SIZE MAX_CONCURRENCY_REQ
      (idealProvider tr) groups rows log
      = (Ok rows', log') ∧
    ∀ r, r ∈ allRequests groups →
         cellAt rows' (rowIndex r) (targetLang r) =
         if JS.truthy (tr (sourceLang r) (targetLang r) (text r))
         then Some (tr (sourceLang r) (targetLang r) (text r))
         else cellAt rows (rowIndex r) (targetLang r).
Proof.
  revert rows log. induction groups as [|[key rs] groups IH];
    intros rows log Hrange Hnodup Hkeys.
  - exists rows, log. split; [done|]. by intros r ?%elem_of_nil.
  - cbn [processGroups]. destruct (splitLangPair key) as [src tgt] eqn:Hsplit.
    rewrite M_bind_unfold, prepareAndExecuteTranslations_ideal.
    unfold allRequests in Hrange, Hnodup. cbn [fmap list_fmap snd mjoin list_join]
      in Hrange, Hnodup.
    rewrite fmap_app in Hnodup. apply NoDup_app in Hnodup as (Hnd1 & Hdisj & Hnd2).
    destruct (applyTranslations_total rows rs
                (idealAnswer tr src tgt (textOf <$> rs))) as [rows1 Happly].
    { intros r Hr. apply Hrange, elem_of_app. by left. }
    rewrite M_bind_unfold. unfold liftR at 1. rewrite Happly.
    pose proof (applyTranslations_length _ _ _ _ Happly) as Hlen.
    destruct (IH rows1 (log ++ (callOf src tgt <$> batches MAX_BATCH_SIZE rs)))
      as (rows' & log' & Hrun & Hcells).
    { intros r Hr. rewrite Hlen. apply Hrange, elem_of_app. by right. }
    { done. }
    { intros k rs' r Hin Hr. apply (Hkeys k rs' r); [by right|done]. }
    exists rows', log'. split; [done|].
    intros r [Hr|Hr]%elem_of_app.
    + assert (cellAt rows' (rowIndex r) (targetLang r)
              = cellAt rows1 (rowIndex r) (targetLang r)) as ->.
      { eapply processGroups_frame; [done|]. intros r' Hr' Heq.
        apply (Hdisj (targetOf r)); [by apply list_elem_of_fmap_2|].
        unfold targetOf at 1. rewrite <- Heq. by apply list_elem_of_fmap_2. }
      rewrite (applyTranslations_target _ _ _ _ _ Happly Hnd1 Hr).
      rewrite written_ideal by done.
      pose proof (Hkeys key rs r (list_elem_of_here _ _) Hr) as Hk.
      rewrite Hsplit in Hk. injection Hk as -> ->.
      by destruct (JS.truthy _).
    + rewrite (Hcells r Hr). destruct (JS.truthy _); [done|].
      eapply applyTranslations_frame; [done|]. intros r' Hr' Heq.
      apply (Hdisj (targetOf r')); [by apply list_elem_of_fmap_2|].
      rewrite Heq. change (rowIndex r, targetLang r) with (targetOf r).
      by apply list_elem_of_fmap_2.
Qed.
End Ideal.

Lemma requestSupported_split r :
  requestSupported r →
  splitLangPair (langPairKey r) = (sourceLang r, targetLang r).
Proof. intros [Hs Ht]. apply splitLangPair_key; by apply isSupported_hyphen_free. Qed.

Lemma cellRequest_in_requestsOf rows i row col r :
  rows !! i = Some row → col ∈ columnsOf row →
  cellRequest i row col = Some r → r ∈ requestsOf rows.
Proof.
  intros Hrow Hcol Hc. apply elem_of_requestsOf.
  pose proof (cellRequest_target _ _ _ _ Hc) as Ht.
  unfold targetOf in Ht. injection Ht as Hi _. rewrite Hi. eauto.
Qed.

Lemma cellRequest_None_untargeted rows i row col :
  rows !! i = Some row → cellRequest i row col = None →
  ∀ r, r ∈ requestsOf rows → targetOf r ≠ (i, col).
Proof.
  intros Hrow Hnone r (row' & col' & Hrow' & Hcol' & Hc)%elem_of_requestsOf Heq.
  pose proof (cellRequest_target _ _ _ _ Hc) as Ht.
  rewrite Heq in Ht. injection Ht as Hi ->. rewrite <- Hi in *. simplify_eq.
Qed.

(** X8. Fill-missing-cells mode against a Provider that honours its
    contract, on a non-empty table of row objects whose column names pass
    validation, with a positive batch size and a concurrency limit that
    p-limit accepts (a whole number from 1 up, such as the default 100; a
    limit read from the environment is a string, and a run with requests
    then throws at [pLimit]): the run completes; every
    cell that owes a request (a blank cell whose row has a source) holds
    the translation of the source text from the source column's language
    to its own column's language, unless that translation is the empty
    string, in which case it is as it was; and every other cell is as it
    was. *)
Theorem X8_fill_end_to_end MAX_BATCH_SIZE MAX_CONCURRENCY_REQ tr rows fileName
    log :
  0 < MAX_BATCH_SIZE → pLimit MAX_CONCURRENCY_REQ = Ok tt →
  columnsSupported rows → wellFormed rows → rows ≠ [] →
  ∃ rows' log',
    fillRows MAX_BATCH_SIZE MAX_CONCURRENCY_REQ (idealProvider tr) rows
      fileName log = (Ok rows', log') ∧
    (∀ i row col r,
       rows !! i = Some row → col ∈ columnsOf row →
       cellRequest i row col = Some r →
       cellAt rows' i col =
       if JS.truthy (tr (sourceLang r) col (text r))
       then Some (tr (sourceLang r) col (text r))
       else rowGet row col) ∧
    (∀ i row col,
       rows !! i = Some row → cellRequest i row col = None →
       cellAt rows' i col = rowGet row col).
Proof.
  intros Hpos Hlimit Hsup Hwf Hne.
  pose proof (buildRequests_supported rows Hsup) as Hbuild.
  assert (∃ rows' log',
            fillRows MAX_BATCH_SIZE MAX_CONCURRENCY_REQ (idealProvider tr) rows
              fileName log = (Ok rows', log') ∧
            ∀ r, r ∈ requestsOf rows →
                 cellAt rows' (rowIndex r) (targetLang r) =
                 if JS.truthy (tr (sourceLang r) (targetLang r) (text r))
                 then Some (tr (sourceLang r) (targetLang r) (text r))
                 else cellAt rows (rowIndex r) (targetLang r))
    as (rows' & log' & Hrun & Hcells).
  { destruct rows as [|row rows]; [done|]. unfold fillRows.
    rewrite M_bind_unfold. unfold liftR. rewrite Hbuild.
    destruct (requestsOf (row :: rows)) as [|r0 requests] eqn:Hreqs.
    { exists (row :: rows), log. split; [done|]. by intros r ?%elem_of_nil. }
    rewrite <- Hreqs in *.
    destruct (processGroups_ideal MAX_BATCH_SIZE MAX_CONCURRENCY_REQ Hpos
                Hlimit tr
                (groupByLangPair (requestsOf (row :: rows))) (row :: rows) log)
      as (rows' & log' & Hrun & Hcells).
    - intros r Hr. rewrite groupByLangPair_requests in Hr.
      by apply requestsOf_in_range.
    - rewrite groupByLangPair_requests. by apply requestsOf_targets_NoDup.
    - intros key rs r Hin Hr.
      pose proof (groupByLangPair_filter _ _ _ Hin) as Hrs.
      rewrite Hrs in Hr. apply list_elem_of_filter in Hr as [<- Hr].
      apply requestSupported_split.
      pose proof (columnsSupported_requests _ Hsup) as Hall.
      rewrite Forall_forall in Hall. by apply Hall.
    - exists rows', log'. split; [done|]. intros r Hr. apply Hcells.
      by rewrite groupByLangPair_requests. }
  exists rows', log'. split_and!; [done| |].
  - intros i row col r Hrow Hcol Hc.
    pose proof (cellRequest_in_requestsOf _ _ _ _ _ Hrow Hcol Hc) as Hr.
    pose proof (cellRequest_target _ _ _ _ Hc) as Ht.
    unfold targetOf in Ht. injection Ht as Hi Hcol'.
    specialize (Hcells r Hr). rewrite Hi, Hcol' in Hcells.
    by rewrite Hcells, (cellAt_lookup _ _ _ _ Hrow).
  - intros i row col Hrow Hnone.
    rewrite (fillRows_frame _ _ _ _ _ _ _ _ _ _ Hrun
               (cellRequest_None_untargeted _ _ _ _ Hrow Hnone)).
    by apply cellAt_lookup.
Qed.

Lemma X8_fill_end_to_end_witness :
  ∃ rows' log',
    fillRows 10 (EnvConfig.JSNumber 100)
      (idealProvider (λ _ t x, t +:+ ":" +:+ x)) Demo.greetings
      "greetings.csv" [] = (Ok rows', log') ∧
    cellAt rows' 0 "Spanish" = Some "Spanish:hello".
Proof.
  destruct (X8_fill_end_to_end 10 (EnvConfig.JSNumber 100)
    (λ _ t x, t +:+ ":" +:+ x) Demo.greetings
              "greetings.csv" [])
    as (rows' & log' & Hrun & Hfilled & _).
  - apply Nat.lt_0_succ.
  - reflexivity.
  - apply columnsSupportedb_sound. vm_compute. reflexivity.
  - apply wellFormedb_sound. vm_compute. reflexivity.
  - discriminate.
  - exists rows', log'. split; [exact Hrun|].
    refine (Hfilled 0 _ "Spanish"
              {| rowIndex := 0; sourceLang := "English";
                 targetLang := "Spanish"; text := "hello" |} eq_refl _ _).
    + apply (bool_decide_unpack _). vm_compute. exact I.
    + vm_compute. reflexivity.
Defined.

(** ** Runs fail only when a Provider call fails *)

Section OnlyOnCall.
Variable MAX_BATCH_SIZE : nat.
Variable MAX_CONCURRENCY_REQ : EnvConfig.JSValue.
Hypothesis limit_accepted : pLimit MAX_CONCURRENCY_REQ = Ok tt.
Variable provider : list ProviderCall → ProviderCall → result (list Translation).
Variable base64 : string → string.
Variable basename : string → string.

Lemma callFailed_app_l log e1 e2 :
  callFailed provider log e1 → callFailed provider log (e1 ++ e2).
Proof.
  intros (k & call & Hk & Hthrow). exists k, call.
  pose proof (lookup_lt_Some _ _ _ Hk) as Hlt.
  rewrite lookup_app_l by done. rewrite take_app_le by lia. done.
Qed.

Lemma callFailed_app_r log e1 e2 :
  callFailed provider (log ++ e1) e2 → callFailed provider log (e1 ++ e2).
Proof.
  intros (k & call & Hk & Hthrow). exists (length e1 + k), call.
  rewrite lookup_app_r by lia.
  replace (length e1 + k - length e1) with k by lia.
  rewrite take_app_add, app_assoc. done.
Qed.

Lemma failsOnlyOnCall_ret {A} (a : A) : failsOnlyOnCall provider (mret a).
Proof. intros log. exists []. simpl. by rewrite app_nil_r. Qed.

Lemma failsOnlyOnCall_bind {A B} (m : M A) (f : A → M B) :
  failsOnlyOnCall provider m →
  (∀ a, failsOnlyOnCall provider (f a)) →
  failsOnlyOnCall provider (m ≫= f).
Proof.
  intros Hm Hf log. destruct (Hm log) as (e1 & Hlog1 & Hfail1).
  rewrite M_bind_unfold.
  destruct (m log) as [[a|e] log1]; simpl in *.
  - subst log1. destruct (Hf a (log ++ e1)) as (e2 & Hlog2 & Hfail2).
    exists (e1 ++ e2). rewrite Hlog2, app_assoc. split; [done|].
    intros Hthrow. by apply callFailed_app_r, Hfail2.
  - exists e1. done.
Qed.

Lemma failsOnlyOnCall_liftR_bind {A B} (r : result A) (f : A → M B) a :
  r = Ok a → failsOnlyOnCall provider (f a) →
  failsOnlyOnCall provider (liftR r ≫= f).
Proof. intros -> Hf log. rewrite M_bind_unfold. apply Hf. Qed.

Lemma failsOnlyOnCall_translateTextBatch call :
  failsOnlyOnCall provider (translateTextBatch provider call).
Proof.
  intros log. exists [call]. unfold translateTextBatch. simpl.
  split; [done|]. intros Hthrow. exists 0, call. simpl.
  by rewrite app_nil_r.
Qed.

Lemma failsOnlyOnCall_promiseAll {A} (promises : list (M A)) :
  Forall (failsOnlyOnCall provider) promises →
  failsOnlyOnCall provider (promiseAll promises).
Proof.
  induction 1 as [|p rest Hp _ IH]; [apply failsOnlyOnCall_ret|].
  intros log. rewrite promiseAll_cons.
  destruct (Hp log) as (e1 & Hlog1 & Hfail1). rewrite Hlog1.
  destruct (IH (log ++ e1)) as (e2 & Hlog2 & Hfail2).
  exists (e1 ++ e2). simpl. rewrite Hlog2, app_assoc. split; [done|].
  destruct (p log).1 as [a|e].
  - destruct (promiseAll rest (log ++ e1)).1; [done|].
    intros _. by apply callFailed_app_r, Hfail2.
  - intros _. by apply callFailed_app_l, Hfail1.
Qed.

Lemma failsOnlyOnCall_prepareAndExecuteTranslations `{HasText A}
    (requests : list A) sourceLang targetLang :
  failsOnlyOnCall provider
    (prepareAndExecuteTranslations MAX_BATCH_SIZE MAX_CONCURRENCY_REQ
      provider requests
       sourceLang targetLang).
Proof.
  unfold prepareAndExecuteTranslations.
  eapply failsOnlyOnCall_liftR_bind; [exact limit_accepted|].
  apply failsOnlyOnCall_bind.
  - apply failsOnlyOnCall_promiseAll, Forall_fmap, Forall_true. intros batch.
    apply failsOnlyOnCall_bind; [apply failsOnlyOnCall_translateTextBatch|].
    intros ?. apply failsOnlyOnCall_ret.
  - intros ?. apply failsOnlyOnCall_ret.
Qed.

Lemma failsOnlyOnCall_processGroups groups rows :
  (∀ r, r ∈ allRequests groups → rowIndex r < length rows) →
  failsOnlyOnCall provider (processGroups MAX_BATCH_SIZE MAX_CONCURRENCY_REQ
    provider groups rows).
Proof.
  revert rows. induction groups as [|[langPair requests] groups IH];
    intros rows Hrange; cbn [processGroups]; [apply failsOnlyOnCall_ret|].
  destruct (splitLangPair langPair) as [src tgt].
  apply failsOnlyOnCall_bind;
    [apply failsOnlyOnCall_prepareAndExecuteTranslations|].
  intros translations.
  destruct (applyTranslations_total rows requests translations) as [rows1 Happly].
  { intros r Hr. apply Hrange, elem_of_app. by left. }
  eapply failsOnlyOnCall_liftR_bind; [exact Happly|].
  apply IH. intros r Hr.
  rewrite (applyTranslations_length _ _ _ _ Happly).
  apply Hrange, elem_of_app. by right.
Qed.

Lemma failsOnlyOnCall_fillRows rows fileName :
  columnsSupported rows → rows ≠ [] →
  failsOnlyOnCall provider (fillRows MAX_BATCH_SIZE MAX_CONCURRENCY_REQ
    provider rows fileName).
Proof.
  intros Hsup Hne. unfold fillRows. destruct rows as [|row rows]; [done|].
  eapply failsOnlyOnCall_liftR_bind; [by apply buildRequests_supported|].
  destruct (requestsOf (row :: rows)) as [|r requests] eqn:Hreqs;
    [apply failsOnlyOnCall_ret|].
  rewrite <- Hreqs. apply failsOnlyOnCall_processGroups.
  intros r' Hr'. rewrite groupByLangPair_requests in Hr'.
  by apply requestsOf_in_range.
Qed.

Lemma failsOnlyOnCall_translateCsvToLanguage csvData fileName lang :
  isSupported lang = true →
  failsOnlyOnCall provider
    (translateCsvToLanguage MAX_BATCH_SIZE MAX_CONCURRENCY_REQ
      provider base64 basename
       csvData fileName lang).
Proof.
  intros Hlang. unfold translateCsvToLanguage.
  eapply failsOnlyOnCall_liftR_bind; [by apply validateLanguageCode_Ok|].
  apply failsOnlyOnCall_bind; [|intros ?; apply failsOnlyOnCall_ret].
  unfold translateTable.
  destruct (parseCells csvData) as [|row rows] eqn:Hparse.
  { by apply parseCells_nonempty in Hparse. }
  apply failsOnlyOnCall_bind;
    [apply failsOnlyOnCall_prepareAndExecuteTranslations|].
  intros ?. apply failsOnlyOnCall_ret.
Qed.
End OnlyOnCall.

(** X7. No failure without a failed Provider call, once the limiter is
    created: with a concurrency limit that p-limit accepts (a whole number
    from 1 up, such as the default 100), a run of fill-missing-cells mode
    on a table with at least one row whose column names pass validation,
    and a run of whole-table mode with a supported target language, throw
    only if one of the Provider calls they made threw. (With C3 this is an
    equivalence under that configuration. A limit read from the
    environment is a string: [pLimit] then throws, and whole-table mode
    fails without any call.) *)
Theorem X7_fails_only_on_provider_failure MAX_BATCH_SIZE MAX_CONCURRENCY_REQ
    provider base64 basename log :
  pLimit MAX_CONCURRENCY_REQ = Ok tt →
  (∀ rows fileName ext (r : result (list Row)),
     columnsSupported rows → rows ≠ [] →
     fillRows MAX_BATCH_SIZE MAX_CONCURRENCY_REQ provider rows fileName log
       = (r, log ++ ext) →
     ¬ callFailed provider log ext →
     ∃ rows', r = Ok rows') ∧
  (∀ csvData fileName lang ext (r : result File),
     isSupported lang = true →
     translateCsvToLanguage MAX_BATCH_SIZE MAX_CONCURRENCY_REQ provider base64
       basename csvData fileName lang log = (r, log ++ ext) →
     ¬ callFailed provider log ext →
     ∃ file, r = Ok file).
Proof.
  intros Hlimit. split.
  - intros rows fileName ext r Hsup Hne Hrun Hnone.
    destruct (failsOnlyOnCall_fillRows MAX_BATCH_SIZE MAX_CONCURRENCY_REQ
                Hlimit provider rows fileName
                Hsup Hne log) as (ext' & Hlog & Hfail).
    rewrite Hrun in Hlog, Hfail. simpl in *. apply app_inv_head in Hlog as <-.
    destruct r as [rows'|e]; [by eauto|]. destruct Hnone. by apply Hfail.
  - intros csvData fileName lang ext r Hlang Hrun Hnone.
    destruct (failsOnlyOnCall_translateCsvToLanguage MAX_BATCH_SIZE
                MAX_CONCURRENCY_REQ Hlimit provider
                base64 basename csvData fileName lang Hlang log)
      as (ext' & Hlog & Hfail).
    rewrite Hrun in Hlog, Hfail. simpl in *. apply app_inv_head in Hlog as <-.
    destruct r as [file|e]; [by eauto|]. destruct Hnone. by apply Hfail.
Qed.

Lemma X7_fails_only_on_provider_failure_witness :
  ∃ rows',
    (fillRows 10 (EnvConfig.JSNumber 100)
      Demo.echoProvider Demo.greetings "greetings.csv" []).1
    = Ok rows'.
Proof.
  refine (proj1 (X7_fails_only_on_provider_failure 10 (EnvConfig.JSNumber 100)
                   Demo.echoProvider Demo.plain Demo.plain [] _)
            Demo.greetings "greetings.csv"
            (fillRows 10 (EnvConfig.JSNumber 100) Demo.echoProvider
               Demo.greetings "greetings.csv" []).2
            _ _ _ _ _).
  - reflexivity.
  - apply columnsSupportedb_sound. vm_compute. reflexivity.
  - discriminate.
  - vm_compute. reflexivity.
  - intros (k & call & Hk & Hthrow). vm_compute in Hthrow. discriminate Hthrow.
Defined.

(** ** Whole-table mode against a Provider that honours its contract *)

Section IdealWhole.
Variable tr : string → string → string → string.

Lemma buildTranslationMap_ideal s t texts cell :
  buildTranslationMap (idealAnswer tr s t texts) !! cell
  = if decide (cell ∈ texts) then Some (tr s t cell) else None.
Proof.
  induction texts as [|x texts IH] using rev_ind.
  - rewrite decide_False by apply not_elem_of_nil. done.
  - rewrite idealAnswer_app. change (idealAnswer tr s t [x])
      with [{| original_text := x; translated_text := tr s t x |}].
    rewrite buildTranslationMap_snoc. simpl.
    destruct (decide (x = cell)) as [->|Hne].
    + rewrite lookup_insert_eq. rewrite decide_True; [done|].
      apply elem_of_app. right. left.
    + rewrite lookup_insert_ne, IH by done.
      destruct (decide (cell ∈ texts)) as [Hin|Hnotin].
      * rewrite decide_True; [done|]. apply elem_of_app. by left.
      * rewrite decide_False; [done|].
        intros [?|?%list_elem_of_singleton]%elem_of_app; [done|congruence].
Qed.

Lemma translateCell_ideal s t (rows : list (list string)) row cell :
  row ∈ rows → cell ∈ row →
  translateCell (buildTranslationMap (idealAnswer tr s t (collectTexts rows))) cell
  = if nonBlank (Some cell) && JS.truthy (tr s t cell) then tr s t cell else cell.
Proof.
  intros Hrow Hcell. unfold translateCell. rewrite buildTranslationMap_ideal.
  destruct (collectTexts_distinct rows) as (_ & _ & Helem & _).
  destruct (nonBlank (Some cell)) eqn:Hnb.
  - rewrite decide_True; [done|]. apply Helem. unfold nonBlankCells.
    apply list_elem_of_filter. split; [done|].
    apply list_elem_of_join. eauto.
  - rewrite decide_False; [done|]. intros Hin%Helem.
    unfold nonBlankCells in Hin. apply list_elem_of_filter in Hin as [Hnb' _].
    congruence.
Qed.

Lemma translateRows_ideal s t (rows : list (list string)) :
  translateRows (buildTranslationMap (idealAnswer tr s t (collectTexts rows))) rows
  = (λ row : list string,
       (λ cell, if nonBlank (Some cell) && JS.truthy (tr s t cell)
                then tr s t cell else cell) <$> row) <$> rows.
Proof.
  unfold translateRows. apply Forall_fmap_ext_1, Forall_forall. intros row Hrow.
  apply Forall_fmap_ext_1, Forall_forall. intros cell Hcell.
  by eapply translateCell_ideal.
Qed.
End IdealWhole.

(** X9. Whole-table mode against a Provider that honours its contract,
    for a supported target language, a positive batch size and a
    concurrency limit that p-limit accepts (a whole number from 1 up, such
    as the default 100; with a limit read from the environment, a string,
    the run throws at [pLimit]): the run
    completes and the file it returns holds the input table, split on line
    feeds and commas and written back in the same way, in which every
    non-blank cell is replaced by its translation (unless the translation
    is the empty string) and every blank cell is kept; cells with the same
    text get the same translation. *)
Theorem X9_whole_table_end_to_end MAX_BATCH_SIZE MAX_CONCURRENCY_REQ tr base64
    basename csvData fileName lang log :
  0 < MAX_BATCH_SIZE → pLimit MAX_CONCURRENCY_REQ = Ok tt →
  isSupported lang = true →
  (translateCsvToLanguage MAX_BATCH_SIZE MAX_CONCURRENCY_REQ (idealProvider tr)
     base64 basename csvData fileName lang log).1
  = Ok {| name := "translated_" +:+ basename fileName;
          mime_type := "text/csv";
          content :=
            base64 (writeCells
              ((λ row : list string,
                  (λ cell, if nonBlank (Some cell)
                              && JS.truthy (tr "any language" lang cell)
                           then tr "any language" lang cell else cell)
                  <$> row) <$> parseCells csvData)) |}.
Proof.
  intros Hpos Hlimit Hlang. unfold translateCsvToLanguage, validateLanguageCode.
  rewrite Hlang. rewrite M_bind_unfold. unfold liftR.
  rewrite M_bind_unfold. unfold translateTable.
  destruct (parseCells csvData) as [|row rows] eqn:Hparse.
  { by apply parseCells_nonempty in Hparse. }
  rewrite M_bind_unfold, prepareAndExecuteTranslations_ideal by done.
  assert (textOf <$> ((λ text, {| text_only := text |})
                        <$> collectTexts (row :: rows))
          = collectTexts (row :: rows)) as ->.
  { rewrite <- list_fmap_compose. apply list_fmap_id. }
  rewrite !M_ret_unfold. cbn [fst]. by rewrite translateRows_ideal.
Qed.

Lemma X9_whole_table_end_to_end_witness :
  (translateCsvToLanguage 10 (EnvConfig.JSNumber 100)
     (idealProvider (λ _ t x, t +:+ ":" +:+ x))
     Demo.plain Demo.plain "cat, ,cat" "pets.csv" "French" []).1
  = Ok {| name := "translated_pets.csv"; mime_type := "text/csv";
          content := "French:cat, ,French:cat" |}.
Proof.
  refine (X9_whole_table_end_to_end 10 (EnvConfig.JSNumber 100)
            (λ _ t x, t +:+ ":" +:+ x)
            Demo.plain Demo.plain "cat, ,cat" "pets.csv" "French" [] _ _ _).
  - apply Nat.lt_0_succ.
  - reflexivity.
  - vm_compute. reflexivity.
Defined.

(** X10. One dispatch ([prepareAndExecuteTranslations], numeric batch size
    of at least one). It first creates the limiter. When p-limit accepts
    the concurrency limit (a whole number from 1 up, such as the default
    100), the dispatch makes a Provider call for every batch, whatever the
    earlier calls return: the number of calls is the number of requests
    divided by the batch size, rounded up (none for an empty list); every
    call carries the two languages of the dispatch and between one and
    [MAX_BATCH_SIZE] texts; and the texts of the calls, in order, are the
    texts of the requests. When p-limit rejects the limit (a limit read
    from the environment is a string), the dispatch throws p-limit's error
    and makes no call. *)
Theorem X10_dispatch_calls {A} {H : HasText A} MAX_BATCH_SIZE
    MAX_CONCURRENCY_REQ provider (requests : list A) sourceLang targetLang log :
  0 < MAX_BATCH_SIZE →
  (pLimit MAX_CONCURRENCY_REQ = Ok tt →
   ∃ ext,
     (prepareAndExecuteTranslations MAX_BATCH_SIZE MAX_CONCURRENCY_REQ provider
        requests sourceLang targetLang log).2 = log ++ ext ∧
     length requests ≤ length ext * MAX_BATCH_SIZE ∧
     length ext * MAX_BATCH_SIZE < length requests + MAX_BATCH_SIZE ∧
     mjoin (call_texts <$> ext) = textOf <$> requests ∧
     Forall (λ call, call_sourceLang call = sourceLang ∧
                     call_targetLang call = targetLang ∧
                     0 < length (call_texts call) ≤ MAX_BATCH_SIZE) ext) ∧
  (∀ message,
     pLimit MAX_CONCURRENCY_REQ = Throw message →
     prepareAndExecuteTranslations MAX_BATCH_SIZE MAX_CONCURRENCY_REQ provider
       requests sourceLang targetLang log = (Throw message, log)) ∧
  (∀ s, pLimit (EnvConfig.JSString s)
        = Throw "Expected `concurrency` to be a number from 1 and up").
Proof.
  intros Hpos. split_and!; [intros Hlimit| |done].
  - exists (callOf sourceLang targetLang <$> batches MAX_BATCH_SIZE requests).
    destruct (batches_partition MAX_BATCH_SIZE Hpos requests)
      as (Hcat & Hlen & _).
    destruct (batchLoop_length MAX_BATCH_SIZE Hpos (length requests) 0 requests)
      as [Hlt Hle]; [lia|].
    fold (batches MAX_BATCH_SIZE requests) in Hlt, Hle.
    rewrite length_fmap. split_and!.
    + by apply prepareAndExecuteTranslations_log.
    + lia.
    + lia.
    + by rewrite callOf_texts, Hcat.
    + apply Forall_fmap. eapply Forall_impl; [exact Hlen|].
      intros b Hb. simpl. by rewrite length_fmap.
  - intros message Hlimit.
    by rewrite prepareAndExecuteTranslations_limit, Hlimit.
Qed.

Lemma X10_dispatch_calls_witness :
  (∃ ext,
     (prepareAndExecuteTranslations 2 (EnvConfig.JSNumber 100)
        Demo.failingProvider
        [{| text_only := "a" |}; {| text_only := "b" |}; {| text_only := "c" |}]
        "any language" "French" []).2 = [] ++ ext ∧
     length ext = 2) ∧
  prepareAndExecuteTranslations 2 (EnvConfig.MAX_CONCURRENCY_REQ (Some "100"))
    Demo.echoProvider
    [{| text_only := "a" |}; {| text_only := "b" |}; {| text_only := "c" |}]
    "any language" "French" []
  = (Throw "Expected `concurrency` to be a number from 1 and up", []).
Proof.
  split.
  - destruct (X10_dispatch_calls 2 (EnvConfig.JSNumber 100)
                Demo.failingProvider
                [{| text_only := "a" |}; {| text_only := "b" |};
                 {| text_only := "c" |}] "any language" "French" [])
      as ((ext & Hlog & Hle & Hlt & _) & _).
    + apply Nat.lt_0_succ.
    + reflexivity.
    + exists ext. split; [exact Hlog|]. simpl in Hle, Hlt. lia.
  - refine (proj1 (proj2 (X10_dispatch_calls 2
              (EnvConfig.MAX_CONCURRENCY_REQ (Some "100")) Demo.echoProvider
              [{| text_only := "a" |}; {| text_only := "b" |};
               {| text_only := "c" |}] "any language" "French" [] _)) _ _).
    + apply Nat.lt_0_succ.
    + reflexivity.
Defined.

(** ** More on the HTTP boundary *)

Lemma promiseAll_throw_log {A} (promises : list (M A)) log :
  Forall (λ p : M A, ∀ log, ∃ e, p log = (Throw e, log)) promises →
  (promiseAll promises log).2 = log.
Proof.
  induction 1 as [|p rest Hp _ IH]; [done|].
  rewrite promiseAll_cons. destruct (Hp log) as [e ->]. exact IH.
Qed.

Lemma promiseAll_all_throw {A} (promises : list (M A)) log :
  promises ≠ [] →
  Forall (λ p : M A, ∀ log, ∃ e, p log = (Throw e, log)) promises →
  ∃ e, promiseAll promises log = (Throw e, log).
Proof.
  intros Hne Hall. pose proof (promiseAll_throw_log _ log Hall) as Hlog.
  destruct promises as [|p rest]; [done|].
  apply Forall_cons in Hall as [Hp _].
  rewrite promiseAll_cons in *. destruct (Hp log) as [e Hrun].
  rewrite Hrun in *. exists e. simpl in *. by rewrite Hlog.
Qed.

Lemma promiseAll_Ok {A} (promises : list (M A)) log values log' :
  promiseAll promises log = (Ok values, log') →
  Forall2 (λ (p : M A) v, ∃ l l', p l = (Ok v, l')) promises values.
Proof.
  revert log values. induction promises as [|p rest IH]; intros log values.
  - intros [= <- _]. constructor.
  - rewrite promiseAll_cons.
    destruct (p log) as [[a|e] log1] eqn:Hp; simpl; [|done].
    destruct (promiseAll rest log1) as [[l|e] log2] eqn:Hrest; simpl; [|done].
    intros [= <- <-]. constructor; [by eauto|]. by eapply IH.
Qed.

Section HandlerFacts.
Variable MAX_BATCH_SIZE : nat.
Variable MAX_CONCURRENCY_REQ : EnvConfig.JSValue.
Variable provider : list ProviderCall → ProviderCall → result (list Translation).
Variable parseCsvData : string → result (list Row).
Variable stringifyCsv : list string → list Row → string.
Variable base64 : string → string.
Variable basename : string → string.
Variable fetch : string → result FetchResponse.

Lemma translateOne_unsupported lang fileRef log :
  JS.truthy lang = true → isSupported lang = false →
  ∃ e, translateOne MAX_BATCH_SIZE MAX_CONCURRENCY_REQ
    provider parseCsvData stringifyCsv base64
         basename fetch (Some lang) fileRef log = (Throw e, log).
Proof.
  intros Hlang Hsup. unfold translateOne. rewrite M_bind_unfold.
  unfold liftR at 1. destruct (fetch (download_link fileRef)) as [response|e];
    [|by eauto].
  destruct (ok response); simpl; [|by eauto].
  rewrite M_bind_unfold. unfold liftR at 1.
  destruct (responseText response) as [csvData|e]; [|by eauto].
  rewrite Hlang. unfold translateCsvToLanguage, validateLanguageCode.
  rewrite Hsup. by eauto.
Qed.

Lemma translateOne_Ok language fileRef log file log' :
  translateOne MAX_BATCH_SIZE MAX_CONCURRENCY_REQ
    provider parseCsvData stringifyCsv base64
    basename fetch language fileRef log = (Ok file, log') →
  mime_type file = "text/csv" ∧
  name file =
    match language with
    | Some lang => if JS.truthy lang
                   then "translated_" +:+ basename (ref_name fileRef)
                   else "translated_" +:+ ref_name fileRef
    | None => "translated_" +:+ ref_name fileRef
    end.
Proof.
  unfold translateOne. intros (response & log1 & _ & Hrun)%M_bind_Ok_inv.
  destruct (negb (ok response)); [done|].
  apply M_bind_Ok_inv in Hrun as (csvData & log2 & _ & Hrun).
  assert (∀ l, processFile MAX_BATCH_SIZE MAX_CONCURRENCY_REQ
    provider parseCsvData stringifyCsv
                 base64 csvData (ref_name fileRef) l = (Ok file, log') →
               mime_type file = "text/csv" ∧
               name file = "translated_" +:+ ref_name fileRef) as Hfill.
  { intros l. unfold processFile.
    intros (rows & l1 & _ & Hp)%M_bind_Ok_inv.
    apply M_bind_Ok_inv in Hp as (rows' & l2 & _ & Hp).
    by apply M_ret_inv in Hp as [-> _]. }
  destruct language as [lang|]; [|by eapply Hfill].
  destruct (JS.truthy lang); [|by eapply Hfill].
  unfold translateCsvToLanguage in Hrun.
  apply M_bind_Ok_inv in Hrun as (? & l1 & _ & Hrun).
  apply M_bind_Ok_inv in Hrun as (cells & l2 & _ & Hrun).
  by apply M_ret_inv in Hrun as [-> _].
Qed.
End HandlerFacts.

(** X11. A request whose [language] is a non-empty string that is not a
    supported language is answered with status 500 and an error body, and
    no Provider call is made for any of its files, whatever the downloads
    return. *)
Theorem X11_unsupported_language_no_call MAX_BATCH_SIZE MAX_CONCURRENCY_REQ
    provider parseCsvData
    stringifyCsv base64 basename fetch refs lang log :
  refs ≠ [] → JS.truthy lang = true → isSupported lang = false →
  ∃ message,
    translateHandler MAX_BATCH_SIZE MAX_CONCURRENCY_REQ
      provider parseCsvData stringifyCsv base64
      basename fetch
      {| openaiFileIdRefs := RefsArray refs; language := Some lang |} log
    = ({| status := 500; body := ErrorBody message |}, log).
Proof.
  intros Hne Hlang Hsup. destruct refs as [|ref refs]; [done|].
  rewrite translateHandler_array.
  destruct (promiseAll_all_throw
              (translateOne MAX_BATCH_SIZE MAX_CONCURRENCY_REQ
                provider parseCsvData stringifyCsv
                 base64 basename fetch (Some lang) <$> ref :: refs) log)
    as [e ->].
  - done.
  - apply Forall_fmap, Forall_true. intros fileRef l.
    by apply translateOne_unsupported.
  - by eauto.
Qed.

Lemma X11_unsupported_language_no_call_witness :
  ∃ message,
    translateHandler 10 (EnvConfig.JSNumber 100)
      Demo.echoProvider Demo.noRows Demo.plainCsv Demo.plain
      Demo.plain Demo.oneFile
      {| openaiFileIdRefs := RefsArray [Demo.petsRef];
         language := Some "Klingon" |} []
    = ({| status := 500; body := ErrorBody message |}, []).
Proof.
  apply (X11_unsupported_language_no_call 10 (EnvConfig.JSNumber 100)
    Demo.echoProvider Demo.noRows
           Demo.plainCsv Demo.plain Demo.plain Demo.oneFile [Demo.petsRef]
           "Klingon" []).
  - discriminate.
  - reflexivity.
  - vm_compute. reflexivity.
Defined.

(** X12. A successful response (status 200) holds one file per reference,
    in the order of the references, each of type text/csv. In whole-table
    mode (a non-empty [language]) a file is named [translated_] followed by
    the base name of the reference's name; in fill-missing-cells mode
    (no [language], or an empty one) by the reference's name as it is. *)
Theorem X12_response_files MAX_BATCH_SIZE MAX_CONCURRENCY_REQ
    provider parseCsvData stringifyCsv
    base64 basename fetch req log files :
  (translateHandler MAX_BATCH_SIZE MAX_CONCURRENCY_REQ
    provider parseCsvData stringifyCsv base64
     basename fetch req log).1
  = {| status := 200; body := FilesBody files |} →
  ∃ refs,
    openaiFileIdRefs req = RefsArray refs ∧
    Forall2
      (λ fileRef file,
         mime_type file = "text/csv" ∧
         name file =
           match language req with
           | Some lang => if JS.truthy lang
                          then "translated_" +:+ basename (ref_name fileRef)
                          else "translated_" +:+ ref_name fileRef
           | None => "translated_" +:+ ref_name fileRef
           end)
      refs files.
Proof.
  destruct req as [field language].
  destruct field as [|[|ref refs]]; [done..|].
  rewrite translateHandler_array.
  destruct (promiseAll _ log) as [[files'|message] log'] eqn:Hall; [|done].
  intros [= <-]. exists (ref :: refs). split; [done|].
  apply promiseAll_Ok in Hall. apply Forall2_fmap_l in Hall.
  eapply Forall2_impl; [exact Hall|].
  intros fileRef file (l & l' & Hrun). by eapply translateOne_Ok.
Qed.

Lemma X12_response_files_witness :
  ∃ refs,
    RefsArray [Demo.petsRef] = RefsArray refs ∧
    Forall2 (λ fileRef file,
               mime_type file = "text/csv" ∧
               name file = "translated_" +:+ Demo.plain (ref_name fileRef))
            refs
            [{| name := "translated_pets.csv"; mime_type := "text/csv";
                content := "French:cat,French:dog" |}].
Proof.
  apply (X12_response_files 10 (EnvConfig.JSNumber 100)
    Demo.echoProvider Demo.noRows Demo.plainCsv
           Demo.plain Demo.plain Demo.oneFile
           {| openaiFileIdRefs := RefsArray [Demo.petsRef];
              language := Some "French" |} []).
  vm_compute. reflexivity.
Defined.

(** ** The prompt *)

Example promptOf_ex :
  userMessage ["cat"; "dog"] "English" "French"
  = "You are a professional translator. Translate the following texts from English to French. Preserve the original meaning and context. Provide the translations in a JSON array format as shown below.

Texts to translate:
1. cat
2. dog".
Proof. vm_compute. reflexivity. Qed.

Lemma join_snoc2 sep (parts : list string) x y :
  JS.join sep (parts ++ [x; y]) = JS.join sep (parts ++ [x +:+ sep +:+ y]).
Proof.
  induction parts as [|p parts IH]; [done|].
  destruct parts as [|q parts]; [done|].
  change ((p :: q :: parts) ++ [x; y]) with (p :: (q :: parts) ++ [x; y]).
  change ((p :: q :: parts) ++ [x +:+ sep +:+ y])
    with (p :: (q :: parts) ++ [x +:+ sep +:+ y]).
  change ((q :: parts) ++ [x; y]) with (q :: parts ++ [x; y]) in *.
  change ((q :: parts) ++ [x +:+ sep +:+ y])
    with (q :: parts ++ [x +:+ sep +:+ y]) in *.
  destruct (parts ++ [x; y]) eqn:E1; destruct (parts ++ [x +:+ sep +:+ y]) eqn:E2;
    try (by destruct parts).
  - rewrite join_cons, IH. by rewrite <- join_cons.
Qed.

(** X13. The prompt does not delimit the texts: a text that holds a line
    feed followed by the next number, a full stop and a space reads, in
    the prompt, as two texts. For every list of texts, the user message
    for the list followed by the single text [a LF n. b], where [n] is the
    number after that of [a], is the user message for the list followed by
    the two texts [a] and [b]. *)
Theorem X13_prompt_not_delimited texts a b sourceLang targetLang :
  userMessage
    (texts ++ [a +:+ String LF "" +:+ numberedText (S (length texts)) b])
    sourceLang targetLang
  = userMessage (texts ++ [a; b]) sourceLang targetLang.
Proof.
  unfold userMessage, promptOf, numberedTexts. do 8 f_equal.
  rewrite !imap_app. cbn [imap]. unfold compose.
  rewrite Nat.add_0_r, join_snoc2. do 3 f_equal.
  unfold numberedText. by rewrite Nat.add_1_r, !string_app_assoc.
Qed.

(** ** The earlier version of [processFile] *)

Lemma Legacy_scanColumns_cons rowIndex row col columns groups :
  Legacy.scanColumns rowIndex row (col :: columns) groups =
  Legacy.scanColumns rowIndex row columns
    match cellRequest rowIndex row col with
    | Some r => groupPush groups (langPairKey r) r
    | None => groups
    end.
Proof.
  cbn [Legacy.scanColumns]. unfold cellRequest.
  destruct (isBlank (rowGet row col)); [|done].
  destruct (findSource row col) as [src|]; [|done].
  by destruct (JS.truthy src).
Qed.

Lemma Legacy_scanColumns_foldl rowIndex row columns groups :
  Legacy.scanColumns rowIndex row columns groups =
  foldl (λ groups r, groupPush groups (langPairKey r) r) groups
        (omap (cellRequest rowIndex row) columns).
Proof.
  revert groups. induction columns as [|col columns IH]; intros groups; [done|].
  rewrite Legacy_scanColumns_cons, IH. cbn [omap list_omap].
  by destruct (cellRequest rowIndex row col).
Qed.

Lemma Legacy_scanRows_foldl rowIndex rows groups :
  Legacy.scanRows rowIndex rows groups =
  foldl (λ groups r, groupPush groups (langPairKey r) r) groups
        (mjoin (imap (λ j, requestsOfRow (rowIndex + j)) rows)).
Proof.
  revert rowIndex groups.
  induction rows as [|row rows IH]; intros rowIndex groups; [done|].
  cbn [Legacy.scanRows]. rewrite IH, Legacy_scanColumns_foldl, imap_cons.
  cbn [mjoin list_join]. rewrite foldl_app, Nat.add_0_r.
  unfold requestsOfRow at 2. do 2 f_equal. apply imap_ext.
  intros; simpl; f_equal; lia.
Qed.

Lemma Legacy_buildGroups_requests rows :
  Legacy.buildGroups rows = groupByLangPair (requestsOf rows).
Proof. unfold Legacy.buildGroups. by rewrite Legacy_scanRows_foldl. Qed.

(** X14. The earlier version groups the same requests: for every table,
    the groups it builds while scanning the rows are the groups obtained
    from the list of the requests owed by the cells, with the same keys in
    the same order and the same requests in each group; and whenever the
    current version builds its requests (every column name involved
    passes validation), the two versions have the same groups. The earlier
    version validates no column name. *)
Theorem X14_legacy_same_groups rows :
  Legacy.buildGroups rows = groupByLangPair (requestsOf rows) ∧
  ∀ requests, buildRequests rows = Ok requests →
              Legacy.buildGroups rows = groupByLangPair requests.
Proof.
  split; [apply Legacy_buildGroups_requests|].
  intros requests [-> _]%buildRequests_Ok. apply Legacy_buildGroups_requests.
Qed.

Lemma X14_legacy_same_groups_witness :
  Legacy.buildGroups Demo.greetings
  = groupByLangPair
      [ {| rowIndex := 0; sourceLang := "English"; targetLang := "French";
           text := "hello" |};
        {| rowIndex := 0; sourceLang := "English"; targetLang := "Spanish";
           text := "hello" |} ].
Proof.
  apply (proj2 (X14_legacy_same_groups Demo.greetings)).
  vm_compute. reflexivity.
Defined.

Lemma forEachTranslation_spec targetLang batch translations :
  NoDup (rowIndex <$> batch) →
  ∀ index rows,
    (∀ r, r ∈ batch → rowIndex r < length rows) → index ≤ length batch →
    ∃ res rows',
      Legacy.forEachTranslation rows targetLang batch index translations
        = (res, rows') ∧
      length rows' = length rows ∧
      (res = Ok tt ↔ index + length translations ≤ length batch) ∧
      (∀ k r t, batch !! (index + k) = Some r → translations !! k = Some t →
                cellAt rows' (rowIndex r) targetLang = Some (translated_text t)) ∧
      (∀ i col,
         (∀ k r, k < length translations → batch !! (index + k) = Some r →
                 (rowIndex r, targetLang) ≠ (i, col)) →
         cellAt rows' i col = cellAt rows i col).
Proof.
  intros Hnodup.
  induction translations as [|t translations IH]; intros index rows Hrange Hindex.
  - exists (Ok tt), rows. simpl.
    split_and!; [done|done|split; [lia|done]|by intros k r t _ ?|done].
  - cbn [Legacy.forEachTranslation].
    destruct (batch !! index) as [r0|] eqn:Hr0.
    + pose proof (lookup_lt_Some _ _ _ Hr0) as Hlt.
      assert (rowIndex r0 < length rows) as Hin
        by (apply Hrange; by eapply list_elem_of_lookup_2).
      apply lookup_lt_is_Some_2 in Hin as [row0 Hrow0].
      assert (setCell rows (rowIndex r0) targetLang (translated_text t)
              = Ok (<[rowIndex r0 := rowSet row0 targetLang (translated_text t)]> rows))
        as Hset by (unfold setCell; by rewrite Hrow0).
      rewrite Hset. apply setCell_Ok in Hset as (Hlen1 & Hcell1 & Hframe1).
      destruct (IH (S index)
                  (<[rowIndex r0 := rowSet row0 targetLang (translated_text t)]> rows))
        as (res & rows' & Hrun & Hlen & Hres & Hcells & Hframe).
      { intros r Hr. rewrite Hlen1. by apply Hrange. }
      { lia. }
      exists res, rows'. split_and!.
      * done.
      * congruence.
      * rewrite Hres. simpl. lia.
      * intros [|k] r t' Hr Ht.
        -- rewrite Nat.add_0_r in Hr. simplify_eq/=.
           rewrite Hframe; [done|]. intros k r Hk Hr [= Heq].
           assert (S (index + k) = index) as Habs; [|lia].
           apply (NoDup_lookup _ _ _ (rowIndex r0) Hnodup);
             rewrite list_lookup_fmap.
           ++ simpl in Hr. rewrite Hr. simpl. by rewrite Heq.
           ++ by rewrite Hr0.
        -- apply (Hcells k r t'); [|done].
           by replace (S index + k) with (index + S k) by lia.
      * intros i col Hfree. rewrite Hframe.
        -- apply Hframe1. intros [= -> ->].
           apply (Hfree 0 r0); [simpl; lia|by rewrite Nat.add_0_r|done].
        -- intros k r Hk Hr. apply (Hfree (S k) r); [simpl; lia|].
           by replace (index + S k) with (S index + k) by lia.
    + apply lookup_ge_None in Hr0.
      eexists _, rows.
      split_and!; [done|done|split; [done|simpl; lia]| |done].
      intros k r t' Hr _. apply lookup_lt_Some in Hr. lia.
Qed.

(** X15. The earlier version writes by position. For a batch whose
    requests index rows of the table and target distinct rows, and any
    array of results: the loop completes if and only if there are at most
    as many results as requests (one result too many throws); the cell of
    the k-th request, in the column of the language pair, holds the
    translated text of the k-th result, whatever its original text and
    even when it is the empty string; and every cell that is not the
    target of one of the first requests, as many as there are results, is
    as it was. *)
Theorem X15_legacy_positional_write_back rows targetLang batch translations :
  NoDup (rowIndex <$> batch) →
  (∀ r, r ∈ batch → rowIndex r < length rows) →
  let run := Legacy.forEachTranslation rows targetLang batch 0 translations in
  (run.1 = Ok tt ↔ length translations ≤ length batch) ∧
  (∀ k r t, batch !! k = Some r → translations !! k = Some t →
            cellAt run.2 (rowIndex r) targetLang = Some (translated_text t)) ∧
  (∀ i col,
     (∀ k r, k < length translations → batch !! k = Some r →
             (rowIndex r, targetLang) ≠ (i, col)) →
     cellAt run.2 i col = cellAt rows i col).
Proof.
  intros Hnodup Hrange.
  destruct (forEachTranslation_spec targetLang batch translations Hnodup 0 rows
              Hrange (Nat.le_0_l _))
    as (res & rows' & Hrun & _ & Hres & Hcells & Hframe).
  cbn zeta. rewrite Hrun. cbn [fst snd]. split_and!; done.
Qed.

Lemma X15_legacy_positional_write_back_witness :
  cellAt
    (Legacy.forEachTranslation LegacyDemo.tags "fr"
       [ {| rowIndex := 0; sourceLang := "en"; targetLang := "fr";
            text := "hello" |} ] 0
       [ {| original_text := "something else"; translated_text := "" |} ]).2
    0 "fr"
  = Some "".
Proof.
  refine (proj1 (proj2 (X15_legacy_positional_write_back LegacyDemo.tags "fr"
            [ {| rowIndex := 0; sourceLang := "en"; targetLang := "fr";
                 text := "hello" |} ]
            [ {| original_text := "something else"; translated_text := "" |} ]
            _ _)) 0 _ _ eq_refl eq_refl).
  - apply (bool_decide_unpack _). vm_compute. exact I.
  - intros r ->%list_elem_of_singleton. vm_compute. lia.
Defined.

Lemma runAll_app tasks1 tasks2 rows log :
  Legacy.runAll (tasks1 ++ tasks2) rows log =
  let '(r, rows1, log1) := Legacy.runAll tasks1 rows log in
  let '(rs, rows2, log2) := Legacy.runAll tasks2 rows1 log1 in
  (match r with Throw message => Throw message | Ok _ => rs end, rows2, log2).
Proof.
  revert rows log. induction tasks1 as [|task tasks1 IH]; intros rows log.
  - simpl. by destruct (Legacy.runAll tasks2 rows log) as [[[[]|] ?] ?].
  - cbn [app Legacy.runAll]. destruct (task rows log) as [[r rows1] log1].
    rewrite IH. destruct (Legacy.runAll tasks1 rows1 log1) as [[r1 rows2] log2].
    destruct (Legacy.runAll tasks2 rows2 log2) as [[r2 rows3] log3].
    by destruct r, r1.
Qed.

Section LegacyIdeal.
Variable tr : string → string → string → string.

Lemma Legacy_batchPromise_ideal s t batch rows log :
  NoDup (rowIndex <$> batch) →
  (∀ r, r ∈ batch → rowIndex r < length rows) →
  ∃ rows',
    Legacy.batchPromise (idealProvider tr) s t batch rows log
      = (Ok tt, rows', log ++ [callOf s t batch]) ∧
    length rows' = length rows ∧
    (∀ r, r ∈ batch → cellAt rows' (rowIndex r) t = Some (tr s t (text r))) ∧
    (∀ i col, (∀ r, r ∈ batch → (rowIndex r, t) ≠ (i, col)) →
              cellAt rows' i col = cellAt rows i col).
Proof.
  intros Hnodup Hrange.
  destruct (forEachTranslation_spec t batch
              (idealAnswer tr s t (text <$> batch)) Hnodup 0 rows Hrange
              (Nat.le_0_l _))
    as (res & rows' & Hrun & Hlen & Hres & Hcells & Hframe).
  assert (res = Ok tt) as ->.
  { apply Hres. unfold idealAnswer. by rewrite !length_fmap. }
  exists rows'. unfold Legacy.batchPromise, translateTextBatch, idealProvider.
  cbn [call_texts call_sourceLang call_targetLang]. rewrite Hrun.
  split_and!; [done|done| |].
  - intros r [k Hk]%list_elem_of_lookup.
    apply (Hcells k r {| original_text := text r;
                         translated_text := tr s t (text r) |}); [done|].
    unfold idealAnswer. by rewrite !list_lookup_fmap, Hk.
  - intros i col Hfree. apply Hframe. intros k r _ Hr.
    apply Hfree. by eapply list_elem_of_lookup_2.
Qed.

Lemma Legacy_batches_ideal s t (bs : list (list Request)) rows log :
  NoDup (rowIndex <$> mjoin bs) →
  (∀ r, r ∈ mjoin bs → rowIndex r < length rows) →
  ∃ rows' log',
    Legacy.runAll (Legacy.batchPromise (idealProvider tr) s t <$> bs) rows log
      = (Ok tt, rows', log') ∧
    length rows' = length rows ∧
    (∀ r, r ∈ mjoin bs → cellAt rows' (rowIndex r) t = Some (tr s t (text r))) ∧
    (∀ i col, (∀ r, r ∈ mjoin bs → (rowIndex r, t) ≠ (i, col)) →
              cellAt rows' i col = cellAt rows i col).
Proof.
  revert rows log. induction bs as [|b bs IH]; intros rows log Hnodup Hrange.
  - exists rows, log. split_and!; [done|done| |done]. by intros r ?%elem_of_nil.
  - cbn [mjoin list_join] in Hnodup, Hrange. rewrite fmap_app in Hnodup.
    apply NoDup_app in Hnodup as (Hnd1 & Hdisj & Hnd2).
    destruct (Legacy_batchPromise_ideal s t b rows log Hnd1)
      as (rows1 & Hrun1 & Hlen1 & Hcells1 & Hframe1).
    { intros r Hr. apply Hrange, elem_of_app. by left. }
    destruct (IH rows1 (log ++ [callOf s t b]) Hnd2)
      as (rows' & log' & Hrun & Hlen & Hcells & Hframe).
    { intros r Hr. rewrite Hlen1. apply Hrange, elem_of_app. by right. }
    exists rows', log'. rewrite fmap_cons. cbn [Legacy.runAll mjoin list_join].
    rewrite Hrun1, Hrun. split_and!; [done|congruence| |].
    + intros r [Hr|Hr]%elem_of_app; [|by apply Hcells].
      rewrite Hframe; [by apply Hcells1|]. intros r' Hr' [= Heq].
      apply (Hdisj (rowIndex r)); [by apply list_elem_of_fmap_2|].
      rewrite <- Heq. by apply list_elem_of_fmap_2.
    + intros i col Hfree. rewrite Hframe.
      * apply Hframe1. intros r Hr. apply Hfree, elem_of_app. by left.
      * intros r Hr. apply Hfree, elem_of_app. by right.
Qed.

Lemma Legacy_groups_ideal groups rows log :
  (∀ key rs r, (key, rs) ∈ groups → r ∈ rs → langPairKey r = key) →
  (∀ r, r ∈ allRequests groups → rowIndex r < length rows) →
  NoDup (legacyTarget <$> allRequests groups) →
  ∃ rows' log',
    Legacy.runAll (Legacy.allLanguagePromises (idealProvider tr) groups) rows log
      = (Ok tt, rows', log') ∧
    length rows' = length rows ∧
    (∀ r, r ∈ allRequests groups →
          cellAt rows' (rowIndex r) (splitLangPair (langPairKey r)).2
          = Some (tr (splitLangPair (langPairKey r)).1
                     (splitLangPair (langPairKey r)).2 (text r))) ∧
    (∀ i col, (∀ r, r ∈ allRequests groups → legacyTarget r ≠ (i, col)) →
              cellAt rows' i col = cellAt rows i col).
Proof.
  revert rows log. induction groups as [|[key rs] groups IH];
    intros rows log Hkeys Hrange Hnodup.
  - exists rows, log. split_and!; [done|done| |done]. by intros r ?%elem_of_nil.
  - unfold allRequests in Hrange, Hnodup |- *.
    cbn [fmap list_fmap snd mjoin list_join] in Hrange, Hnodup |- *.
    rewrite fmap_app in Hnodup. apply NoDup_app in Hnodup as (Hnd1 & Hdisj & Hnd2).
    cbn [Legacy.allLanguagePromises].
    destruct (splitLangPair key) as [s t] eqn:Hsplit.
    assert (∀ r, r ∈ rs → legacyTarget r = (rowIndex r, t)) as Htarget.
    { intros r Hr. unfold legacyTarget.
      by rewrite (Hkeys key rs r (list_elem_of_here _ _) Hr), Hsplit. }
    assert (0 < Legacy.MAX_BATCH_SIZE) as Hpos by (unfold Legacy.MAX_BATCH_SIZE; lia).
    destruct (batches_partition Legacy.MAX_BATCH_SIZE Hpos rs) as (Hjoin & _ & _).
    destruct (Legacy_batches_ideal s t (batches Legacy.MAX_BATCH_SIZE rs) rows log)
      as (rows1 & log1 & Hrun1 & Hlen1 & Hcells1 & Hframe1).
    { rewrite Hjoin. apply (NoDup_fmap_1 (λ i, (i, t))).
      rewrite <- list_fmap_compose.
      rewrite (Forall_fmap_ext_1 _ legacyTarget); [exact Hnd1|].
      apply Forall_forall. intros r Hr. simpl. by rewrite Htarget. }
    { rewrite Hjoin. intros r Hr. apply Hrange, elem_of_app. by left. }
    rewrite Hjoin in Hcells1, Hframe1.
    destruct (IH rows1 log1) as (rows' & log' & Hrun & Hlen & Hcells & Hframe).
    { intros k rs' r Hin Hr. apply (Hkeys k rs' r); [by right|done]. }
    { intros r Hr. rewrite Hlen1. apply Hrange, elem_of_app. by right. }
    { done. }
    exists rows', log'. rewrite runAll_app, Hrun1, Hrun.
    split_and!; [done|congruence| |].
    + intros r [Hr|Hr]%elem_of_app; [|by apply Hcells].
      rewrite (Hkeys key rs r (list_elem_of_here _ _) Hr), Hsplit. cbn [fst snd].
      rewrite Hframe; [by apply Hcells1|]. intros r' Hr' Heq.
      apply (Hdisj (legacyTarget r)); [by apply list_elem_of_fmap_2|].
      rewrite (Htarget r Hr), <- Heq. by apply list_elem_of_fmap_2.
    + intros i col Hfree. rewrite Hframe.
      * apply Hframe1. intros r Hr. rewrite <- (Htarget r Hr).
        apply Hfree, elem_of_app. by left.
      * intros r Hr. apply Hfree, elem_of_app. by right.
Qed.

Lemma Legacy_fillRows_ideal rows fileName log :
  rows ≠ [] → NoDup (legacyTarget <$> requestsOf rows) →
  ∃ rows' log',
    Legacy.fillRows (idealProvider tr) rows fileName log = (Ok rows', log') ∧
    length rows' = length rows ∧
    (∀ r, r ∈ requestsOf rows →
          cellAt rows' (rowIndex r) (splitLangPair (langPairKey r)).2
          = Some (tr (splitLangPair (langPairKey r)).1
                     (splitLangPair (langPairKey r)).2 (text r))) ∧
    (∀ i col, (∀ r, r ∈ requestsOf rows → legacyTarget r ≠ (i, col)) →
              cellAt rows' i col = cellAt rows i col).
Proof.
  intros Hne Hnodup. destruct rows as [|row rows]; [done|].
  unfold Legacy.fillRows. rewrite Legacy_buildGroups_requests.
  destruct (Legacy_groups_ideal (groupByLangPair (requestsOf (row :: rows)))
              (row :: rows) log)
    as (rows' & log' & Hrun & Hlen & Hcells & Hframe).
  - intros key rs r Hin Hr. pose proof (groupByLangPair_filter _ _ _ Hin) as Hrs.
    rewrite Hrs in Hr. by apply list_elem_of_filter in Hr as [? _].
  - intros r Hr. rewrite groupByLangPair_requests in Hr.
    by apply requestsOf_in_range.
  - by rewrite groupByLangPair_requests.
  - exists rows', log'. rewrite Hrun. split_and!; [done|done| |].
    + intros r Hr. apply Hcells. by rewrite groupByLangPair_requests.
    + intros i col Hfree. apply Hframe. intros r Hr. apply Hfree.
      by rewrite groupByLangPair_requests in Hr.
Qed.
End LegacyIdeal.



(** X16. The earlier version against a Provider that honours its
    contract, the callbacks of the batches running in the order of their
    submission. On a non-empty table in which the cells written for the
    requests are distinct, the run completes and keeps the number of rows;
    each request is written to its row, in the column named by the second
    component of its key [source-target] split at the hyphens, with the
    translation of its text from the first component to the second; and
    every other cell is as it was. The column is the request's own target
    only when the key splits back: with the columns [en], [pt-BR] and
    [pt], the request for the blank [pt-BR] cell is sent as a translation
    to [pt] and overwrites the [pt] cell. *)
Theorem X16_legacy_fill_by_key tr rows fileName log :
  rows ≠ [] → NoDup (legacyTarget <$> requestsOf rows) →
  ∃ rows' log',
    Legacy.fillRows (idealProvider tr) rows fileName log = (Ok rows', log') ∧
    length rows' = length rows ∧
    (∀ r, r ∈ requestsOf rows →
          cellAt rows' (rowIndex r) (splitLangPair (langPairKey r)).2
          = Some (tr (splitLangPair (langPairKey r)).1
                     (splitLangPair (langPairKey r)).2 (text r))) ∧
    (∀ i col, (∀ r, r ∈ requestsOf rows → legacyTarget r ≠ (i, col)) →
              cellAt rows' i col = cellAt rows i col).
Proof. apply Legacy_fillRows_ideal. Qed.

Lemma X16_legacy_fill_by_key_witness :
  ∃ rows' log',
    Legacy.fillRows (idealProvider (λ _ t x, t +:+ ":" +:+ x))
      LegacyDemo.regional "regional.csv" [] = (Ok rows', log') ∧
    cellAt rows' 0 "pt" = Some "pt:hello" ∧
    cellAt rows' 0 "pt-BR" = Some "".
Proof.
  destruct (X16_legacy_fill_by_key (λ _ t x, t +:+ ":" +:+ x)
              LegacyDemo.regional "regional.csv" [])
    as (rows' & log' & Hrun & _ & Hcells & Hframe).
  - discriminate.
  - apply (bool_decide_unpack _). vm_compute. exact I.
  - exists rows', log'. split; [exact Hrun|]. split.
    + refine (Hcells {| rowIndex := 0; sourceLang := "en";
                        targetLang := "pt-BR"; text := "hello" |} _).
      apply (bool_decide_unpack _). vm_compute. exact I.
    + rewrite (Hframe 0 "pt-BR"); [reflexivity|].
      refine (proj1 (Forall_forall _ _) _).
      apply (bool_decide_unpack _). vm_compute. exact I.
Defined.



(** X18. The guards of the earlier [processFile]. A reference whose MIME
    type is not [text/csv] is refused with the message that names the
    type, before any download and without any Provider call. And a run
    that returns a file went through every guard: the MIME type is
    [text/csv], the download answered with [ok], the body was read and
    parsed into at least one row; the file is named [translated_] followed
    by the name of the reference and has the MIME type [text/csv]. *)
Theorem X18_legacy_process_file_guards provider parseCsvData stringifyCsv
    base64 fetch fileRef log :
  let run := Legacy.processFile provider parseCsvData stringifyCsv base64
               fetch fileRef log in
  (Legacy.ref_mime_type fileRef ≠ Some "text/csv" →
   run = (Throw ("Unsupported file type: "
                 +:+ Legacy.printMimeType (Legacy.ref_mime_type fileRef)
                 +:+ ". Only CSV files are supported."), log)) ∧
  (∀ file, run.1 = Ok file →
     Legacy.ref_mime_type fileRef = Some "text/csv" ∧
     name file = "translated_" +:+ ref_name (Legacy.typed_ref fileRef) ∧
     mime_type file = "text/csv" ∧
     ∃ response csvData rows,
       fetch (download_link (Legacy.typed_ref fileRef)) = Ok response ∧
       ok response = true ∧ responseText response = Ok csvData ∧
       parseCsvData csvData = Ok rows ∧ rows ≠ []).
Proof.
  cbn zeta. unfold Legacy.processFile. split.
  - intros Hmime. by rewrite decide_False.
  - intros file. destruct (decide _) as [Hmime|?]; [|done].
    rewrite M_bind_unfold. unfold liftR at 1.
    destruct (fetch _) as [response|] eqn:Hfetch; [|done].
    destruct (ok response) eqn:Hok; [|done]. cbn [negb].
    rewrite M_bind_unfold. unfold liftR at 1.
    destruct (responseText response) as [csvData|] eqn:Htext; [|done].
    rewrite M_bind_unfold. unfold liftR at 1.
    destruct (parseCsvData csvData) as [rows|] eqn:Hparse; [|done].
    rewrite M_bind_unfold.
    destruct (Legacy.fillRows provider rows _ log) as [[rows'|] log'] eqn:Hfill;
      [|done].
    destruct rows' as [|row rows']; [done|].
    rewrite M_ret_unfold. cbn [fst]. intros [= <-].
    split_and!; [done|done|done|].
    exists response, csvData, rows. split_and!; [done|done|done|done|].
    intros ->. unfold Legacy.fillRows, throw in Hfill. congruence.
Qed.

Lemma X18_legacy_process_file_guards_witness :
  Legacy.processFile (idealProvider (λ _ t x, t +:+ ":" +:+ x))
    LegacyRefs.onePet Demo.plainCsv Demo.plain Demo.oneFile LegacyRefs.pdfRef []
  = (Throw "Unsupported file type: application/pdf. Only CSV files are supported.",
     []).
Proof.
  apply (proj1 (X18_legacy_process_file_guards
                  (idealProvider (λ _ t x, t +:+ ":" +:+ x))
                  LegacyRefs.onePet Demo.plainCsv Demo.plain Demo.oneFile
                  LegacyRefs.pdfRef [])).
  discriminate.
Defined.

Example legacy_process_file_ex :
  (Legacy.processFile (idealProvider (λ _ t x, t +:+ ":" +:+ x))
     LegacyRefs.onePet Demo.plainCsv Demo.plain Demo.oneFile LegacyRefs.csvRef
     []).1
  = Ok {| name := "translated_pets.csv"; mime_type := "text/csv";
          content := "en,fr" +:+ String LF "cat,fr:cat" |}.
Proof. vm_compute. reflexivity. Qed.

Example legacy_surplus_results_ex :
  (Legacy.processFile LegacyDemo.talkative
     LegacyRefs.onePet Demo.plainCsv Demo.plain Demo.oneFile LegacyRefs.csvRef
     []).1
  = Throw "Cannot destructure property 'rowIndex' of 'batch[index]' as it is undefined.".
Proof. vm_compute. reflexivity. Qed.

(** ** The failures that give status 500 *)

Lemma promiseAll_member_throws {A} (promises : list (M A)) (p : M A) :
  p ∈ promises → (∀ log, isThrow (p log).1 = true) →
  ∀ log, isThrow (promiseAll promises log).1 = true.
Proof.
  intros Hin Hp. induction promises as [|q rest IH]; intros log.
  - by apply elem_of_nil in Hin.
  - rewrite promiseAll_cons. cbn [fst].
    apply elem_of_cons in Hin as [<-|Hin].
    + specialize (Hp log). by destruct (p log).1.
    + specialize (IH Hin (q log).2). destruct (q log).1; [|done].
      by destruct (promiseAll rest (q log).2).1.
Qed.

Section HttpFailures.
Variable MAX_BATCH_SIZE : nat.
Variable MAX_CONCURRENCY_REQ : EnvConfig.JSValue.
Variable provider : list ProviderCall → ProviderCall → result (list Translation).
Variable parseCsvData : string → result (list Row).
Variable stringifyCsv : list string → list Row → string.
Variable base64 : string → string.
Variable basename : string → string.
Variable fetch : string → result FetchResponse.

Lemma translateOne_throws language fileRef log :
  downloadFails fetch fileRef ∨
  (∃ lang, language = Some lang ∧ JS.truthy lang = true ∧
           isSupported lang = false) ∨
  (wholeTableMode language = false ∧ noRowFile fetch parseCsvData fileRef) →
  isThrow (translateOne MAX_BATCH_SIZE MAX_CONCURRENCY_REQ provider parseCsvData
             stringifyCsv base64 basename fetch language fileRef log).1 = true.
Proof.
  intros [Hdown|[(lang & -> & Hlang & Hsup)|[Hmode Hempty]]].
  - unfold downloadFails in Hdown. unfold translateOne.
    rewrite M_bind_unfold. unfold liftR at 1.
    destruct (fetch (download_link fileRef)) as [response|e]; [|done].
    destruct Hdown as [->|Hbody]; [done|].
    destruct (negb (ok response)); [done|].
    rewrite M_bind_unfold. unfold liftR at 1.
    by destruct (responseText response).
  - destruct (translateOne_unsupported MAX_BATCH_SIZE MAX_CONCURRENCY_REQ
                provider parseCsvData stringifyCsv base64 basename fetch lang
                fileRef log Hlang Hsup) as [e ->].
    done.
  - destruct Hempty as (response & csvData & Hfetch & Hok & Htext & Hparse).
    unfold translateOne. rewrite M_bind_unfold. unfold liftR at 1.
    rewrite Hfetch, Hok. cbn [negb].
    rewrite M_bind_unfold. unfold liftR at 1. rewrite Htext.
    assert (isThrow (processFile MAX_BATCH_SIZE MAX_CONCURRENCY_REQ provider
                       parseCsvData stringifyCsv base64 csvData
                       (ref_name fileRef) log).1 = true) as Hfill.
    { unfold processFile. rewrite M_bind_unfold. unfold liftR at 1.
      by rewrite Hparse. }
    destruct language as [lang|]; [|done].
    simpl in Hmode. by rewrite Hmode.
Qed.

Lemma translateHandler_throws ref refs language log ext :
  (promiseAll
     (translateOne MAX_BATCH_SIZE MAX_CONCURRENCY_REQ provider parseCsvData
        stringifyCsv base64 basename fetch language <$> ref :: refs) log).2
  = log ++ ext →
  callFailed provider log ext →
  isThrow
    (promiseAll
       (translateOne MAX_BATCH_SIZE MAX_CONCURRENCY_REQ provider parseCsvData
          stringifyCsv base64 basename fetch language <$> ref :: refs) log).1
  = true.
Proof.
  intros Hlog Hfailed.
  destruct (failFast_promiseAll provider
              (translateOne MAX_BATCH_SIZE MAX_CONCURRENCY_REQ provider
                 parseCsvData stringifyCsv base64 basename fetch language
                 <$> ref :: refs)) with (log := log) as (ext' & Hlog' & Hfail).
  { apply Forall_fmap, Forall_true. intros fileRef.
    apply failFast_translateOne. }
  rewrite Hlog in Hlog'. apply app_inv_head in Hlog' as <-. auto.
Qed.
End HttpFailures.

(** X19. The HTTP boundary. The response has status 400 exactly when
    [openaiFileIdRefs] is not a non-empty array. For a non-empty array of
    references, the status is 500 and the body is [{error: message}] with
    a non-empty message as soon as, for one file, the download fails
    ([fetch] throws, the response is not [ok] or its body cannot be read);
    or the request's [language] is a non-empty string that is not a
    supported language; or, in fill-missing-cells mode, one file has no
    row; or one of the Provider calls made for the request threw. A body
    with files comes only with status 200 and holds one file per
    reference: a failure of one file leaves no file of the others. *)
Theorem X19_http_failures MAX_BATCH_SIZE MAX_CONCURRENCY_REQ provider
    parseCsvData stringifyCsv base64 basename fetch req log :
  let run :=
    translateHandler MAX_BATCH_SIZE MAX_CONCURRENCY_REQ provider parseCsvData
      stringifyCsv base64 basename fetch req log in
  (status run.1 = 400 ↔
   (∀ refs, openaiFileIdRefs req = RefsArray refs → refs = [])) ∧
  (∀ refs,
     openaiFileIdRefs req = RefsArray refs → refs ≠ [] →
     ((∃ fileRef, fileRef ∈ refs ∧ downloadFails fetch fileRef) ∨
      (∃ lang, language req = Some lang ∧ JS.truthy lang = true ∧
               isSupported lang = false) ∨
      (wholeTableMode (language req) = false ∧
       ∃ fileRef, fileRef ∈ refs ∧ noRowFile fetch parseCsvData fileRef) ∨
      (∃ ext, run.2 = log ++ ext ∧ callFailed provider log ext) →
      status run.1 = 500 ∧
      ∃ message, body run.1 = ErrorBody message ∧ message ≠ "") ∧
     (∀ files, body run.1 = FilesBody files →
               status run.1 = 200 ∧ length files = length refs)).
Proof.
  destruct req as [field requested].
  destruct field as [|[|ref refs]]; cbn zeta.
  - split; [split; [by intros _ refs [=]|done]|]. by intros refs [=].
  - split; [split; [by intros _ refs [= <-]|done]|]. by intros refs [= <-] [].
  - rewrite translateHandler_array.
    set (promises := translateOne MAX_BATCH_SIZE MAX_CONCURRENCY_REQ provider
                       parseCsvData stringifyCsv base64 basename fetch requested
                       <$> ref :: refs).
    split.
    { split; [by destruct (promiseAll promises log) as [[?|?] ?]|].
      intros Hnone. by specialize (Hnone _ eq_refl). }
    intros refs' [= <-] _. cbn [openaiFileIdRefs language].
    assert (∀ fileRef,
              fileRef ∈ ref :: refs →
              (∀ l, isThrow
                      (translateOne MAX_BATCH_SIZE MAX_CONCURRENCY_REQ provider
                         parseCsvData stringifyCsv base64 basename fetch
                         requested fileRef l).1 = true) →
              isThrow (promiseAll promises log).1 = true) as Hmember.
    { intros fileRef Hin Hp.
      apply (promiseAll_member_throws promises
               (translateOne MAX_BATCH_SIZE MAX_CONCURRENCY_REQ provider
                  parseCsvData stringifyCsv base64 basename fetch requested
                  fileRef)); [|done].
      by apply list_elem_of_fmap_2. }
    split.
    + intros Hfailure.
      assert (isThrow (promiseAll promises log).1 = true) as Hthrow.
      { destruct Hfailure
          as [(fileRef & Hin & Hdown)|[Hlang|[[Hmode (fileRef & Hin & Hempty)]|
              (ext & Hlog & Hfailed)]]].
        - apply (Hmember fileRef Hin). intros l. apply translateOne_throws.
          by left.
        - apply (Hmember ref (list_elem_of_here _ _)). intros l.
          apply translateOne_throws. right. by left.
        - apply (Hmember fileRef Hin). intros l. apply translateOne_throws.
          right. by right.
        - apply (translateHandler_throws _ _ _ _ _ _ _ _ _ _ _ _ ext);
            [|done].
          revert Hlog. fold promises.
          by destruct (promiseAll promises log) as [[?|?] ?]. }
      destruct (promiseAll promises log) as [[files|message] log']; [done|].
      split; [done|]. eexists. split; [done|]. by destruct message.
    + intros files.
      destruct (promiseAll promises log) as [[values|message] log'] eqn:Hall;
        [|done].
      intros [= <-]. split; [done|].
      apply promiseAll_Ok, Forall2_length in Hall.
      unfold promises in Hall. by rewrite length_fmap in Hall.
Qed.

Lemma X19_http_failures_witness :
  status (translateHandler 10 (EnvConfig.JSNumber 100) Demo.echoProvider
            Demo.noRows Demo.plainCsv Demo.plain Demo.plain Demo.oneFile
            {| openaiFileIdRefs := RefsArray [Demo.petsRef; Demo.lostRef];
               language := Some "French" |} []).1 = 500.
Proof.
  refine (proj1 (proj1 (proj2
    (X19_http_failures 10 (EnvConfig.JSNumber 100) Demo.echoProvider
       Demo.noRows Demo.plainCsv Demo.plain Demo.plain Demo.oneFile
       {| openaiFileIdRefs := RefsArray [Demo.petsRef; Demo.lostRef];
          language := Some "French" |} [])
    [Demo.petsRef; Demo.lostRef] eq_refl _) _)).
  - discriminate.
  - left. exists Demo.lostRef. split.
    + apply list_elem_of_further, list_elem_of_here.
    + vm_compute. left. reflexivity.
Defined.
